(** * useTransitionState: a shallow embedding of the hook and its host

    The development follows [src/useTransitionState.ts].  The hook is a
    React function component fragment: two state cells, two refs, one mount
    effect, one passive effect keyed on the visibility flag and one layout
    effect keyed on both cells.  Everything the hook does happens inside
    effect bodies, timer callbacks and animation-frame callbacks, so the
    model is an explicit state record together with the host's event loop:
    render/commit, [setTimeout]/[clearTimeout], [requestAnimationFrame],
    and unmounting. *)

From Stdlib Require Import ZArith String List Bool Lia.
From stdpp Require Import gmap strings pretty.
Import ListNotations.

Local Open Scope string_scope.
Local Open Scope list_scope.
Local Open Scope Z_scope.

(** ** Values *)

(** [CSSProperties]: a bag of inline style declarations.  Only string
    values are modelled (the presets use nothing else). *)
Abbreviation CSSProperties := (gmap string string).

(** [AnimationKeyframes].  The TypeScript interface makes both fields
    mandatory, but nothing checks that at run time: a field that is absent
    reads as [undefined], which is [None] here. *)
Record AnimationKeyframes := {
  from : option CSSProperties;
  to : option CSSProperties
}.

(** The run-time values the [effect] option can hold.  [VInherited k] is the
    value found under key [k] on [Object.prototype] (a built-in function, or
    the prototype object itself for [__proto__]). *)
Inductive JsValue :=
| VNull
| VBoolean (b : bool)
| VNumber (n : Z)
| VString (s : string)
| VObject (o : AnimationKeyframes)
| VInherited (key : string).

Inductive JsError := TypeError | MaximumUpdateDepth.

(** Results of code that may throw. *)
Inductive Result (A : Type) :=
| Ok (a : A)
| Throw (e : JsError).
Arguments Ok {A} a.
Arguments Throw {A} e.

Definition bind {A B} (r : Result A) (k : A -> Result B) : Result B :=
  match r with
  | Ok a => k a
  | Throw e => Throw e
  end.

Notation "x <- r ;; k" := (bind r (fun x => k))
  (at level 100, r at next level, right associativity).

(** ** EffectResolver *)

Module Presets.

Definition fade : AnimationKeyframes :=
  {| from := Some {[ "opacity" := "0" ]};
     to := Some {[ "opacity" := "1" ]} |}.

Definition slide : AnimationKeyframes :=
  {| from := Some (<[ "transform" := "translateY(-20px)" ]> {[ "opacity" := "0" ]});
     to := Some (<[ "transform" := "translateY(0)" ]> {[ "opacity" := "1" ]}) |}.

Definition zoom : AnimationKeyframes :=
  {| from := Some (<[ "transform" := "scale(0.95)" ]> {[ "opacity" := "0" ]});
     to := Some (<[ "transform" := "scale(1)" ]> {[ "opacity" := "1" ]}) |}.

End Presets.

(** The own properties of the [PRESETS] object literal. *)
Definition PRESETS : list (string * AnimationKeyframes) :=
  [ ("fade", Presets.fade); ("slide", Presets.slide); ("zoom", Presets.zoom) ].

(** [PRESETS] is a plain object literal, so its prototype is
    [Object.prototype]; these are the keys every such object inherits. *)
Definition ObjectPrototypeKeys : list string :=
  [ "constructor"; "hasOwnProperty"; "isPrototypeOf"; "propertyIsEnumerable";
    "toLocaleString"; "toString"; "valueOf"; "__proto__";
    "__defineGetter__"; "__defineSetter__"; "__lookupGetter__";
    "__lookupSetter__" ].

Fixpoint ownProperty (own : list (string * AnimationKeyframes)) (key : string)
  : option AnimationKeyframes :=
  match own with
  | [] => None
  | (k, v) :: rest => if String.eqb k key then Some v else ownProperty rest key
  end.

(** [obj[key]] for an object literal: own properties first, then the
    prototype chain; [None] is [undefined]. *)
Definition getProperty (own : list (string * AnimationKeyframes)) (key : string)
  : option JsValue :=
  match ownProperty own key with
  | Some o => Some (VObject o)
  | None =>
      if existsb (String.eqb key) ObjectPrototypeKeys
      then Some (VInherited key)
      else None
  end.

(** JavaScript truthiness ([VNumber] stands for integers; [0] is falsy). *)
Definition truthy (v : JsValue) : bool :=
  match v with
  | VNull => false
  | VBoolean b => b
  | VNumber n => negb (n =? 0)
  | VString s => negb (String.eqb s "")
  | VObject _ => true
  | VInherited _ => true
  end.

(** [a || b] where [a] may be [undefined]. *)
Definition jsOr (a : option JsValue) (b : JsValue) : JsValue :=
  match a with
  | Some v => if truthy v then v else b
  | None => b
  end.

(** [getEffectConfig], lines 81-86, as a function of the [effect] option
    after its default has been applied. *)
Definition getEffectConfig (effect : JsValue) : JsValue :=
  match effect with
  | VString name => jsOr (getProperty PRESETS name) (VObject Presets.fade)
  | _ => effect
  end.

(** [config.from] and [config.to]: reading a property of [null] throws,
    primitives and built-in functions have no such property. *)
Definition getFrom (config : JsValue) : Result (option CSSProperties) :=
  match config with
  | VNull => Throw TypeError
  | VObject o => Ok (from o)
  | _ => Ok None
  end.

Definition getTo (config : JsValue) : Result (option CSSProperties) :=
  match config with
  | VNull => Throw TypeError
  | VObject o => Ok (to o)
  | _ => Ok None
  end.

(** ** Options and host *)

(** [TransitionOptions].  A missing field is [None]; for the four callbacks
    only whether one was supplied matters, since an invocation is recorded
    in the log. *)
Record TransitionOptions := {
  duration : option Z;
  effect : option JsValue;
  timingFunction : option string;
  onEnter : bool;
  onEntered : bool;
  onExit : bool;
  onExited : bool
}.

(** What the calling component does with the hook's results. *)
Record Host := {
  (** the element rendered under [presence] carries [ref={nodeBinding}] *)
  attachesRef : bool;
  (** the [effect] option is an object literal rebuilt on every render, so
      it is a different object each time the dependency array is compared *)
  inlineEffect : bool
}.

(** ** Observable actions *)

Inductive Lifecycle := OnEnter | OnEntered | OnExit | OnExited.

Inductive Action :=
| Invoke (c : Lifecycle)
| SetTransition (value : string)
| Assign (styles : CSSProperties).

(** ** Deferred work *)

Inductive TimerCallback := ExitTimer | EnteredTimer.

Record Timer := {
  timerId : nat;
  created : Z;
  delay : Z;
  callback : TimerCallback
}.

(** [setTimeout]'s second parameter is a WebIDL [long]: a JavaScript
    number that holds an integer is reduced modulo 2^32 into the signed
    32-bit range. *)
Definition toInt32 (n : Z) : Z :=
  (n + 2147483648) mod 4294967296 - 2147483648.

(** The time [setTimeout(cb, ms)] waits (HTML Standard, timer
    initialisation steps): [ms] as a [long], a negative value counting as
    zero.  It is [ms] itself from 0 to 2147483647; 2147483648, for one,
    becomes -2147483648 and then 0. *)
Definition timeoutDelay (ms : Z) : Z := Z.max 0 (toInt32 ms).

(** When a pending timer expires. *)
Definition due (t : Timer) : Z := created t + timeoutDelay (delay t).

Arguments timeoutDelay : simpl never.

(** The two closures handed to [requestAnimationFrame]; both capture the
    [config] resolved by the layout effect that started the chain. *)
Inductive FrameCallback :=
| OuterFrame (config : JsValue)
| InnerFrame (config : JsValue).

(** ** Hook state *)

Record Hook := {
  isVisible : bool;
  shouldRender : bool;
  (** [elementRef.current]; the node is represented by its inline style *)
  elementRef : option CSSProperties;
  isMountedRef : bool;
  (** the owning component instance is in the tree *)
  mounted : bool;
  (** [(isVisible, shouldRender)] as of the last committed render *)
  rendered : option (bool * bool);
  (** the cleanup returned by the last run of the visibility effect:
      [Some id] stands for [() => clearTimeout(id)] *)
  cleanup : option nat;
  timers : list Timer;
  frames : list FrameCallback;
  nextTimer : nat;
  now : Z;
  log : list (Z * Action)
}.

Definition set_isVisible (b : bool) (s : Hook) : Hook :=
  {| isVisible := b; shouldRender := shouldRender s;
     elementRef := elementRef s; isMountedRef := isMountedRef s;
     mounted := mounted s; rendered := rendered s; cleanup := cleanup s;
     timers := timers s; frames := frames s; nextTimer := nextTimer s;
     now := now s; log := log s |}.

Definition set_shouldRender (b : bool) (s : Hook) : Hook :=
  {| isVisible := isVisible s; shouldRender := b;
     elementRef := elementRef s; isMountedRef := isMountedRef s;
     mounted := mounted s; rendered := rendered s; cleanup := cleanup s;
     timers := timers s; frames := frames s; nextTimer := nextTimer s;
     now := now s; log := log s |}.

Definition set_elementRef (e : option CSSProperties) (s : Hook) : Hook :=
  {| isVisible := isVisible s; shouldRender := shouldRender s;
     elementRef := e; isMountedRef := isMountedRef s;
     mounted := mounted s; rendered := rendered s; cleanup := cleanup s;
     timers := timers s; frames := frames s; nextTimer := nextTimer s;
     now := now s; log := log s |}.

Definition set_isMountedRef (b : bool) (s : Hook) : Hook :=
  {| isVisible := isVisible s; shouldRender := shouldRender s;
     elementRef := elementRef s; isMountedRef := b;
     mounted := mounted s; rendered := rendered s; cleanup := cleanup s;
     timers := timers s; frames := frames s; nextTimer := nextTimer s;
     now := now s; log := log s |}.

Definition set_mounted (b : bool) (s : Hook) : Hook :=
  {| isVisible := isVisible s; shouldRender := shouldRender s;
     elementRef := elementRef s; isMountedRef := isMountedRef s;
     mounted := b; rendered := rendered s; cleanup := cleanup s;
     timers := timers s; frames := frames s; nextTimer := nextTimer s;
     now := now s; log := log s |}.

Definition set_rendered (r : option (bool * bool)) (s : Hook) : Hook :=
  {| isVisible := isVisible s; shouldRender := shouldRender s;
     elementRef := elementRef s; isMountedRef := isMountedRef s;
     mounted := mounted s; rendered := r; cleanup := cleanup s;
     timers := timers s; frames := frames s; nextTimer := nextTimer s;
     now := now s; log := log s |}.

Definition set_cleanup (c : option nat) (s : Hook) : Hook :=
  {| isVisible := isVisible s; shouldRender := shouldRender s;
     elementRef := elementRef s; isMountedRef := isMountedRef s;
     mounted := mounted s; rendered := rendered s; cleanup := c;
     timers := timers s; frames := frames s; nextTimer := nextTimer s;
     now := now s; log := log s |}.

Definition set_timers (ts : list Timer) (s : Hook) : Hook :=
  {| isVisible := isVisible s; shouldRender := shouldRender s;
     elementRef := elementRef s; isMountedRef := isMountedRef s;
     mounted := mounted s; rendered := rendered s; cleanup := cleanup s;
     timers := ts; frames := frames s; nextTimer := nextTimer s;
     now := now s; log := log s |}.

Definition set_frames (fs : list FrameCallback) (s : Hook) : Hook :=
  {| isVisible := isVisible s; shouldRender := shouldRender s;
     elementRef := elementRef s; isMountedRef := isMountedRef s;
     mounted := mounted s; rendered := rendered s; cleanup := cleanup s;
     timers := timers s; frames := fs; nextTimer := nextTimer s;
     now := now s; log := log s |}.

Definition set_nextTimer (n : nat) (s : Hook) : Hook :=
  {| isVisible := isVisible s; shouldRender := shouldRender s;
     elementRef := elementRef s; isMountedRef := isMountedRef s;
     mounted := mounted s; rendered := rendered s; cleanup := cleanup s;
     timers := timers s; frames := frames s; nextTimer := n;
     now := now s; log := log s |}.

Definition set_now (t : Z) (s : Hook) : Hook :=
  {| isVisible := isVisible s; shouldRender := shouldRender s;
     elementRef := elementRef s; isMountedRef := isMountedRef s;
     mounted := mounted s; rendered := rendered s; cleanup := cleanup s;
     timers := timers s; frames := frames s; nextTimer := nextTimer s;
     now := t; log := log s |}.

Definition set_log (l : list (Z * Action)) (s : Hook) : Hook :=
  {| isVisible := isVisible s; shouldRender := shouldRender s;
     elementRef := elementRef s; isMountedRef := isMountedRef s;
     mounted := mounted s; rendered := rendered s; cleanup := cleanup s;
     timers := timers s; frames := frames s; nextTimer := nextTimer s;
     now := now s; log := l |}.

(** ** Host primitives *)

(** Append an action, stamped with the current time. *)
Definition record (a : Action) (s : Hook) : Hook :=
  set_log (log s ++ [(now s, a)]) s.

(** [if (cb) cb()]. *)
Definition invoke (supplied : bool) (c : Lifecycle) (s : Hook) : Hook :=
  if supplied then record (Invoke c) s else s.

(** [setTimeout(cb, ms)]: returns the handle and the new state. *)
Definition setTimeout (cb : TimerCallback) (ms : Z) (s : Hook) : nat * Hook :=
  let t := {| timerId := nextTimer s; created := now s; delay := ms;
              callback := cb |} in
  (nextTimer s, set_nextTimer (S (nextTimer s)) (set_timers (timers s ++ [t]) s)).

(** [clearTimeout(id)]; clearing a handle that is not pending does nothing. *)
Definition clearTimeout (id : nat) (s : Hook) : Hook :=
  set_timers (filter (fun t => timerId t <> id) (timers s)) s.

Definition requestAnimationFrame (cb : FrameCallback) (s : Hook) : Hook :=
  set_frames (frames s ++ [cb]) s.

(** The truthiness test [if (elementRef.current)]. *)
Definition bound (s : Hook) : bool :=
  match elementRef s with
  | Some _ => true
  | None => false
  end.

(** [elementRef.current.style.transition = value], reached only under a
    check that the ref is bound. *)
Definition setTransition (value : string) (s : Hook) : Hook :=
  match elementRef s with
  | Some style =>
      record (SetTransition value)
        (set_elementRef (Some (<[ "transition" := value ]> style)) s)
  | None => s
  end.

(** [applyStyle], lines 88-92.  [Object.assign] ignores an [undefined]
    source, so [None] for [styles] changes nothing. *)
Definition applyStyle (styles : option CSSProperties) (s : Hook) : Hook :=
  match elementRef s with
  | Some style =>
      match styles with
      | Some bag => record (Assign bag) (set_elementRef (Some (bag ∪ style)) s)
      | None => s
      end
  | None => s
  end.

(** The state setter of the second [useState]; React drops updates to an
    instance that is no longer in the tree. *)
Definition setShouldRender (b : bool) (s : Hook) : Hook :=
  if mounted s then set_shouldRender b s else s.

(** Modelled from the spec: React's state cell, which is not among the
    sources.  The specification has state cells whose subscriptions are
    change-triggered (section 9) and makes setting the intent to its
    current value a no-operation (section 8); React's [useState] compares
    the next state with the current one by [Object.is] and drops an equal
    one without rendering. *)
Definition bailsOut (next current : bool) : bool := Bool.eqb next current.

(** ** The hook *)

(** React gives up on a component whose effects keep scheduling renders. *)
Definition maximumUpdateDepth : nat := 50.

Inductive SetStateAction :=
| Value (next : bool)
| Updater (f : bool -> bool).

Definition resolveAction (a : SetStateAction) (prev : bool) : bool :=
  match a with
  | Value next => next
  | Updater f => f prev
  end.

(** What can happen to a mounted instance. *)
Inductive Event :=
| SetIsVisible (a : SetStateAction)
| Rerender
| AnimationFrame
| Elapse (ms : Z)
| Unmount.

(** Dependency comparison against the previous committed render; there is
    none before the first commit, and then every effect runs. *)
Definition sameDeps (prev : option (bool * bool)) (v r : bool) : bool :=
  match prev with
  | Some (v', r') => Bool.eqb v' v && Bool.eqb r' r
  | None => false
  end.

Definition sameVisible (prev : option (bool * bool)) (v : bool) : bool :=
  match prev with
  | Some (v', _) => Bool.eqb v' v
  | None => false
  end.

(** The pending timer that expires first; among equals, the one that was
    scheduled first. *)
Fixpoint earliest (ts : list Timer) : option Timer :=
  match ts with
  | [] => None
  | t :: rest =>
      match earliest rest with
      | Some u => if due u <? due t then Some u else Some t
      | None => Some t
      end
  end.

Definition nextDue (target : Z) (ts : list Timer) : option Timer :=
  match earliest ts with
  | Some t => if due t <=? target then Some t else None
  | None => None
  end.

Section HookInstance.

Variable options : TransitionOptions.
Variable host : Host.

(** The destructuring defaults of lines 59-67. *)
Definition durationOf : Z := default 300 (duration options).
Definition effectOf : JsValue := default (VString "fade") (effect options).
Definition timingFunctionOf : string :=
  default "ease-in-out" (timingFunction options).

(** [`all ${duration}ms ${timingFunction}`].  The duration is taken to be
    an integer; [pretty] prints all its digits, as the template literal
    does for a number below 10^21 in magnitude (from there on JavaScript
    prints a number in exponent form). *)
Definition transitionValue : string :=
  "all " +:+ pretty durationOf +:+ "ms " +:+ timingFunctionOf.

(** Whether [Object.is] tells this render's [effect] from the previous
    one's: only an object rebuilt by the caller is a new value. *)
Definition effectIsFresh : bool :=
  inlineEffect host &&
  match effectOf with
  | VObject _ => true
  | _ => false
  end.

(** The effect of lines 94-120, run for a render that saw [isVisible = v]
    and [shouldRender = r].  The returned cleanup is stored in the state. *)
Definition visibilityEffect (v r : bool) (s : Hook) : Result Hook :=
  if v then
    let s := invoke (onEnter options) OnEnter s in
    let s := setShouldRender true s in
    Ok (set_cleanup None s)
  else if negb r then
    Ok (set_cleanup None s)
  else
    let s := invoke (onExit options) OnExit s in
    let config := getEffectConfig effectOf in
    s <- (if bound s then
            let s := setTransition transitionValue s in
            styles <- getFrom config ;;
            Ok (applyStyle styles s)
          else Ok s) ;;
    let (timer, s) := setTimeout ExitTimer durationOf s in
    Ok (set_cleanup (Some timer) s).

(** The layout effect of lines 122-142 up to the first
    [requestAnimationFrame]. *)
Definition layoutEffect (v r : bool) (s : Hook) : Result Hook :=
  if v && r && bound s then
    let config := getEffectConfig effectOf in
    let s := setTransition "none" s in
    styles <- getFrom config ;;
    let s := applyStyle styles s in
    Ok (requestAnimationFrame (OuterFrame config) s)
  else Ok s.

(** The cleanup of the visibility effect, when its last run returned one. *)
Definition runCleanup (s : Hook) : Hook :=
  match cleanup s with
  | Some id => set_cleanup None (clearTimeout id s)
  | None => s
  end.

(** The host's part of a commit: the ref follows the element, which is in
    the tree exactly when the render saw [shouldRender]. A node that has
    just been created has an empty inline style. *)
Definition reconcileRef (r : bool) (s : Hook) : Hook :=
  if attachesRef host then
    if r then
      if bound s then s else set_elementRef (Some ∅) s
    else set_elementRef None s
  else s.

(** One render and commit: the host updates the tree and the ref, layout
    effects whose dependencies changed run, then passive effects whose
    dependencies changed run (cleanup first).  The mount effect of lines
    74-79 runs with the first commit only. *)
Definition commit (s : Hook) : Result Hook :=
  let v := isVisible s in
  let r := shouldRender s in
  let prev := rendered s in
  let s := reconcileRef r s in
  s <- (if sameDeps prev v r then Ok s else layoutEffect v r s) ;;
  let s := match prev with
           | None => set_isMountedRef true s
           | Some _ => s
           end in
  s <- (if sameVisible prev v && negb effectIsFresh then Ok s
        else visibilityEffect v r (runCleanup s)) ;;
  Ok (set_rendered (Some (v, r)) s).

(** A state cell differs from what the last render saw. *)
Definition dirty (s : Hook) : bool :=
  negb (sameDeps (rendered s) (isVisible s) (shouldRender s)).

(** Render until no update is pending. *)
Fixpoint settle (fuel : nat) (s : Hook) : Result Hook :=
  if dirty s then
    match fuel with
    | O => Throw MaximumUpdateDepth
    | S fuel' => s' <- commit s ;; settle fuel' s'
    end
  else Ok s.

(** The closures passed to [requestAnimationFrame], lines 129-140. *)
Definition runFrame (cb : FrameCallback) (s : Hook) : Result Hook :=
  match cb with
  | OuterFrame config => Ok (requestAnimationFrame (InnerFrame config) s)
  | InnerFrame config =>
      if negb (bound s) then Ok s
      else
        let s := setTransition transitionValue s in
        styles <- getTo config ;;
        let s := applyStyle styles s in
        Ok (snd (setTimeout EnteredTimer durationOf s))
  end.

(** The closures passed to [setTimeout], lines 112-117 and 136-138.
    The state update made by the exit timer is rendered once the callback
    has returned. *)
Definition runTimer (cb : TimerCallback) (s : Hook) : Result Hook :=
  match cb with
  | ExitTimer =>
      if isMountedRef s then
        let s := setShouldRender false s in
        let s := invoke (onExited options) OnExited s in
        if mounted s then settle maximumUpdateDepth s else Ok s
      else Ok s
  | EnteredTimer =>
      Ok (if isMountedRef s then invoke (onEntered options) OnEntered s
          else s)
  end.

(** A paint opportunity: the callbacks queued so far run in order; what
    they queue waits for the next one. *)
Fixpoint runFrames (queue : list FrameCallback) (s : Hook) : Result Hook :=
  match queue with
  | [] => Ok s
  | cb :: rest => s' <- runFrame cb s ;; runFrames rest s'
  end.

(** Let the clock reach [target], running every timer that expires on the
    way at its expiry time. *)
Fixpoint fireDue (fuel : nat) (target : Z) (s : Hook) : Result Hook :=
  match nextDue target (timers s) with
  | None => Ok (set_now (Z.max (now s) target) s)
  | Some t =>
      match fuel with
      | O => Ok s
      | S fuel' =>
          let s := clearTimeout (timerId t) s in
          let s := set_now (Z.max (now s) (due t)) s in
          s' <- runTimer (callback t) s ;;
          fireDue fuel' target s'
      end
  end.

(** Removing the instance from the tree: the ref is detached, then the
    cleanups of the mount effect and of the visibility effect run. *)
Definition unmount (s : Hook) : Hook :=
  if mounted s then
    let s := if attachesRef host then set_elementRef None s else s in
    let s := set_isMountedRef false s in
    let s := runCleanup s in
    set_mounted false s
  else s.

(** [setIsVisible], the setter of the first [useState]: the action is
    resolved against the current value; React drops the update when
    [bailsOut] says so, and renders otherwise. *)
Definition setIsVisible (a : SetStateAction) (s : Hook) : Result Hook :=
  if mounted s then
    let next := resolveAction a (isVisible s) in
    if bailsOut next (isVisible s) then Ok s
    else settle maximumUpdateDepth (set_isVisible next s)
  else Ok s.

Definition step (e : Event) (s : Hook) : Result Hook :=
  match e with
  | SetIsVisible a => setIsVisible a s
  | Rerender =>
      if mounted s then s' <- commit s ;; settle maximumUpdateDepth s'
      else Ok s
  | AnimationFrame => runFrames (frames s) (set_frames [] s)
  | Elapse ms =>
      fireDue (length (timers s)) (now s + Z.max 0 ms) s
  | Unmount => Ok (unmount s)
  end.

Fixpoint run (es : list Event) (s : Hook) : Result Hook :=
  match es with
  | [] => Ok s
  | e :: rest => s' <- step e s ;; run rest s'
  end.

(** The first render of [useTransitionState(initialValue, options)]. *)
Definition firstRender (initialValue : option bool) : Hook :=
  let initial := default false initialValue in
  {| isVisible := initial; shouldRender := initial;
     elementRef := None; isMountedRef := true; mounted := true;
     rendered := None; cleanup := None; timers := []; frames := [];
     nextTimer := 0; now := 0; log := [] |}.

Definition useTransitionState (initialValue : option bool) : Result Hook :=
  settle maximumUpdateDepth (firstRender initialValue).

(** The first component of the returned triple. *)
Definition presence (s : Hook) : bool := shouldRender s.

(** A state is reachable when some sequence of events leads to it from
    the first render. *)
Definition reachable (s : Hook) : Prop :=
  exists initialValue es,
    (s0 <- useTransitionState initialValue ;; run es s0) = Ok s.

End HookInstance.

(** ** Vocabulary of the specification *)

Definition sameLifecycle (a b : Lifecycle) : bool :=
  match a, b with
  | OnEnter, OnEnter | OnEntered, OnEntered
  | OnExit, OnExit | OnExited, OnExited => true
  | _, _ => false
  end.

(** The times at which the callback [c] was invoked. *)
Definition invokedAt (c : Lifecycle) (entry : Z * Action) : option Z :=
  match snd entry with
  | Invoke c' => if sameLifecycle c c' then Some (fst entry) else None
  | _ => None
  end.

Definition invocations (c : Lifecycle) (l : list (Z * Action)) : list Z :=
  omap (invokedAt c) l.

(** The writes to the node's inline style, in order. *)
Definition styleMutation (entry : Z * Action) : option (Z * Action) :=
  match snd entry with
  | Invoke _ => None
  | _ => Some entry
  end.

Definition styleMutations (l : list (Z * Action)) : list (Z * Action) :=
  omap styleMutation l.


Definition isExit (t : Timer) : bool :=
  match callback t with
  | ExitTimer => true
  | EnteredTimer => false
  end.

(** An exit is in flight while its duration timer is pending. *)
Definition exiting (s : Hook) : bool := existsb isExit (timers s).

(** An enter is in flight while the intent is to show and part of the
    frame chain or the [onEntered] timer is still pending. *)
Definition entering (s : Hook) : bool :=
  isVisible s &&
  (negb (forallb isExit (timers s)) ||
   match frames s with
   | [] => false
   | _ :: _ => true
   end).

(** [shouldRender] as the last committed render saw it. *)
Definition renderedPresence (s : Hook) : bool :=
  match rendered s with
  | Some (_, r) => r
  | None => false
  end.

(** What holds of the hook between any two steps of the host, also while
    an update is still waiting to be rendered. *)
Record Inv (options : TransitionOptions) (host : Host) (s : Hook) : Prop := {
  inv_mounted : isMountedRef s = mounted s;
  inv_present : forall r, rendered s = Some (true, r) ->
    shouldRender s = true /\ cleanup s = None;
  inv_exit : forall t, t ∈ timers s -> callback t = ExitTimer ->
    cleanup s = Some (timerId t) /\ rendered s = Some (false, true) /\
    shouldRender s = true /\ mounted s = true;
  inv_ids : forall t, t ∈ timers s -> (timerId t < nextTimer s)%nat;
  inv_nodup : NoDup (timerId <$> timers s);
  inv_delay : forall t, t ∈ timers s ->
    delay t = durationOf options /\ created t <= now s;
  inv_ref : bound s = attachesRef host && renderedPresence s && mounted s
}.

(** No update is waiting to be rendered. *)
Definition settled (s : Hook) : Prop := dirty s = false.

(** [s'] differs from [s] at most in the node's style, the frame queue and
    the log. *)
Definition quiet (s s' : Hook) : Prop :=
  isVisible s' = isVisible s /\ shouldRender s' = shouldRender s /\
  isMountedRef s' = isMountedRef s /\ mounted s' = mounted s /\
  rendered s' = rendered s /\ cleanup s' = cleanup s /\
  timers s' = timers s /\ nextTimer s' = nextTimer s /\
  now s' = now s /\ bound s' = bound s.

(** The configuration a queued frame callback has captured. *)
Definition frameConfig (cb : FrameCallback) : JsValue :=
  match cb with
  | OuterFrame config => config
  | InnerFrame config => config
  end.

(** What holds once the instance has been removed from the tree. *)
Definition torndown (s : Hook) : Prop :=
  mounted s = false /\ isMountedRef s = false /\ elementRef s = None.


(** The converse of [inv_exit]: while a live instance is present although
    the last render saw the intent to hide, the timer of that exit is
    pending and it is the one the effect's cleanup clears; and an instance
    that was rendered hidden and absent is still absent. *)
Record ExitPending (s : Hook) : Prop := {
  exit_armed : rendered s = Some (false, true) -> shouldRender s = true ->
    mounted s = true ->
    exists t, t ∈ timers s /\ callback t = ExitTimer /\
              cleanup s = Some (timerId t);
  hidden_absent : rendered s = Some (false, false) -> shouldRender s = false
}.

(** Every [onExited] so far, and the exit timer that is pending, has an
    [onExit] of its own. *)
Definition exitsAnswered (s : Hook) : Prop :=
  (length (invocations OnExited (log s)) + (if exiting s then 1 else 0)
   <= length (invocations OnExit (log s)))%nat.

(** The [onEntered] timers that are pending. *)
Definition enteredTimers (s : Hook) : list Timer :=
  List.filter (fun t => negb (isExit t)) (timers s).

(** How many enters have an [onEntered] still to come: queued frame
    callbacks and pending [onEntered] timers. *)
Definition pendingEnters (s : Hook) : nat :=
  (length (frames s) + length (enteredTimers s))%nat.

(** One more while a render that saw the intent to show has turned
    presence on and the render that creates the element is still to
    come. *)
Definition enterCredit (s : Hook) : nat :=
  match rendered s with
  | Some (true, false) => 1
  | _ => 0
  end.

(** Every [onEntered] so far or to come has an [onEnter] of its own. *)
Definition entersAnswered (s : Hook) : Prop :=
  (length (invocations OnEntered (log s)) + pendingEnters s + enterCredit s
   <= length (invocations OnEnter (log s)))%nat.

(** ** Concrete instances *)

Module Scenario.

(** [duration=300, effect="fade"], the default timing function, all four
    callbacks supplied. *)
Definition options : TransitionOptions :=
  {| duration := Some 300; effect := Some (VString "fade");
     timingFunction := None;
     onEnter := true; onEntered := true; onExit := true; onExited := true |}.

(** The custom pair of the README's keyframes example, passed inline. *)
Definition custom : AnimationKeyframes :=
  {| from := Some {[ "opacity" := "0" ]}; to := Some {[ "opacity" := "1" ]} |}.

Definition customOptions : TransitionOptions :=
  {| duration := Some 300; effect := Some (VObject custom);
     timingFunction := None;
     onEnter := true; onEntered := true; onExit := true; onExited := true |}.

(** An object that lacks both fields. *)
Definition malformed : AnimationKeyframes := {| from := None; to := None |}.

(** The usual caller: [{presence && <div ref={nodeBinding}/>}]. *)
Definition attached : Host := {| attachesRef := true; inlineEffect := false |}.

(** A caller that never attaches the ref. *)
Definition detached : Host := {| attachesRef := false; inlineEffect := false |}.

(** The state of a hidden instance with nothing pending. *)
Definition hidden : Hook :=
  {| isVisible := false; shouldRender := false; elementRef := None;
     isMountedRef := true; mounted := true; rendered := Some (false, false);
     cleanup := None; timers := []; frames := []; nextTimer := 0%nat;
     now := 0; log := [] |}.

(** Show at [t=0], two paints at 16 ms intervals, hide at [t=50], then let
    the clock reach [t=350]. *)
Definition toggleWithin50ms : list Event :=
  [ SetIsVisible (Value true); Elapse 16; AnimationFrame; Elapse 16;
    AnimationFrame; Elapse 18; SetIsVisible (Value false); Elapse 300 ].

(** The same toggle when no paint happens before the hide. *)
Definition toggleBeforePaint : list Event :=
  [ SetIsVisible (Value true); Elapse 50; SetIsVisible (Value false);
    AnimationFrame; AnimationFrame; Elapse 300 ].

(** Mount hidden, then run the events. *)
Definition trial (o : TransitionOptions) (h : Host) (es : list Event)
  : Result Hook :=
  s0 <- useTransitionState o h None ;; run o h es s0.

Definition stateOf (r : Result Hook) : Hook :=
  match r with
  | Ok s => s
  | Throw _ => hidden
  end.

(** Show and let both paint opportunities pass. *)
Definition showAndPaint : list Event :=
  [ SetIsVisible (Value true); Elapse 16; AnimationFrame; Elapse 16;
    AnimationFrame ].

(** Then hide 100 ms later. *)
Definition showThenHide : list Event :=
  showAndPaint ++ [ Elapse 100; SetIsVisible (Value false) ].

(** What may still happen to an instance that has been removed. *)
Definition afterTeardown : list Event :=
  [ AnimationFrame; Elapse 1000; SetIsVisible (Value true); AnimationFrame;
    AnimationFrame; Elapse 1000 ].

(** Entered, with the [onEntered] timer still pending. *)
Definition enteredState : Hook := stateOf (trial options attached showAndPaint).

(** Exiting, with the exit timer and the [onEntered] timer pending. *)
Definition exitingState : Hook := stateOf (trial options attached showThenHide).

(** [effect: null], which the types forbid but the code can receive. *)
Definition nullOptions : TransitionOptions :=
  {| duration := None; effect := Some VNull; timingFunction := None;
     onEnter := true; onEntered := true; onExit := true; onExited := true |}.

(** Shown by a caller that never attaches the ref. *)
Definition shownDetached : Hook :=
  stateOf (trial nullOptions detached [SetIsVisible (Value true)]).

(** A duration of 2^31 milliseconds, one more than the longest time
    [setTimeout] can wait. *)
Definition overlong : TransitionOptions :=
  {| duration := Some 2147483648; effect := Some (VString "fade");
     timingFunction := None;
     onEnter := true; onEntered := true; onExit := true; onExited := true |}.

(** With that duration: shown at [t=0], painted at [t=16] and [t=32]. *)
Definition overlongShown : Hook := stateOf (trial overlong attached showAndPaint).

(** And hidden at [t=132]. *)
Definition overlongExiting : Hook :=
  stateOf (trial overlong attached showThenHide).

End Scenario.
(** ** The demos of [examples/App.tsx] *)

Module Demo.

(** The keyframes of [CustomAnimationDemo], lines 109-112: an object
    literal in the component body, so every render passes a new object. *)
Definition keyframes : AnimationKeyframes :=
  {| from := Some (<[ "transform" := "scale(0.5) rotate(-180deg)" ]>
                     {[ "opacity" := "0" ]});
     to := Some (<[ "transform" := "scale(1) rotate(0deg)" ]>
                   {[ "opacity" := "1" ]}) |}.

(** Its options, with the four callbacks of [LifecycleDemo] supplied so
    that invocations can be observed. *)
Definition customAnimation : TransitionOptions :=
  {| duration := Some 500; effect := Some (VObject keyframes);
     timingFunction := Some "cubic-bezier(0.68, -0.55, 0.27, 1.55)";
     onEnter := true; onEntered := true; onExit := true; onExited := true |}.

(** [{isVisible && <div ref={ref}/>}] with the options written inline. *)
Definition inline : Host := {| attachesRef := true; inlineEffect := true |}.

(** Shown, both paint opportunities passed. *)
Definition shown : Hook :=
  Scenario.stateOf
    (Scenario.trial customAnimation inline Scenario.showAndPaint).

(** Hidden again 100 ms later; the exit timer is pending. *)
Definition hiding : Hook :=
  Scenario.stateOf
    (Scenario.trial customAnimation inline Scenario.showThenHide).

(** Just shown, before any paint opportunity. *)
Definition painting : Hook :=
  Scenario.stateOf
    (Scenario.trial Scenario.options Scenario.attached
       [SetIsVisible (Value true)]).

End Demo.

(** ** The toast list of [examples/App.tsx] *)

Module ToastDemo.

(** An entry of the [toasts] state, line 224. *)
Record Toast := { id : Z; message : string }.

(** The two state cells of [ToastDemo], lines 224-225. *)
Record State := { toasts : list Toast; counter : Z }.

Definition initial : State := {| toasts := []; counter := 0 |}.

(** [addToast], lines 227-231, as created by a render that saw
    [counter = seen]: the id and the message come from the render's value,
    while the two updates are functional and apply to the state at the
    time they are processed. *)
Definition addToast (seen : Z) (st : State) : State :=
  {| toasts := toasts st ++
       [ {| id := seen; message := "Notification #" +:+ pretty (seen + 1) |} ];
     counter := counter st + 1 |}.

(** [removeToast], lines 233-235. *)
Definition removeToast (i : Z) (st : State) : State :=
  {| toasts := filter (fun toast => id toast <> i) (toasts st);
     counter := counter st |}.

(** What happens to the list: the button is clicked in the current
    render, or the toast with id [i] reports through [onClose] that it
    has left. *)
Inductive Event := Click | Close (i : Z).

Definition step (e : Event) (st : State) : State :=
  match e with
  | Click => addToast (counter st) st
  | Close i => removeToast i st
  end.

Fixpoint run (es : list Event) (st : State) : State :=
  match es with
  | [] => st
  | e :: rest => run rest (step e st)
  end.

End ToastDemo.


(** * EffectResolver *)

Section Resolver.

Lemma getProperty_fade : getProperty PRESETS "fade" = Some (VObject Presets.fade).
Proof. reflexivity. Qed.

Lemma getProperty_truthy name v :
  getProperty PRESETS name = Some v -> truthy v = true.
Proof.
  unfold getProperty.
  destruct (ownProperty PRESETS name) as [o|].
  - intros [= <-]. reflexivity.
  - destruct (existsb _ _); [intros [= <-]; reflexivity | discriminate].
Qed.

(** A name that is neither a preset nor inherited from [Object.prototype]
    resolves to the fade preset. *)
Lemma getEffectConfig_unknown_name name :
  ownProperty PRESETS name = None ->
  existsb (String.eqb name) ObjectPrototypeKeys = false ->
  getEffectConfig (VString name) = VObject Presets.fade.
Proof.
  intros Hown Hproto. unfold getEffectConfig, getProperty.
  rewrite Hown, Hproto. reflexivity.
Qed.

Lemma getEffectConfig_preset name o :
  ownProperty PRESETS name = Some o ->
  getEffectConfig (VString name) = VObject o.
Proof.
  intros Hown. unfold getEffectConfig, getProperty. rewrite Hown. reflexivity.
Qed.

(** C7, at the input where the code departs from it: the selector
    ["toString"] is not a preset name, yet the lookup [PRESETS["toString"]]
    finds the function inherited from [Object.prototype], which is truthy,
    so the [|| PRESETS.fade] fallback is not taken and the resolver returns
    that function instead of the fade preset. *)
Theorem getEffectConfig_inherited_key_is_not_fade :
  ownProperty PRESETS "toString" = None /\
  getEffectConfig (VString "toString") = VInherited "toString" /\
  getEffectConfig (VString "toString") <> VObject Presets.fade.
Proof.
  split; [reflexivity|]. split; [reflexivity|]. discriminate.
Qed.

(** C8: an explicit keyframe pair passed as the [effect] option is resolved
    to exactly that object, and its [from] and [to] are what the hook reads
    from the resolved configuration. *)
Theorem getEffectConfig_custom_pair (options : TransitionOptions)
    (o : AnimationKeyframes) :
  effect options = Some (VObject o) ->
  getEffectConfig (effectOf options) = VObject o /\
  getFrom (getEffectConfig (effectOf options)) = Ok (from o) /\
  getTo (getEffectConfig (effectOf options)) = Ok (to o).
Proof.
  intros H. unfold effectOf. rewrite H. simpl. auto.
Qed.

Lemma getEffectConfig_custom_pair_witness :
  effect Scenario.customOptions = Some (VObject Scenario.custom) /\
  getEffectConfig (effectOf Scenario.customOptions) = VObject Scenario.custom /\
  getFrom (getEffectConfig (effectOf Scenario.customOptions))
    = Ok (from Scenario.custom) /\
  getTo (getEffectConfig (effectOf Scenario.customOptions))
    = Ok (to Scenario.custom).
Proof.
  split; [reflexivity|].
  apply (getEffectConfig_custom_pair Scenario.customOptions Scenario.custom).
  reflexivity.
Defined.

(** C10: a value that is not a string is returned as it is; nothing looks
    at its shape. *)
Theorem getEffectConfig_non_string (v : JsValue) :
  (forall name, v <> VString name) -> getEffectConfig v = v.
Proof.
  intros H. destruct v; try reflexivity. exfalso. exact (H s eq_refl).
Qed.

Lemma getEffectConfig_non_string_witness :
  (forall name, VObject Scenario.malformed <> VString name) /\
  getEffectConfig (VObject Scenario.malformed) = VObject Scenario.malformed.
Proof.
  split; [intros name; discriminate|].
  apply (getEffectConfig_non_string (VObject Scenario.malformed)).
  intros name; discriminate.
Defined.

(** ** The fallback of the resolver *)

Lemma ownProperty_None own name :
  name ∉ own.*1 -> ownProperty own name = None.
Proof.
  induction own as [|[k v] rest IH]; simpl; [reflexivity|].
  intros Hnot. apply not_elem_of_cons in Hnot as [Hne Hrest].
  destruct (String.eqb_spec k name) as [->|_]; [congruence|].
  apply IH, Hrest.
Qed.

Lemma existsb_eqb_false (name : string) (keys : list string) :
  name ∉ keys -> existsb (String.eqb name) keys = false.
Proof.
  induction keys as [|k rest IH]; simpl; [reflexivity|].
  intros Hnot. apply not_elem_of_cons in Hnot as [Hne Hrest].
  destruct (String.eqb_spec name k) as [->|_]; [congruence|].
  apply IH, Hrest.
Qed.

(** X1: [PRESETS[effect] || PRESETS.fade], line 83: a selector that is neither
    a key of [PRESETS] nor a key inherited from [Object.prototype] finds
    [undefined], so the resolver answers with the fade preset; reading its
    [from] and [to] gives the fade styles. *)
Theorem getEffectConfig_fallback (name : string) :
  name ∉ PRESETS.*1 -> name ∉ ObjectPrototypeKeys ->
  getProperty PRESETS name = None /\
  getEffectConfig (VString name) = VObject Presets.fade /\
  getFrom (getEffectConfig (VString name)) = Ok (Some {[ "opacity" := "0" ]}) /\
  getTo (getEffectConfig (VString name)) = Ok (Some {[ "opacity" := "1" ]}).
Proof.
  intros Hown Hproto.
  pose proof (ownProperty_None PRESETS name Hown) as Ho.
  pose proof (existsb_eqb_false name ObjectPrototypeKeys Hproto) as Hp.
  assert (getEffectConfig (VString name) = VObject Presets.fade) as ->
    by (apply getEffectConfig_unknown_name; assumption).
  split_and!; try reflexivity.
  unfold getProperty. rewrite Ho, Hp. reflexivity.
Qed.

(** Whatever string is passed, the resolver answers with a value whose
    [from] and [to] can be read: a preset, the fade preset, or a function
    inherited from [Object.prototype], which has neither. *)
Lemma getEffectConfig_string_readable (name : string) :
  exists fs ts,
    getFrom (getEffectConfig (VString name)) = Ok fs /\
    getTo (getEffectConfig (VString name)) = Ok ts.
Proof.
  unfold getEffectConfig, getProperty.
  destruct (ownProperty PRESETS name) as [o|]; [simpl; eauto|].
  destruct (existsb (String.eqb name) ObjectPrototypeKeys); simpl; eauto.
Qed.

(** Only [null] makes reading [config.from] or [config.to] throw. *)
Lemma getEffectConfig_readable (effect : JsValue) :
  effect <> VNull ->
  exists fs ts,
    getFrom (getEffectConfig effect) = Ok fs /\
    getTo (getEffectConfig effect) = Ok ts.
Proof.
  intros Hnull. destruct effect as [|b|n|name|o|key]; simpl; eauto.
  - congruence.
  - apply getEffectConfig_string_readable.
Qed.

End Resolver.

(** * The host's timers *)

Section Timers.

Lemma toInt32_small (n : Z) :
  -2147483648 <= n <= 2147483647 -> toInt32 n = n.
Proof.
  intros H. unfold toInt32. rewrite Z.mod_small by lia. lia.
Qed.

Lemma toInt32_range (n : Z) : -2147483648 <= toInt32 n <= 2147483647.
Proof.
  unfold toInt32.
  pose proof (Z.mod_pos_bound (n + 2147483648) 4294967296). lia.
Qed.

Lemma timeoutDelay_nonneg (ms : Z) : 0 <= timeoutDelay ms.
Proof. unfold timeoutDelay. lia. Qed.

(** In the range of a signed 32-bit integer the timer waits what it is
    told, a negative delay counting as zero. *)
Lemma timeoutDelay_small (ms : Z) :
  0 <= ms <= 2147483647 -> timeoutDelay ms = ms.
Proof.
  intros H. unfold timeoutDelay. rewrite toInt32_small by lia. lia.
Qed.

Lemma timeoutDelay_negative (ms : Z) :
  -2147483648 <= ms <= 0 -> timeoutDelay ms = 0.
Proof.
  intros H. unfold timeoutDelay. rewrite toInt32_small by lia. lia.
Qed.

(** From 2^31 on the delay wraps around: up to 2^32 it is negative as a
    [long], so the timer does not wait at all. *)
Lemma timeoutDelay_wraps (ms : Z) :
  2147483648 <= ms < 4294967296 -> timeoutDelay ms = 0.
Proof.
  intros H. unfold timeoutDelay, toInt32.
  replace (ms + 2147483648) with (ms - 2147483648 + 1 * 4294967296) by lia.
  rewrite Z.mod_add by lia. rewrite Z.mod_small by lia. lia.
Qed.

(** The timer never waits longer than it is told, unless the delay lies
    below the signed 32-bit range. *)
Lemma timeoutDelay_le (ms : Z) :
  -2147483648 <= ms -> timeoutDelay ms <= Z.max 0 ms.
Proof.
  intros H. destruct (Z_le_gt_dec ms 2147483647) as [Hsmall|Hbig].
  - unfold timeoutDelay. rewrite toInt32_small by lia. lia.
  - unfold timeoutDelay. pose proof (toInt32_range ms). lia.
Qed.

End Timers.

(** * The lifecycle controller *)

Section Machine.

Variable options : TransitionOptions.
Variable host : Host.

Local Arguments settle : simpl never.
Local Arguments fireDue : simpl never.
Local Arguments maximumUpdateDepth : simpl never.

Lemma settle_unfold fuel s :
  settle options host fuel s =
  if dirty s then
    match fuel with
    | O => Throw MaximumUpdateDepth
    | S fuel' => s' <- commit options host s ;; settle options host fuel' s'
    end
  else Ok s.
Proof. destruct fuel; reflexivity. Qed.

Lemma fireDue_unfold fuel target s :
  fireDue options host fuel target s =
  match nextDue target (timers s) with
  | None => Ok (set_now (Z.max (now s) target) s)
  | Some t =>
      match fuel with
      | O => Ok s
      | S fuel' =>
          let s := clearTimeout (timerId t) s in
          let s := set_now (Z.max (now s) (due t)) s in
          s' <- runTimer options host (callback t) s ;;
          fireDue options host fuel' target s'
      end
  end.
Proof. destruct fuel; reflexivity. Qed.

(** ** Steps that leave the control state alone *)

Lemma quiet_refl s : quiet s s.
Proof. repeat split. Qed.

Lemma quiet_trans s1 s2 s3 : quiet s1 s2 -> quiet s2 s3 -> quiet s1 s3.
Proof.
  unfold quiet. intros H12 H23.
  destruct H12 as (?&?&?&?&?&?&?&?&?&?), H23 as (?&?&?&?&?&?&?&?&?&?).
  repeat split; congruence.
Qed.

Lemma record_quiet a s : quiet s (record a s).
Proof. repeat split. Qed.

Lemma invoke_quiet b c s : quiet s (invoke b c s).
Proof. destruct b; repeat split. Qed.

Lemma setTransition_quiet v s : quiet s (setTransition v s).
Proof.
  unfold quiet, setTransition, bound.
  destruct (elementRef s) eqn:E; simpl; rewrite ?E; repeat split.
Qed.

Lemma applyStyle_quiet styles s : quiet s (applyStyle styles s).
Proof.
  unfold quiet, applyStyle, bound.
  destruct (elementRef s) eqn:E, styles; simpl; rewrite ?E; repeat split.
Qed.

Lemma requestAnimationFrame_quiet cb s : quiet s (requestAnimationFrame cb s).
Proof. repeat split. Qed.

Lemma layoutEffect_quiet v r s s' :
  layoutEffect options v r s = Ok s' -> quiet s s'.
Proof.
  unfold layoutEffect.
  destruct (v && r && bound s); [|intros [= <-]; apply quiet_refl].
  destruct (getFrom _) as [styles|]; simpl; [|discriminate].
  intros [= <-].
  eapply quiet_trans; [apply setTransition_quiet|].
  eapply quiet_trans; [apply applyStyle_quiet|].
  apply requestAnimationFrame_quiet.
Qed.


(** ** Pending timers *)

Lemma NoDup_timerId_filter (P : Timer -> Prop) `{!forall t, Decision (P t)} ts :
  NoDup (timerId <$> ts) -> NoDup (timerId <$> filter P ts).
Proof.
  intros Hnd. apply (sublist_NoDup _ _ Hnd), fmap_sublist, sublist_filter.
Qed.

Lemma NoDup_timerId_snoc (ts : list Timer) t (n : nat) :
  (forall u, u ∈ ts -> (timerId u < n)%nat) -> timerId t = n ->
  NoDup (timerId <$> ts) -> NoDup (timerId <$> (ts ++ [t])).
Proof.
  intros Hids Ht Hnd. rewrite fmap_app. apply NoDup_app.
  split; [exact Hnd|]. split; [|apply NoDup_singleton].
  intros x Hx. simpl. rewrite list_elem_of_singleton. intros ->.
  apply list_elem_of_fmap in Hx as (u & Hu & Hin).
  specialize (Hids u Hin). lia.
Qed.

(** ** The visibility effect *)

Lemma exitStyle_quiet s s' :
  (if bound s
   then let s0 := setTransition (transitionValue options) s in
        styles <- getFrom (getEffectConfig (effectOf options)) ;;
        Ok (applyStyle styles s0)
   else Ok s) = Ok s' ->
  quiet s s'.
Proof.
  destruct (bound s); [|intros [= <-]; apply quiet_refl].
  simpl. destruct (getFrom _) as [styles|]; simpl; [|discriminate].
  intros [= <-].
  eapply quiet_trans; [apply setTransition_quiet|apply applyStyle_quiet].
Qed.

Lemma visibilityEffect_control v r s s' :
  mounted s = true ->
  visibilityEffect options v r s = Ok s' ->
  isVisible s' = isVisible s /\ isMountedRef s' = isMountedRef s /\
  mounted s' = mounted s /\ rendered s' = rendered s /\ now s' = now s /\
  bound s' = bound s /\
  ( (v = true /\ shouldRender s' = true /\ cleanup s' = None /\
     timers s' = timers s /\ nextTimer s' = nextTimer s)
  \/ (v = false /\ r = false /\ shouldRender s' = shouldRender s /\
      cleanup s' = None /\ timers s' = timers s /\
      nextTimer s' = nextTimer s)
  \/ (v = false /\ r = true /\ shouldRender s' = shouldRender s /\
      cleanup s' = Some (nextTimer s) /\
      timers s' = timers s ++
        [ {| timerId := nextTimer s; created := now s;
             delay := durationOf options; callback := ExitTimer |} ] /\
      nextTimer s' = S (nextTimer s)) ).
Proof.
  intros Hm. unfold visibilityEffect.
  destruct v.
  - intros [= <-].
    destruct (invoke_quiet (onEnter options) OnEnter s)
      as (Qv & Qr & Qi & Qm & Qd & Qc & Qt & Qn & Qw & Qb).
    unfold setShouldRender. rewrite Qm, Hm.
    split_and!; try (unfold bound in *; simpl in *; congruence).
    left. split_and!; simpl; congruence.
  - destruct r; simpl.
    + destruct (invoke_quiet (onExit options) OnExit s)
        as (Qv & Qr & Qi & Qm & Qd & Qc & Qt & Qn & Qw & Qb).
      set (s1 := invoke (onExit options) OnExit s) in *.
      destruct (if bound s1 then _ else _) as [s2|] eqn:Hstyle; simpl;
        [|discriminate].
      apply exitStyle_quiet in Hstyle.
      destruct Hstyle as (Sv & Sr & Si & Sm & Sd & Sc & St & Sn & Sw & Sb).
      intros [= <-].
      split_and!; try (unfold bound in *; simpl in *; congruence).
      right; right. split_and!; simpl; congruence.
    + intros [= <-]. split_and!; try reflexivity.
      right; left. split_and!; reflexivity.
Qed.


(** ** One commit *)

Lemma reconcileRef_control r s :
  let s' := reconcileRef host r s in
  isVisible s' = isVisible s /\ shouldRender s' = shouldRender s /\
  isMountedRef s' = isMountedRef s /\ mounted s' = mounted s /\
  rendered s' = rendered s /\ cleanup s' = cleanup s /\
  timers s' = timers s /\ nextTimer s' = nextTimer s /\
  now s' = now s /\
  bound s' = (if attachesRef host then r else bound s).
Proof.
  unfold reconcileRef.
  destruct (attachesRef host), r; simpl; try (split_and!; reflexivity).
  destruct (bound s) eqn:E; simpl; split_and!; auto.
Qed.

Lemma runCleanup_control s :
  let s' := runCleanup s in
  isVisible s' = isVisible s /\ shouldRender s' = shouldRender s /\
  isMountedRef s' = isMountedRef s /\ mounted s' = mounted s /\
  rendered s' = rendered s /\ cleanup s' = None /\
  timers s' = match cleanup s with
              | Some id => filter (fun t => timerId t <> id) (timers s)
              | None => timers s
              end /\
  nextTimer s' = nextTimer s /\ now s' = now s /\ bound s' = bound s.
Proof.
  unfold runCleanup. destruct (cleanup s) eqn:E; simpl; split_and!; auto.
Qed.

(** After the cleanup no exit timer is pending. *)
Lemma runCleanup_no_exit s t :
  (forall u, u ∈ timers s -> callback u = ExitTimer ->
             cleanup s = Some (timerId u)) ->
  t ∈ timers (runCleanup s) -> callback t <> ExitTimer.
Proof.
  intros Hexits Ht Hexit.
  destruct (runCleanup_control s) as (_&_&_&_&_&_&Ets&_).
  rewrite Ets in Ht. clear Ets.
  destruct (cleanup s) as [id|] eqn:Ec.
  - apply list_elem_of_filter in Ht as [Hne Hin].
    specialize (Hexits t Hin Hexit). congruence.
  - specialize (Hexits t Ht Hexit). congruence.
Qed.

Lemma runCleanup_subset s t :
  t ∈ timers (runCleanup s) -> t ∈ timers s.
Proof.
  destruct (runCleanup_control s) as (_&_&_&_&_&_&Ets&_).
  rewrite Ets. destruct (cleanup s); [|auto].
  intros [_ ?]%list_elem_of_filter. assumption.
Qed.

Lemma runCleanup_NoDup s :
  NoDup (timerId <$> timers s) -> NoDup (timerId <$> timers (runCleanup s)).
Proof.
  destruct (runCleanup_control s) as (_&_&_&_&_&_&Ets&_).
  rewrite Ets. destruct (cleanup s); [|auto].
  apply NoDup_timerId_filter.
Qed.

Lemma commit_spec s s' :
  Inv options host s -> mounted s = true ->
  commit options host s = Ok s' ->
  Inv options host s' /\ isVisible s' = isVisible s /\ mounted s' = true /\
  now s' = now s /\ rendered s' = Some (isVisible s, shouldRender s) /\
  (shouldRender s' = shouldRender s \/
   (isVisible s = true /\ shouldRender s' = true)) /\
  (isVisible s = true \/ shouldRender s = false ->
   timers s' `sublist_of` timers s).
Proof.
  intros I Hm. unfold commit.
  destruct (reconcileRef_control (shouldRender s) s)
    as (Rv & Rr & Ri & Rm & Rd & Rc & Rt & Rn & Rw & Rb).
  set (s1 := reconcileRef host (shouldRender s) s) in *.
  destruct (if sameDeps _ _ _ then _ else _) as [s2|] eqn:Hlayout; simpl;
    [|discriminate].
  assert (quiet s1 s2) as (Lv & Lr & Li & Lm & Ld & Lc & Lt & Ln & Lw & Lb).
  { destruct (sameDeps _ _ _).
    - injection Hlayout as <-. apply quiet_refl.
    - eapply layoutEffect_quiet, Hlayout. }
  clear Hlayout.
  set (s3 := match rendered s with
             | Some _ => s2
             | None => set_isMountedRef true s2
             end).
  assert (isVisible s3 = isVisible s /\ shouldRender s3 = shouldRender s /\
          isMountedRef s3 = true /\ mounted s3 = true /\
          rendered s3 = rendered s /\ cleanup s3 = cleanup s /\
          timers s3 = timers s /\ nextTimer s3 = nextTimer s /\
          now s3 = now s /\
          bound s3 = (if attachesRef host then shouldRender s else bound s))
    as (Mv & Mr & Mi & Mm & Md & Mc & Mt & Mn & Mw & Mb).
  { pose proof (inv_mounted _ _ _ I) as Him.
    subst s3. destruct (rendered s); simpl;
      split_and!; try congruence; unfold bound in *; simpl; congruence. }
  clearbody s3. clear Lv Lr Li Lm Ld Lc Lt Ln Lw Lb Rv Rr Ri Rm Rd Rc Rt Rn Rw Rb.
  clearbody s1. clear s1 s2.
  assert (bound s3 = attachesRef host && shouldRender s && true) as Mb'.
  { rewrite Mb. pose proof (inv_ref _ _ _ I) as Hb. rewrite Hm in Hb.
    destruct (attachesRef host); simpl in *; [|exact Hb].
    destruct (shouldRender s); reflexivity. }
  clear Mb.
  destruct (sameVisible (rendered s) (isVisible s) && negb _) eqn:Hran.
  - (* the visibility effect is skipped *)
    intros [= <-]. simpl.
    apply andb_true_iff in Hran as [Hsame _].
    unfold sameVisible in Hsame.
    destruct (rendered s) as [[v0 r0]|] eqn:Hrd; [|discriminate].
    apply Bool.eqb_prop in Hsame. subst v0.
    split_and!; auto; [|intros _; simpl; rewrite Mt; reflexivity].
    constructor; simpl.
    + rewrite Mi, Mm. reflexivity.
    + intros r [= Hv <-]. rewrite Mr, Mc.
      destruct (inv_present _ _ _ I r0) as [Hp Hc]; [congruence|].
      split; assumption.
    + intros t Ht Hexit. rewrite Mt in Ht.
      destruct (inv_exit _ _ _ I t Ht Hexit) as (Hc & Hr & Hsr & _).
      rewrite Mc, Mr, Mm. split_and!; auto.
      rewrite Hrd in Hr. injection Hr as -> _. rewrite Hsr. reflexivity.
    + intros t Ht. rewrite Mt in Ht. rewrite Mn. eapply inv_ids; eauto.
    + rewrite Mt. eapply inv_nodup; eauto.
    + intros t Ht. rewrite Mt in Ht. rewrite Mw. eapply inv_delay; eauto.
    + unfold renderedPresence. simpl. rewrite Mm.
      change (bound (set_rendered (Some (isVisible s, shouldRender s)) s3))
        with (bound s3). exact Mb'.
  - (* the visibility effect runs, after its cleanup *)
    destruct (visibilityEffect _ _ _ _) as [s4|] eqn:Heff; simpl;
      [|discriminate].
    intros [= <-]. simpl.
    destruct (runCleanup_control s3)
      as (Cv & Cr & Ci & Cm & Cd & Cc & Ct & Cn & Cw & Cb).
    assert (forall t, t ∈ timers (runCleanup s3) -> t ∈ timers s) as Hsub.
    { intros t Ht. apply runCleanup_subset in Ht. congruence. }
    assert (forall t, t ∈ timers (runCleanup s3) -> callback t <> ExitTimer)
      as Hnoexit.
    { intros t. apply runCleanup_no_exit. intros u Hu Hexit.
      rewrite Mt in Hu. rewrite Mc.
      apply (inv_exit _ _ _ I u Hu Hexit). }
    assert (NoDup (timerId <$> timers (runCleanup s3))) as Hnd.
    { apply runCleanup_NoDup. rewrite Mt. eapply inv_nodup; eauto. }
    apply visibilityEffect_control in Heff; [|congruence].
    destruct Heff as (Ev & Ei & Em & Ed & Ew & Eb & Ecases).
    assert (isVisible s4 = isVisible s) as Ev' by congruence.
    assert (mounted s4 = true) as Em' by congruence.
    assert (now s4 = now s) as Ew' by congruence.
    assert (bound s4 = attachesRef host && shouldRender s && true) as Eb'
      by congruence.
    split_and!; auto.
    + constructor; simpl.
      * congruence.
      * intros r [= Hv <-].
        destruct Ecases as [(_ & ? & ? & _)|[(? & _)|(? & _)]];
          [auto|congruence..].
      * intros t Ht Hexit.
        destruct Ecases as [(_ & _ & _ & Et & _)|[(_ & _ & _ & _ & Et & _)
                           |(Hv & Hr & Esr & Ec & Et & En)]].
        -- rewrite Et in Ht. destruct (Hnoexit t Ht Hexit).
        -- rewrite Et in Ht. destruct (Hnoexit t Ht Hexit).
        -- rewrite Et in Ht. apply elem_of_app in Ht as [Ht|Ht].
           ++ destruct (Hnoexit t Ht Hexit).
           ++ apply list_elem_of_singleton in Ht. subst t. simpl.
              rewrite Ec, Esr, Hv, Hr. split_and!; auto; congruence.
      * intros t Ht.
        destruct Ecases as [(_ & _ & _ & Et & En)|[(_ & _ & _ & _ & Et & En)
                           |(Hv & Hr & Esr & Ec & Et & En)]];
          rewrite Et in Ht; rewrite En, Cn, Mn.
        -- apply Hsub in Ht. eapply inv_ids; eauto.
        -- apply Hsub in Ht. eapply inv_ids; eauto.
        -- apply elem_of_app in Ht as [Ht|Ht].
           ++ apply Hsub in Ht. pose proof (inv_ids _ _ _ I t Ht). lia.
           ++ apply list_elem_of_singleton in Ht. subst t. simpl.
              rewrite Cn, Mn. lia.
      * destruct Ecases as [(_ & _ & _ & Et & En)|[(_ & _ & _ & _ & Et & En)
                           |(Hv & Hr & Esr & Ec & Et & En)]];
          rewrite Et; auto.
        eapply NoDup_timerId_snoc; [|reflexivity|exact Hnd].
        intros u Hu. apply Hsub in Hu. rewrite Cn, Mn.
        eapply inv_ids; eauto.
      * intros t Ht. rewrite Ew'.
        destruct Ecases as [(_ & _ & _ & Et & En)|[(_ & _ & _ & _ & Et & En)
                           |(Hv & Hr & Esr & Ec & Et & En)]];
          rewrite Et in Ht.
        -- apply Hsub in Ht. eapply inv_delay; eauto.
        -- apply Hsub in Ht. eapply inv_delay; eauto.
        -- apply elem_of_app in Ht as [Ht|Ht].
           ++ apply Hsub in Ht. eapply inv_delay; eauto.
           ++ apply list_elem_of_singleton in Ht. subst t. simpl.
              split; [reflexivity|]. rewrite Cw, Mw. lia.
      * unfold renderedPresence. simpl. rewrite Em'.
        change (bound (set_rendered (Some (isVisible s, shouldRender s)) s4))
          with (bound s4). exact Eb'.
    + destruct Ecases as [(Hv & Esr & _)|[(_ & _ & Esr & _)|(_ & _ & Esr & _)]].
      * right. split; [exact Hv|exact Esr].
      * left. congruence.
      * left. congruence.
    + assert (timers (runCleanup s3) `sublist_of` timers s) as Hsl.
      { rewrite Ct, Mc, Mt. destruct (cleanup s); [|reflexivity].
        apply sublist_filter. }
      intros Hcase.
      destruct Ecases as [(_ & _ & _ & Et & _)|[(_ & _ & _ & _ & Et & _)
                         |(Hv & Hr & _)]].
      * rewrite Et. exact Hsl.
      * rewrite Et. exact Hsl.
      * destruct Hcase; congruence.
Qed.

Lemma dirty_false s :
  dirty s = false <-> rendered s = Some (isVisible s, shouldRender s).
Proof.
  unfold dirty, sameDeps. destruct (rendered s) as [[v r]|]; simpl.
  - destruct v, r, (isVisible s), (shouldRender s); simpl;
      split; (discriminate || reflexivity || congruence).
  - split; discriminate.
Qed.

Lemma settle_clean fuel s : dirty s = false -> settle options host fuel s = Ok s.
Proof. intros H. rewrite settle_unfold, H. reflexivity. Qed.

(** Rendering settles after at most two commits. *)
Lemma settle_spec fuel s s' :
  Inv options host s -> mounted s = true ->
  settle options host (S (S fuel)) s = Ok s' ->
  Inv options host s' /\ settled s' /\ mounted s' = true /\
  isVisible s' = isVisible s /\ now s' = now s /\
  (shouldRender s' = shouldRender s \/
   (isVisible s = true /\ shouldRender s' = true)) /\
  (isVisible s = true \/ shouldRender s = false ->
   timers s' `sublist_of` timers s).
Proof.
  intros I Hm. rewrite settle_unfold.
  destruct (dirty s) eqn:D1.
  2:{ intros [= <-]. split_and!; auto. }
  destruct (commit options host s) as [s1|] eqn:C1; simpl; [|discriminate].
  destruct (commit_spec _ _ I Hm C1) as (I1 & V1 & M1 & W1 & R1 & P1 & T1).
  rewrite settle_unfold.
  destruct (dirty s1) eqn:D2.
  2:{ intros [= <-]. split_and!; auto. }
  destruct (commit options host s1) as [s2|] eqn:C2; simpl; [|discriminate].
  destruct (commit_spec _ _ I1 M1 C2) as (I2 & V2 & M2 & W2 & R2 & P2 & T2).
  assert (isVisible s = true /\ shouldRender s1 = true) as [Hv Hr].
  { destruct P1 as [P1|P1]; [|exact P1].
    exfalso. assert (dirty s1 = false); [|congruence].
    apply dirty_false. congruence. }
  assert (shouldRender s2 = true) as Hr2.
  { destruct P2 as [P2|[_ P2]]; congruence. }
  assert (dirty s2 = false) as D3.
  { apply dirty_false. congruence. }
  rewrite (settle_clean _ _ D3). intros [= <-].
  split_and!; auto; try congruence.
  intros _. etransitivity; [apply T2; left; congruence|].
  apply T1. left. exact Hv.
Qed.


(** ** The invariant along the host's steps *)

Lemma settle_max s s' :
  Inv options host s -> mounted s = true ->
  settle options host maximumUpdateDepth s = Ok s' ->
  Inv options host s' /\ settled s' /\ mounted s' = true /\
  isVisible s' = isVisible s /\ now s' = now s /\
  (shouldRender s' = shouldRender s \/
   (isVisible s = true /\ shouldRender s' = true)) /\
  (isVisible s = true \/ shouldRender s = false ->
   timers s' `sublist_of` timers s).
Proof. apply (settle_spec 48). Qed.

Lemma Inv_quiet s s' : quiet s s' -> Inv options host s -> Inv options host s'.
Proof.
  intros (Qv & Qr & Qi & Qm & Qd & Qc & Qt & Qn & Qw & Qb) I.
  constructor.
  - rewrite Qi, Qm. apply (inv_mounted _ _ _ I).
  - intros r Hr. rewrite Qr, Qc. apply (inv_present _ _ _ I r). congruence.
  - intros t Ht Hexit. rewrite Qt in Ht. rewrite Qc, Qd, Qr, Qm.
    apply (inv_exit _ _ _ I t Ht Hexit).
  - intros t Ht. rewrite Qt in Ht. rewrite Qn. apply (inv_ids _ _ _ I t Ht).
  - rewrite Qt. apply (inv_nodup _ _ _ I).
  - intros t Ht. rewrite Qt in Ht. rewrite Qw. apply (inv_delay _ _ _ I t Ht).
  - unfold renderedPresence. rewrite Qb, Qd, Qm. apply (inv_ref _ _ _ I).
Qed.

Lemma settled_quiet s s' : quiet s s' -> settled s -> settled s'.
Proof.
  intros (Qv & Qr & Qi & Qm & Qd & Qc & Qt & Qn & Qw & Qb).
  unfold settled, dirty. congruence.
Qed.

Lemma Inv_firstRender initialValue :
  Inv options host (firstRender initialValue).
Proof.
  constructor; simpl; try (intros; discriminate).
  - reflexivity.
  - intros t Ht. inversion Ht.
  - intros t Ht. inversion Ht.
  - constructor.
  - intros t Ht. inversion Ht.
  - unfold bound, renderedPresence. simpl. destruct (attachesRef host); reflexivity.
Qed.

Lemma useTransitionState_inv initialValue s :
  useTransitionState options host initialValue = Ok s ->
  Inv options host s /\ settled s /\ mounted s = true.
Proof.
  unfold useTransitionState. intros H.
  apply settle_max in H; [|apply Inv_firstRender|reflexivity].
  destruct H as (I & S & M & _). auto.
Qed.

Lemma Inv_set_isVisible b s :
  Inv options host s -> Inv options host (set_isVisible b s).
Proof. intros [I1 I2 I3 I4 I5 I6 I7]. constructor; assumption. Qed.

Lemma setIsVisible_inv a s s' :
  Inv options host s -> settled s ->
  setIsVisible options host a s = Ok s' ->
  Inv options host s' /\ settled s'.
Proof.
  intros I S. unfold setIsVisible, bailsOut.
  destruct (mounted s) eqn:Hm; [|intros [= <-]; auto].
  destruct (Bool.eqb _ _); [intros [= <-]; auto|].
  intros H.
  apply settle_max in H; [|apply Inv_set_isVisible, I|exact Hm].
  destruct H as (I' & S' & _). auto.
Qed.

Lemma rerender_inv s s' :
  Inv options host s -> mounted s = true ->
  (s1 <- commit options host s ;; settle options host maximumUpdateDepth s1)
    = Ok s' ->
  Inv options host s' /\ settled s'.
Proof.
  intros I Hm.
  destruct (commit options host s) as [s1|] eqn:C; simpl; [|discriminate].
  destruct (commit_spec _ _ I Hm C) as (I1 & _ & M1 & _).
  intros H.
  apply settle_max in H; [|exact I1|exact M1].
  destruct H as (I' & S' & _). auto.
Qed.

Lemma Inv_setTimeout_entered s :
  Inv options host s ->
  Inv options host (snd (setTimeout EnteredTimer (durationOf options) s)).
Proof.
  intros I. constructor; simpl.
  - apply (inv_mounted _ _ _ I).
  - apply (inv_present _ _ _ I).
  - intros t Ht Hexit. apply elem_of_app in Ht as [Ht|Ht].
    + apply (inv_exit _ _ _ I t Ht Hexit).
    + apply list_elem_of_singleton in Ht. subst t. discriminate.
  - intros t Ht. apply elem_of_app in Ht as [Ht|Ht].
    + pose proof (inv_ids _ _ _ I t Ht). lia.
    + apply list_elem_of_singleton in Ht. subst t. simpl. lia.
  - eapply NoDup_timerId_snoc; [|reflexivity|apply (inv_nodup _ _ _ I)].
    apply (inv_ids _ _ _ I).
  - intros t Ht. apply elem_of_app in Ht as [Ht|Ht].
    + apply (inv_delay _ _ _ I t Ht).
    + apply list_elem_of_singleton in Ht. subst t. simpl. split; [reflexivity|lia].
  - apply (inv_ref _ _ _ I).
Qed.

Lemma runFrame_inv cb s s' :
  Inv options host s -> settled s ->
  runFrame options cb s = Ok s' ->
  Inv options host s' /\ settled s'.
Proof.
  intros I S. destruct cb as [config|config]; simpl.
  - intros [= <-]. split; [eapply Inv_quiet|eapply settled_quiet]; eauto;
      apply requestAnimationFrame_quiet.
  - destruct (bound s); simpl; [|intros [= <-]; auto].
    destruct (getTo config) as [styles|]; simpl; [|discriminate].
    intros [= <-].
    set (s1 := applyStyle styles (setTransition (transitionValue options) s)).
    assert (quiet s s1) as Q.
    { eapply quiet_trans; [apply setTransition_quiet|apply applyStyle_quiet]. }
    split.
    + apply Inv_setTimeout_entered. eapply Inv_quiet; eauto.
    + apply (settled_quiet _ _ Q) in S. exact S.
Qed.

Lemma runFrames_inv queue s s' :
  Inv options host s -> settled s ->
  runFrames options queue s = Ok s' ->
  Inv options host s' /\ settled s'.
Proof.
  revert s. induction queue as [|cb rest IH]; intros s I S; simpl.
  - intros [= <-]. auto.
  - destruct (runFrame options cb s) as [s1|] eqn:F; simpl; [|discriminate].
    destruct (runFrame_inv _ _ _ I S F) as [I1 S1]. apply IH; assumption.
Qed.

Lemma unmount_inv s :
  Inv options host s -> settled s ->
  Inv options host (unmount host s) /\ settled (unmount host s).
Proof.
  intros I S. unfold unmount.
  destruct (mounted s) eqn:Hm; [|auto].
  set (s1 := set_isMountedRef false
               (if attachesRef host then set_elementRef None s else s)).
  destruct (runCleanup_control s1)
    as (Cv & Cr & Ci & Cm & Cd & Cc & Ct & Cn & Cw & Cb).
  assert (timers s1 = timers s /\ cleanup s1 = cleanup s /\
          rendered s1 = rendered s /\ shouldRender s1 = shouldRender s /\
          isVisible s1 = isVisible s /\ nextTimer s1 = nextTimer s /\
          now s1 = now s /\ bound s1 = false)
    as (E1 & E2 & E3 & E4 & E5 & E6 & E7 & E8).
  { subst s1. pose proof (inv_ref _ _ _ I) as Hb.
    destruct (attachesRef host); simpl in *; split_and!; auto. }
  split.
  - constructor; simpl.
    + exact Ci.
    + intros r Hr. rewrite Cr, E4.
      destruct (inv_present _ _ _ I r) as [Hp Hc]; [congruence|].
      split; [exact Hp|exact Cc].
    + intros t Ht Hexit. exfalso. revert Ht Hexit. apply runCleanup_no_exit.
      intros u Hu Hexit. rewrite E1 in Hu. rewrite E2.
      apply (inv_exit _ _ _ I u Hu Hexit).
    + intros t Ht. apply runCleanup_subset in Ht. rewrite E1 in Ht.
      rewrite Cn, E6. apply (inv_ids _ _ _ I t Ht).
    + apply runCleanup_NoDup. rewrite E1. apply (inv_nodup _ _ _ I).
    + intros t Ht. apply runCleanup_subset in Ht. rewrite E1 in Ht.
      rewrite Cw, E7. apply (inv_delay _ _ _ I t Ht).
    + change (bound (set_mounted false (runCleanup s1)))
        with (bound (runCleanup s1)).
      rewrite Cb, E8, andb_false_r. reflexivity.
  - unfold settled, dirty in *. simpl. rewrite Cd, Cv, Cr, E3, E4, E5. exact S.
Qed.


(** ** Commits of a hidden instance *)

Lemma commit_hidden s :
  isVisible s = false -> shouldRender s = false ->
  exists s', commit options host s = Ok s' /\ log s' = log s /\
             frames s' = frames s.
Proof.
  intros Hv Hr. unfold commit, layoutEffect, visibilityEffect.
  rewrite Hv, Hr. simpl.
  assert (forall s0 : Hook, log (runCleanup s0) = log s0 /\
                            frames (runCleanup s0) = frames s0) as Hc.
  { intros s0. unfold runCleanup. destruct (cleanup s0); auto. }
  assert (log (reconcileRef host false s) = log s /\
          frames (reconcileRef host false s) = frames s) as [Hl Hf].
  { unfold reconcileRef. destruct (attachesRef host); auto. }
  destruct (rendered s) as [[v0 r0]|]; simpl.
  - destruct (eqb v0 false && eqb r0 false); simpl;
      destruct (eqb v0 false && negb _); simpl;
      (eexists; split; [reflexivity|]); simpl;
      rewrite ?(proj1 (Hc _)), ?(proj2 (Hc _)); auto.
  - eexists; split; [reflexivity|]; simpl.
    rewrite ?(proj1 (Hc _)), ?(proj2 (Hc _)); auto.
Qed.

Lemma settle_hidden s :
  Inv options host s -> mounted s = true ->
  isVisible s = false -> shouldRender s = false ->
  exists s', settle options host maximumUpdateDepth s = Ok s' /\
             log s' = log s /\ frames s' = frames s.
Proof.
  intros I Hm Hv Hr. unfold maximumUpdateDepth. rewrite settle_unfold.
  destruct (dirty s); [|eauto].
  destruct (commit_hidden s Hv Hr) as (s1 & C & Hl & Hf).
  rewrite C. simpl.
  destruct (commit_spec _ _ I Hm C) as (I1 & V1 & M1 & W1 & R1 & P1 & T1).
  assert (dirty s1 = false) as D.
  { apply dirty_false. destruct P1 as [P1|[P1 _]]; congruence. }
  rewrite (settle_clean _ _ D). eauto.
Qed.

(** ** Timers *)

Lemma earliest_spec ts t :
  earliest ts = Some t -> t ∈ ts /\ forall u, u ∈ ts -> due t <= due u.
Proof.
  revert t. induction ts as [|a rest IH]; simpl; [discriminate|].
  intros t. destruct (earliest rest) as [u|] eqn:E.
  - destruct (IH u eq_refl) as [Hin Hmin].
    destruct (due u <? due a) eqn:C; intros [= <-].
    + apply Z.ltb_lt in C. split; [right; exact Hin|].
      intros w [->|Hw]%elem_of_cons; [lia|auto].
    + apply Z.ltb_ge in C. split; [left|].
      intros w [->|Hw]%elem_of_cons; [lia|].
      specialize (Hmin w Hw). lia.
  - intros [= <-]. split; [left|].
    intros w [->|Hw]%elem_of_cons; [lia|].
    destruct rest; [inversion Hw|]. simpl in E.
    destruct (earliest rest); [destruct (_ <? _)|]; discriminate.
Qed.

Lemma earliest_None ts : earliest ts = None -> ts = [].
Proof.
  destruct ts as [|a rest]; [reflexivity|]. simpl.
  destruct (earliest rest); [destruct (_ <? _)|]; discriminate.
Qed.

Lemma nextDue_Some target ts t :
  nextDue target ts = Some t ->
  t ∈ ts /\ due t <= target /\ forall u, u ∈ ts -> due t <= due u.
Proof.
  unfold nextDue. destruct (earliest ts) as [u|] eqn:E; [|discriminate].
  destruct (due u <=? target) eqn:C; [|discriminate].
  intros [= <-]. apply Z.leb_le in C.
  destruct (earliest_spec _ _ E). auto.
Qed.

Lemma nextDue_None target ts :
  nextDue target ts = None -> forall u, u ∈ ts -> target < due u.
Proof.
  unfold nextDue. destruct (earliest ts) as [t|] eqn:E.
  - destruct (due t <=? target) eqn:C; [discriminate|].
    apply Z.leb_gt in C. intros _ u Hu.
    destruct (earliest_spec _ _ E) as [_ Hmin]. specialize (Hmin u Hu). lia.
  - apply earliest_None in E. subst ts. intros _ u Hu. inversion Hu.
Qed.

Lemma Inv_clearTimeout id s :
  Inv options host s -> Inv options host (clearTimeout id s).
Proof.
  intros I. constructor; simpl.
  - apply (inv_mounted _ _ _ I).
  - apply (inv_present _ _ _ I).
  - intros t [_ Ht]%list_elem_of_filter. apply (inv_exit _ _ _ I t Ht).
  - intros t [_ Ht]%list_elem_of_filter. apply (inv_ids _ _ _ I t Ht).
  - apply NoDup_timerId_filter, (inv_nodup _ _ _ I).
  - intros t [_ Ht]%list_elem_of_filter. apply (inv_delay _ _ _ I t Ht).
  - apply (inv_ref _ _ _ I).
Qed.

Lemma Inv_set_now w s :
  now s <= w -> Inv options host s -> Inv options host (set_now w s).
Proof.
  intros Hw I. constructor; simpl; try apply I.
  intros t Ht. destruct (inv_delay _ _ _ I t Ht). split; [assumption|lia].
Qed.

Lemma Inv_set_shouldRender_false s :
  Inv options host s -> rendered s = Some (false, true) ->
  (forall t, t ∈ timers s -> callback t <> ExitTimer) ->
  Inv options host (set_shouldRender false s).
Proof.
  intros I Hr Hnoexit. constructor; simpl; try apply I.
  - intros r. rewrite Hr. discriminate.
  - intros t Ht Hexit. destruct (Hnoexit t Ht Hexit).
Qed.


Lemma styleMutations_app l1 l2 :
  styleMutations (l1 ++ l2) = styleMutations l1 ++ styleMutations l2.
Proof. apply omap_app. Qed.

Lemma invocations_app c l1 l2 :
  invocations c (l1 ++ l2) = invocations c l1 ++ invocations c l2.
Proof. apply omap_app. Qed.

Lemma styleMutations_invoke b c s :
  styleMutations (log (invoke b c s)) = styleMutations (log s).
Proof.
  destruct b; simpl; [|reflexivity].
  rewrite styleMutations_app. simpl. apply app_nil_r.
Qed.

Lemma log_invoke b c s :
  log (invoke b c s) = log s ++ (if b then [(now s, Invoke c)] else []).
Proof. destruct b; simpl; [reflexivity|]. symmetry. apply app_nil_r. Qed.

Lemma frames_invoke b c s : frames (invoke b c s) = frames s.
Proof. destruct b; reflexivity. Qed.

Lemma elementRef_invoke b c s : elementRef (invoke b c s) = elementRef s.
Proof. destruct b; reflexivity. Qed.

Lemma timerId_inj ts t u :
  NoDup (timerId <$> ts) -> t ∈ ts -> u ∈ ts -> timerId t = timerId u -> t = u.
Proof.
  induction ts as [|a rest IH]; intros Hnd Ht Hu Heq; [inversion Ht|].
  rewrite fmap_cons in Hnd. apply NoDup_cons in Hnd as [Hnotin Hnd].
  apply elem_of_cons in Ht as [->|Ht]; apply elem_of_cons in Hu as [->|Hu];
    auto.
  - destruct Hnotin. rewrite Heq. apply list_elem_of_fmap_2. exact Hu.
  - destruct Hnotin. rewrite <- Heq. apply list_elem_of_fmap_2. exact Ht.
Qed.

(** The exit timer's callback on a live instance. *)
Lemma runTimer_exit s :
  Inv options host s -> settled s -> rendered s = Some (false, true) ->
  (forall t, t ∈ timers s -> callback t <> ExitTimer) ->
  isMountedRef s = true ->
  exists s', runTimer options host ExitTimer s = Ok s' /\
    Inv options host s' /\ settled s' /\
    shouldRender s' = false /\ isVisible s' = false /\ mounted s' = true /\
    now s' = now s /\ timers s' `sublist_of` timers s /\
    frames s' = frames s /\
    log s' = log s ++
      (if onExited options then [(now s, Invoke OnExited)] else []).
Proof.
  intros I S Hrd Hnoexit Hlive. simpl. rewrite Hlive.
  assert (mounted s = true) as Hm.
  { rewrite <- (inv_mounted _ _ _ I). exact Hlive. }
  assert (isVisible s = false) as Hv.
  { apply dirty_false in S. congruence. }
  unfold setShouldRender. rewrite Hm.
  set (sa := set_shouldRender false s).
  assert (Inv options host sa) as Ia
    by (apply Inv_set_shouldRender_false; assumption).
  set (sb := invoke (onExited options) OnExited sa).
  pose proof (invoke_quiet (onExited options) OnExited sa) as Q.
  fold sb in Q.
  assert (Inv options host sb) as Ib by (eapply Inv_quiet; eauto).
  destruct Q as (Qv & Qr & Qi & Qm & Qd & Qc & Qt & Qn & Qw & Qb).
  simpl in Qv, Qr, Qm, Qt, Qw.
  rewrite Qm, Hm.
  destruct (settle_hidden sb Ib) as (s' & Hs & Hl & Hf); try congruence.
  exists s'. split; [exact Hs|].
  apply settle_max in Hs; [|exact Ib|congruence].
  destruct Hs as (I' & S' & M' & V' & W' & P' & T').
  split_and!; auto; try congruence.
  - destruct P' as [P'|[P' _]]; congruence.
  - rewrite <- Qt. apply T'. right. exact Qr.
  - rewrite Hf. subst sb. rewrite frames_invoke. reflexivity.
  - rewrite Hl. subst sb. rewrite log_invoke. reflexivity.
Qed.

(** What firing one pending timer at time [w] does. *)
Lemma fire_spec s t w :
  Inv options host s -> settled s -> t ∈ timers s -> now s <= w ->
  exists s',
    runTimer options host (callback t)
      (set_now w (clearTimeout (timerId t) s)) = Ok s' /\
    Inv options host s' /\ settled s' /\ now s' = w /\
    mounted s' = mounted s /\ isVisible s' = isVisible s /\
    frames s' = frames s /\
    timers s' `sublist_of`
      filter (fun u => timerId u <> timerId t) (timers s) /\
    ( (callback t = EnteredTimer /\ shouldRender s' = shouldRender s /\
       elementRef s' = elementRef s /\
       timers s' = filter (fun u => timerId u <> timerId t) (timers s) /\
       log s' = log s ++
         (if isMountedRef s && onEntered options
          then [(w, Invoke OnEntered)] else []))
    \/ (callback t = ExitTimer /\ isMountedRef s = true /\
        shouldRender s = true /\ shouldRender s' = false /\
        log s' = log s ++
          (if onExited options then [(w, Invoke OnExited)] else [])) ).
Proof.
  intros I S Ht Hw.
  set (s1 := set_now w (clearTimeout (timerId t) s)).
  assert (Inv options host s1) as I1.
  { apply Inv_set_now; [exact Hw|]. apply Inv_clearTimeout, I. }
  assert (settled s1) as S1 by exact S.
  destruct (callback t) eqn:Hcb.
  - (* exit timer *)
    destruct (inv_exit _ _ _ I t Ht Hcb) as (Hc & Hrd & Hsr & Hm).
    assert (isMountedRef s1 = true) as Hlive.
    { simpl. rewrite (inv_mounted _ _ _ I). exact Hm. }
    destruct (runTimer_exit s1 I1 S1) as (s' & R & I' & S' & Hr' & Hv' & Hm'
      & Hw' & Ht' & Hf' & Hl'); auto.
    { intros u [Hne Hu]%list_elem_of_filter Hexit.
      destruct (inv_exit _ _ _ I u Hu Hexit) as (Hc' & _). congruence. }
    exists s'. split; [exact R|].
    apply dirty_false in S.
    split_and!; auto; try congruence.
    right. split_and!; auto.
  - (* onEntered timer *)
    eexists. split; [reflexivity|].
    assert (quiet s1 (if isMountedRef s1
                      then invoke (onEntered options) OnEntered s1 else s1)) as Q.
    { destruct (isMountedRef s1); [apply invoke_quiet|apply quiet_refl]. }
    split_and!.
    + eapply Inv_quiet; eauto.
    + eapply settled_quiet; eauto.
    + destruct Q as (_&_&_&_&_&_&_&_&Qw&_). rewrite Qw. reflexivity.
    + destruct Q as (_&_&_&Qm&_). rewrite Qm. reflexivity.
    + destruct Q as (Qv&_). rewrite Qv. reflexivity.
    + destruct (isMountedRef s1); [rewrite frames_invoke|]; reflexivity.
    + destruct Q as (_&_&_&_&_&_&Qt&_). rewrite Qt. reflexivity.
    + left. split_and!; auto.
      * destruct Q as (_&Qr&_). rewrite Qr. reflexivity.
      * destruct (isMountedRef s1); [rewrite elementRef_invoke|]; reflexivity.
      * destruct Q as (_&_&_&_&_&_&Qt&_). rewrite Qt. reflexivity.
      * change (isMountedRef s1) with (isMountedRef s).
        destruct (isMountedRef s); simpl.
        -- rewrite log_invoke. reflexivity.
        -- symmetry. apply app_nil_r.
Qed.


Lemma styleMutations_snoc_invoke l (b : bool) w c :
  styleMutations (l ++ (if b then [(w, Invoke c)] else [])) = styleMutations l.
Proof.
  rewrite styleMutations_app. destruct b; simpl; apply app_nil_r.
Qed.

Lemma invocations_snoc_other l (b : bool) w c c' :
  sameLifecycle c c' = false ->
  invocations c (l ++ (if b then [(w, Invoke c')] else [])) = invocations c l.
Proof.
  intros Hne. rewrite invocations_app.
  destruct b; simpl; [|apply app_nil_r].
  unfold invokedAt. simpl. rewrite Hne. apply app_nil_r.
Qed.

Lemma invocations_snoc_same l (b : bool) w c :
  invocations c (l ++ (if b then [(w, Invoke c)] else [])) =
  invocations c l ++ (if b then [w] else []).
Proof.
  rewrite invocations_app. destruct b; simpl; [|reflexivity].
  unfold invokedAt. simpl. destruct c; reflexivity.
Qed.

(** Letting time pass: every timer that is due fires, in order of expiry;
    the instance leaves the tree view only if a pending exit timer is among
    them. *)
Lemma fireDue_spec fuel target s :
  Inv options host s -> settled s -> (length (timers s) <= fuel)%nat ->
  exists s',
    fireDue options host fuel target s = Ok s' /\
    Inv options host s' /\ settled s' /\
    mounted s' = mounted s /\ isVisible s' = isVisible s /\
    frames s' = frames s /\ now s' = Z.max (now s) target /\
    timers s' `sublist_of` timers s /\
    (forall u, u ∈ timers s' -> target < due u) /\
    styleMutations (log s') = styleMutations (log s) /\
    ( (shouldRender s' = shouldRender s /\ elementRef s' = elementRef s /\
       invocations OnExited (log s') = invocations OnExited (log s) /\
       forall t, t ∈ timers s -> callback t = ExitTimer -> target < due t)
    \/ (exists t, t ∈ timers s /\ callback t = ExitTimer /\
        due t <= target /\ isMountedRef s = true /\
        shouldRender s = true /\ shouldRender s' = false /\
        invocations OnExited (log s') =
          invocations OnExited (log s) ++
          (if onExited options then [Z.max (now s) (due t)] else [])) ).
Proof.
  revert s. induction fuel as [|fuel IH]; intros s I S Hlen;
    rewrite fireDue_unfold.
  - destruct (timers s) eqn:Ets; [|simpl in Hlen; lia].
    simpl. eexists. split; [reflexivity|].
    split_and!; auto.
    + apply Inv_set_now; [lia|exact I].
    + simpl. rewrite Ets. reflexivity.
    + simpl. rewrite Ets. intros u Hu. inversion Hu.
    + left. split_and!; auto. intros t Ht. inversion Ht.
  - destruct (nextDue target (timers s)) as [u|] eqn:Hnext.
    2:{ eexists. split; [reflexivity|].
        split_and!; auto.
        - apply Inv_set_now; [lia|exact I].
        - simpl. apply (nextDue_None _ _ Hnext).
        - left. split_and!; auto. intros t Ht _.
          apply (nextDue_None _ _ Hnext t Ht). }
    apply nextDue_Some in Hnext as (Hu & Hdue & Hmin).
    cbv zeta.
    change (now (clearTimeout (timerId u) s)) with (now s).
    set (w := Z.max (now s) (due u)).
    destruct (fire_spec s u w I S Hu) as (s1 & R & I1 & S1 & W1 & M1 & V1 & F1
      & T1 & Hcase); [lia|].
    rewrite R. simpl.
    assert (length (timers s1) <= fuel)%nat as Hlen1.
    { apply sublist_length in T1.
      pose proof (length_filter_lt (fun x => timerId x <> timerId u)
                    (timers s) u Hu) as Hlt.
      assert (~ timerId u <> timerId u) as Hnn by (intros Hn; apply Hn; reflexivity).
      specialize (Hlt Hnn). lia. }
    destruct (IH s1 I1 S1 Hlen1) as (s' & R' & I' & S' & M' & V' & F' & W'
      & T' & D' & L' & Hcase').
    exists s'. split; [exact R'|].
    assert (timers s1 `sublist_of` timers s) as Tsub.
    { etransitivity; [exact T1|apply sublist_filter]. }
    split_and!; auto; try congruence.
    + rewrite W', W1. lia.
    + etransitivity; eauto.
    + rewrite L'.
      destruct Hcase as [(_&_&_&_&Hl)|(_&_&_&_&Hl)]; rewrite Hl;
        apply styleMutations_snoc_invoke.
    + destruct Hcase as [(Hcb & Hr1 & He1 & Ht1 & Hl1)
                        |(Hcb & Hlive & Hr & Hr1 & Hl1)].
      * (* a stale onEntered timer fired *)
        assert (invocations OnExited (log s1) = invocations OnExited (log s))
          as Hinv.
        { rewrite Hl1. apply invocations_snoc_other. reflexivity. }
        destruct Hcase' as [(Hr' & He' & Hi' & Hlater)
                           |(t & Ht & Hexit & Hd & Hlive & Hr & Hr' & Hi')].
        -- left. split_and!; try congruence.
           intros t Ht Hexit. apply Hlater; [|exact Hexit].
           rewrite Ht1. apply list_elem_of_filter. split; [|exact Ht].
           intros Heq.
           assert (t = u) by (eapply timerId_inj; eauto; apply I).
           congruence.
        -- right. exists t.
           assert (t ∈ timers s) as Hts.
           { rewrite Ht1 in Ht. apply list_elem_of_filter in Ht. tauto. }
           split_and!; auto; try congruence.
           ++ rewrite (inv_mounted _ _ _ I), <- M1, <- (inv_mounted _ _ _ I1).
              exact Hlive.
           ++ rewrite Hi', Hinv. f_equal.
              specialize (Hmin t Hts).
              destruct (onExited options); [|reflexivity].
              f_equal. lia.
      * (* the exit timer fired *)
        right. exists u. split_and!; auto.
        -- destruct Hcase' as [(Hr' & _)|(t & _ & _ & _ & _ & Hr2 & _)];
             congruence.
        -- destruct Hcase' as [(_ & _ & Hi' & _)|(t & _ & _ & _ & _ & Hr2 & _)];
             [|congruence].
           rewrite Hi', Hl1. apply invocations_snoc_same.
Qed.


(** ** Every reachable state satisfies the invariant *)

Lemma step_inv e s s' :
  Inv options host s -> settled s ->
  step options host e s = Ok s' ->
  Inv options host s' /\ settled s'.
Proof.
  intros I S. destruct e as [a| | |ms|]; simpl.
  - apply setIsVisible_inv; assumption.
  - destruct (mounted s) eqn:Hm; [|intros [= <-]; auto].
    apply rerender_inv; assumption.
  - apply runFrames_inv.
    + eapply Inv_quiet; [|exact I]. repeat split.
    + exact S.
  - destruct (fireDue_spec (length (timers s)) (now s + Z.max 0 ms) s I S)
      as (s'' & R & I' & S' & _); [lia|].
    rewrite R. intros [= <-]. auto.
  - intros [= <-]. apply unmount_inv; assumption.
Qed.


Lemma run_inv es s s' :
  Inv options host s -> settled s ->
  run options host es s = Ok s' ->
  Inv options host s' /\ settled s'.
Proof.
  revert s. induction es as [|e rest IH]; intros s I S; simpl.
  - intros [= <-]. auto.
  - destruct (step options host e s) as [s1|] eqn:E; simpl; [|discriminate].
    destruct (step_inv _ _ _ I S E). apply IH; assumption.
Qed.

Lemma reachable_inv s :
  reachable options host s -> Inv options host s /\ settled s.
Proof.
  intros (initialValue & es & H).
  destruct (useTransitionState options host initialValue) as [s0|] eqn:U;
    simpl in H; [|discriminate].
  destruct (useTransitionState_inv _ _ U) as (I0 & S0 & _).
  eapply run_inv; eauto.
Qed.

Lemma reachable_step e s s' :
  reachable options host s -> step options host e s = Ok s' ->
  reachable options host s'.
Proof.
  intros (initialValue & es & H) E. exists initialValue, (es ++ [e]).
  destruct (useTransitionState options host initialValue) as [s0|];
    simpl in *; [|discriminate].
  clear initialValue. revert s0 H.
  induction es as [|e0 rest IH]; intros s0; simpl.
  - intros [= ->]. rewrite E. reflexivity.
  - destruct (step options host e0 s0) as [s1|]; simpl; [|discriminate].
    apply IH.
Qed.

(** In a settled state the cells are what the last render saw. *)
Lemma settled_visible_present s :
  Inv options host s -> settled s ->
  isVisible s = true -> shouldRender s = true /\ cleanup s = None.
Proof.
  intros I S Hv. apply dirty_false in S.
  apply (inv_present _ _ _ I (shouldRender s)). congruence.
Qed.

Lemma settled_bound s :
  Inv options host s -> settled s ->
  bound s = attachesRef host && shouldRender s && mounted s.
Proof.
  intros I S. apply dirty_false in S.
  rewrite (inv_ref _ _ _ I). unfold renderedPresence. rewrite S. reflexivity.
Qed.

Lemma settled_exit_pending s t :
  Inv options host s -> settled s -> t ∈ timers s -> callback t = ExitTimer ->
  isVisible s = false /\ shouldRender s = true /\ mounted s = true /\
  isMountedRef s = true.
Proof.
  intros I S Ht Hexit. apply dirty_false in S.
  destruct (inv_exit _ _ _ I t Ht Hexit) as (_ & Hrd & Hr & Hm).
  pose proof (inv_mounted _ _ _ I). split_and!; congruence.
Qed.


Lemma setIsVisible_spec a s s' :
  Inv options host s -> settled s -> mounted s = true ->
  setIsVisible options host a s = Ok s' ->
  isVisible s' = resolveAction a (isVisible s) /\ mounted s' = true /\
  now s' = now s.
Proof.
  intros I S Hm. unfold setIsVisible, bailsOut. rewrite Hm.
  destruct (Bool.eqb _ _) eqn:E.
  - intros [= <-]. apply Bool.eqb_prop in E. auto.
  - intros H. apply settle_max in H; [|apply Inv_set_isVisible, I|exact Hm].
    destruct H as (_ & _ & M & V & W & _). auto.
Qed.

Lemma runFrames_presence queue s s' :
  runFrames options queue s = Ok s' ->
  shouldRender s' = shouldRender s /\ mounted s' = mounted s.
Proof.
  revert s. induction queue as [|cb rest IH]; intros s; simpl.
  - intros [= <-]. auto.
  - destruct (runFrame options cb s) as [s1|] eqn:F; simpl; [|discriminate].
    intros H. apply IH in H as [H1 H2].
    assert (shouldRender s1 = shouldRender s /\ mounted s1 = mounted s)
      as [E1 E2]; [|split; congruence].
    destruct cb as [config|config]; simpl in F.
    + injection F as <-. auto.
    + destruct (bound s); simpl in F; [|injection F as <-; auto].
      destruct (getTo config) as [styles|]; simpl in F; [|discriminate].
      injection F as <-. simpl.
      pose proof (setTransition_quiet (transitionValue options) s) as Q1.
      pose proof (applyStyle_quiet styles
                    (setTransition (transitionValue options) s)) as Q2.
      destruct (quiet_trans _ _ _ Q1 Q2) as (_ & Qr & _ & Qm & _). auto.
Qed.

(** The inner frame callback is guarded by the ref, not by
    [isMountedRef]: what keeps it from writing after teardown is that the
    host has detached the ref by then. *)
Remark inner_frame_guard config s :
  elementRef s = None -> runFrame options (InnerFrame config) s = Ok s.
Proof. intros H. simpl. unfold bound. rewrite H. reflexivity. Qed.

(** ** A pending exit runs to completion *)

Lemma exit_completes s tm ms :
  Inv options host s -> settled s ->
  tm ∈ timers s -> callback tm = ExitTimer ->
  now s <= due tm -> due tm <= now s + Z.max 0 ms ->
  exists s',
    step options host (Elapse ms) s = Ok s' /\
    Inv options host s' /\ settled s' /\
    shouldRender s' = false /\ elementRef s' = None /\
    invocations OnExited (log s') =
      invocations OnExited (log s) ++
      (if onExited options then [due tm] else []) /\
    styleMutations (log s') = styleMutations (log s).
Proof.
  intros I S Htm Hexit Hlo Hhi. simpl.
  destruct (fireDue_spec (length (timers s)) (now s + Z.max 0 ms) s I S)
    as (s' & R & I' & S' & M' & V' & F' & W' & T' & D' & L' & Hcase); [lia|].
  exists s'. split; [exact R|].
  destruct Hcase as [(_ & _ & _ & Hlater)|(t & Ht & Htexit & Hd & Hlive & Hr
                                           & Hr' & Hi')].
  { specialize (Hlater tm Htm Hexit). lia. }
  assert (t = tm) as ->.
  { eapply timerId_inj; eauto; [apply I|].
    destruct (inv_exit _ _ _ I t Ht Htexit) as (Hc1 & _).
    destruct (inv_exit _ _ _ I tm Htm Hexit) as (Hc2 & _). congruence. }
  split_and!; auto.
  - pose proof (settled_bound _ I' S') as Hb. rewrite Hr' in Hb.
    rewrite andb_false_r in Hb. simpl in Hb.
    unfold bound in Hb. destruct (elementRef s'); [discriminate|reflexivity].
  - rewrite Hi'. f_equal. destruct (onExited options); [|reflexivity].
    f_equal. lia.
Qed.

(** ** After teardown *)

Lemma torndown_runFrames queue s :
  torndown s ->
  exists s', runFrames options queue s = Ok s' /\ torndown s' /\
             log s' = log s.
Proof.
  revert s. induction queue as [|cb rest IH]; intros s T; simpl; [eauto|].
  assert (exists s1, runFrame options cb s = Ok s1 /\ torndown s1 /\
                     log s1 = log s) as (s1 & F & T1 & L1).
  { destruct T as (Hm & Hi & He).
    destruct cb as [config|config]; simpl.
    - eexists. split; [reflexivity|]. repeat split; assumption.
    - unfold bound. rewrite He. simpl. eexists. split; [reflexivity|].
      repeat split; assumption. }
  rewrite F. simpl. destruct (IH s1 T1) as (s' & R & T' & L').
  exists s'. split_and!; auto. congruence.
Qed.

Lemma torndown_fireDue fuel target s :
  torndown s ->
  exists s', fireDue options host fuel target s = Ok s' /\ torndown s' /\
             log s' = log s.
Proof.
  revert s. induction fuel as [|fuel IH]; intros s T; rewrite fireDue_unfold.
  - destruct (nextDue _ _); eexists; (split; [reflexivity|]); auto.
  - destruct (nextDue _ _) as [t|]; [|eexists; split; [reflexivity|]; auto].
    cbv zeta.
    set (s1 := set_now _ (clearTimeout (timerId t) s)).
    assert (torndown s1 /\ log s1 = log s) as [T1 L1] by (split; [exact T|reflexivity]).
    clearbody s1.
    assert (runTimer options host (callback t) s1 = Ok s1) as ->.
    { destruct T1 as (_ & Hi & _). destruct (callback t); simpl; rewrite Hi; reflexivity. }
    simpl. destruct (IH s1 T1) as (s' & R & T' & L').
    exists s'. split_and!; auto. congruence.
Qed.

Lemma torndown_step e s :
  torndown s ->
  exists s', step options host e s = Ok s' /\ torndown s' /\ log s' = log s.
Proof.
  intros T. pose proof T as (Hm & Hi & He).
  destruct e as [a| | |ms|]; simpl.
  - unfold setIsVisible, bailsOut. rewrite Hm. eauto.
  - rewrite Hm. eauto.
  - apply (torndown_runFrames (frames s) (set_frames [] s)). exact T.
  - apply torndown_fireDue. exact T.
  - unfold unmount. rewrite Hm. eauto.
Qed.

Lemma torndown_run es s :
  torndown s ->
  exists s', run options host es s = Ok s' /\ torndown s' /\ log s' = log s.
Proof.
  revert s. induction es as [|e rest IH]; intros s T; simpl; [eauto|].
  destruct (torndown_step e s T) as (s1 & E & T1 & L1). rewrite E. simpl.
  destruct (IH s1 T1) as (s' & R & T' & L').
  exists s'. split_and!; auto. congruence.
Qed.

Lemma unmount_torndown s :
  Inv options host s -> settled s ->
  torndown (unmount host s) /\ log (unmount host s) = log s.
Proof.
  intros I S.
  pose proof (settled_bound _ I S) as Hb.
  pose proof (inv_mounted _ _ _ I) as Him.
  unfold unmount. destruct (mounted s) eqn:Hm.
  - unfold torndown, runCleanup.
    destruct (attachesRef host); simpl in *;
      destruct (cleanup s); simpl; split_and!; auto;
      unfold bound in Hb; destruct (elementRef s); auto; discriminate.
  - rewrite andb_false_r in Hb. unfold bound in Hb.
    split; [|reflexivity]. split_and!; auto.
    destruct (elementRef s); [discriminate|reflexivity].
Qed.


(** ** When the ref is never attached *)

Lemma layoutEffect_unbound v r s :
  bound s = false -> layoutEffect options v r s = Ok s.
Proof.
  intros Hb. unfold layoutEffect. rewrite Hb, andb_false_r. reflexivity.
Qed.

Lemma visibilityEffect_unbound v r s :
  bound s = false ->
  exists s', visibilityEffect options v r s = Ok s' /\
    styleMutations (log s') = styleMutations (log s) /\ bound s' = false.
Proof.
  intros Hb. unfold visibilityEffect.
  pose proof (styleMutations_invoke (onEnter options) OnEnter s) as L1.
  pose proof (styleMutations_invoke (onExit options) OnExit s) as L2.
  destruct (invoke_quiet (onEnter options) OnEnter s) as (_&_&_&_&_&_&_&_&_&B1).
  destruct (invoke_quiet (onExit options) OnExit s) as (_&_&_&_&_&_&_&_&_&B2).
  destruct v; [|destruct r; simpl].
  - eexists. split; [reflexivity|]. unfold setShouldRender.
    destruct (mounted _); simpl; split; auto; unfold bound in *; simpl;
      congruence.
  - rewrite B2, Hb. simpl. eexists. split; [reflexivity|]. simpl.
    split; [exact L2|]. unfold bound in *. simpl. congruence.
  - eexists. split; [reflexivity|]. auto.
Qed.

Lemma commit_unbound s :
  attachesRef host = false -> bound s = false ->
  exists s', commit options host s = Ok s' /\
    styleMutations (log s') = styleMutations (log s) /\ bound s' = false.
Proof.
  intros Hdet Hb. unfold commit, reconcileRef. rewrite Hdet.
  rewrite (layoutEffect_unbound _ _ _ Hb).
  assert ((if sameDeps (rendered s) (isVisible s) (shouldRender s)
           then Ok s else Ok s) = Ok s) as -> by (destruct (sameDeps _ _ _); reflexivity).
  simpl.
  set (s3 := match rendered s with
             | Some _ => s
             | None => set_isMountedRef true s
             end).
  assert (bound s3 = false /\ log s3 = log s) as [B3 L3].
  { subst s3. destruct (rendered s); auto. }
  clearbody s3.
  destruct (sameVisible _ _ && negb _).
  - simpl. eexists. split; [reflexivity|]. simpl. split; [congruence|exact B3].
  - assert (bound (runCleanup s3) = false /\ log (runCleanup s3) = log s3)
      as [B4 L4].
    { unfold runCleanup. destruct (cleanup s3); auto. }
    destruct (visibilityEffect_unbound (isVisible s) (shouldRender s) _ B4)
      as (s4 & E & L & B).
    rewrite E. simpl. eexists. split; [reflexivity|]. simpl.
    split; [congruence|exact B].
Qed.

Lemma settle_unbound s :
  attachesRef host = false -> Inv options host s -> mounted s = true ->
  exists s', settle options host maximumUpdateDepth s = Ok s' /\
    styleMutations (log s') = styleMutations (log s).
Proof.
  intros Hdet I Hm.
  assert (forall s0, Inv options host s0 -> bound s0 = false) as Hunbound.
  { intros s0 I0. rewrite (inv_ref _ _ _ I0), Hdet. reflexivity. }
  unfold maximumUpdateDepth. rewrite settle_unfold.
  destruct (dirty s) eqn:D1; [|eauto].
  destruct (commit_unbound s Hdet (Hunbound s I)) as (s1 & C1 & L1 & B1).
  rewrite C1. simpl.
  destruct (commit_spec _ _ I Hm C1) as (I1 & V1 & M1 & W1 & R1 & P1 & T1).
  rewrite settle_unfold.
  destruct (dirty s1) eqn:D2; [|eauto].
  destruct (commit_unbound s1 Hdet B1) as (s2 & C2 & L2 & B2).
  rewrite C2. simpl.
  destruct (commit_spec _ _ I1 M1 C2) as (I2 & V2 & M2 & W2 & R2 & P2 & T2).
  assert (isVisible s = true /\ shouldRender s1 = true) as [Hv Hr].
  { destruct P1 as [P1|P1]; [|exact P1].
    exfalso. assert (dirty s1 = false); [|congruence].
    apply dirty_false. congruence. }
  assert (shouldRender s2 = true) as Hr2.
  { destruct P2 as [P2|[_ P2]]; congruence. }
  assert (dirty s2 = false) as D3.
  { apply dirty_false. congruence. }
  rewrite (settle_clean _ _ D3). eexists. split; [reflexivity|]. congruence.
Qed.

Lemma runFrames_unbound queue s :
  bound s = false ->
  exists s', runFrames options queue s = Ok s' /\ log s' = log s.
Proof.
  revert s. induction queue as [|cb rest IH]; intros s Hb; simpl; [eauto|].
  destruct cb as [config|config]; simpl.
  - apply (IH (requestAnimationFrame (InnerFrame config) s)). exact Hb.
  - rewrite Hb. simpl. apply IH. exact Hb.
Qed.

(** Without a bound node no step throws and no step writes a style. *)
Lemma step_unbound e s :
  attachesRef host = false -> Inv options host s -> settled s ->
  exists s', step options host e s = Ok s' /\
    styleMutations (log s') = styleMutations (log s).
Proof.
  intros Hdet I S.
  assert (bound s = false) as Hb.
  { rewrite (inv_ref _ _ _ I), Hdet. reflexivity. }
  destruct e as [a| | |ms|]; simpl.
  - unfold setIsVisible, bailsOut. destruct (mounted s) eqn:Hm; [|eauto].
    destruct (Bool.eqb _ _); [eauto|].
    apply (settle_unbound (set_isVisible _ s)); auto.
    apply Inv_set_isVisible, I.
  - destruct (mounted s) eqn:Hm; [|eauto].
    destruct (commit_unbound s Hdet Hb) as (s1 & C & L & B).
    rewrite C. simpl.
    destruct (commit_spec _ _ I Hm C) as (I1 & _ & M1 & _).
    destruct (settle_unbound s1 Hdet I1 M1) as (s' & E & L').
    exists s'. split; [exact E|congruence].
  - destruct (runFrames_unbound (frames s) (set_frames [] s) Hb)
      as (s' & R & L).
    exists s'. split; [exact R|]. rewrite L. reflexivity.
  - destruct (fireDue_spec (length (timers s)) (now s + Z.max 0 ms) s I S)
      as (s' & R & _ & _ & _ & _ & _ & _ & _ & _ & L & _); [lia|].
    eauto.
  - eexists. split; [reflexivity|].
    destruct (unmount_torndown s I S) as [_ L]. rewrite L. reflexivity.
Qed.

Lemma reachable_unbound s :
  attachesRef host = false -> reachable options host s ->
  styleMutations (log s) = [].
Proof.
  intros Hdet (initialValue & es & H).
  destruct (useTransitionState options host initialValue) as [s0|] eqn:U;
    simpl in H; [|discriminate].
  destruct (useTransitionState_inv _ _ U) as (I0 & S0 & _).
  assert (styleMutations (log s0) = []) as L0.
  { unfold useTransitionState in U.
    destruct (settle_unbound (firstRender initialValue) Hdet
                (Inv_firstRender initialValue) eq_refl) as (s0' & E & L).
    rewrite E in U. injection U as ->. exact L. }
  clear U. revert s0 I0 S0 L0 H.
  induction es as [|e rest IH]; intros s0 I0 S0 L0; simpl.
  - intros [= <-]. exact L0.
  - destruct (step_unbound e s0 Hdet I0 S0) as (s1 & E & L1).
    rewrite E. simpl. destruct (step_inv _ _ _ I0 S0 E) as [I1 S1].
    apply IH; auto. congruence.
Qed.

(** Mounting and any sequence of events complete without throwing. *)
Lemma run_unbound initialValue es :
  attachesRef host = false ->
  exists s, (s0 <- useTransitionState options host initialValue ;;
             run options host es s0) = Ok s.
Proof.
  intros Hdet. unfold useTransitionState.
  destruct (settle_unbound (firstRender initialValue) Hdet
              (Inv_firstRender initialValue) eq_refl) as (s0 & E & _).
  rewrite E. simpl.
  assert (Inv options host s0 /\ settled s0) as [I0 S0].
  { destruct (useTransitionState_inv initialValue s0 E) as (I0 & S0 & _).
    auto. }
  clear E. revert s0 I0 S0.
  induction es as [|e rest IH]; intros s0 I0 S0; simpl; [eauto|].
  destruct (step_unbound e s0 Hdet I0 S0) as (s1 & E & _).
  rewrite E. simpl. destruct (step_inv _ _ _ I0 S0 E) as [I1 S1].
  apply IH; assumption.
Qed.

End Machine.

(** * Symbolic runs of single transitions *)

Section Exact.
Variable options : TransitionOptions.
Variable host : Host.

Local Arguments settle : simpl never.
Local Arguments fireDue : simpl never.
Local Arguments maximumUpdateDepth : simpl never.
Local Arguments insert : simpl never.
Local Arguments union : simpl never.
Local Arguments empty : simpl never.

(** Unfold the hook's own definitions and the record projections, and
    nothing of the libraries, so that style maps and lists stay folded. *)
Ltac exec :=
  cbv beta iota zeta delta
    [ setIsVisible bailsOut step run commit dirty sameDeps sameVisible reconcileRef
      layoutEffect visibilityEffect runCleanup runFrame runFrames runTimer
      unmount invoke record setTimeout clearTimeout requestAnimationFrame
      setTransition applyStyle setShouldRender bound
      set_isVisible set_shouldRender set_elementRef set_isMountedRef
      set_mounted set_rendered set_cleanup set_timers set_frames
      set_nextTimer set_now set_log
      isVisible shouldRender elementRef isMountedRef mounted rendered cleanup
      timers frames nextTimer now log
      bind Bool.eqb andb negb orb fst snd presence length nextDue earliest
      onEnter onEntered onExit onExited attachesRef ].

Lemma runCleanup_None s : cleanup s = None -> runCleanup s = s.
Proof. unfold runCleanup. intros ->. reflexivity. Qed.

Lemma reconcileRef_present s :
  bound s = attachesRef host -> reconcileRef host true s = s.
Proof.
  unfold reconcileRef. intros Hb. destruct (attachesRef host); [|reflexivity].
  rewrite Hb. reflexivity.
Qed.

(** The exit branch of the visibility effect, for a visible instance. *)
Lemma exit_step a s styles :
  Inv options host s -> settled s -> mounted s = true ->
  isVisible s = true -> resolveAction a true = false ->
  (bound s = true ->
   getFrom (getEffectConfig (effectOf options)) = Ok styles) ->
  exists s1,
    step options host (SetIsVisible a) s = Ok s1 /\
    log s1 = log s ++
      (if onExit options then [(now s, Invoke OnExit)] else []) ++
      (if bound s
       then (now s, SetTransition (transitionValue options)) ::
            match styles with
            | Some bag => [(now s, Assign bag)]
            | None => []
            end
       else []) /\
    frames s1 = frames s /\
    timers s1 = timers s ++
      [ {| timerId := nextTimer s; created := now s;
           delay := durationOf options; callback := ExitTimer |} ] /\
    isVisible s1 = false /\ shouldRender s1 = true /\ mounted s1 = true /\
    now s1 = now s /\ bound s1 = bound s.
Proof.
  intros I S Hm Hv Ha Hfrom.
  destruct (settled_visible_present _ _ _ I S Hv) as [Hr Hc].
  pose proof (settled_bound _ _ _ I S) as Hb.
  rewrite Hr, Hm, !andb_true_r in Hb.
  apply dirty_false in S. clear I.
  destruct s as [v r el im m rd cl ts fs n w l].
  unfold bound in *. simpl in *. subst v r m cl rd.
  destruct host as [attaches inline]. simpl in Hb. subst attaches.
  destruct options as [d e tf en ened ex exed].
  unfold step, setIsVisible, bailsOut. exec. rewrite Ha. exec.
  unfold maximumUpdateDepth. rewrite settle_unfold.
  destruct el as [style|], ex, styles as [bag|]; exec;
    rewrite ?(Hfrom eq_refl); exec;
    (rewrite settle_clean by reflexivity);
    (eexists; split; [reflexivity|]); exec;
    rewrite <- ?app_assoc, ?app_nil_r; simpl; split_and!; reflexivity.
Qed.





(** The first commit of an instance created visible: the element is
    rendered at once, so the layout effect finds the node, and the
    visibility effect that follows only invokes [onEnter]. *)
Lemma mount_commits styles :
  attachesRef host = true ->
  getFrom (getEffectConfig (effectOf options)) = Ok styles ->
  exists s1,
    useTransitionState options host (Some true) = Ok s1 /\
    log s1 =
      [(0, SetTransition "none")] ++
      match styles with
      | Some bag => [(0, Assign bag)]
      | None => []
      end ++
      (if onEnter options then [(0, Invoke OnEnter)] else []) /\
    frames s1 = [OuterFrame (getEffectConfig (effectOf options))] /\
    timers s1 = [] /\
    shouldRender s1 = true /\ isVisible s1 = true /\
    bound s1 = true /\ isMountedRef s1 = true /\ mounted s1 = true /\
    now s1 = 0 /\ nextTimer s1 = 0%nat.
Proof.
  intros Hattach Hfrom.
  destruct host as [attaches inline]. simpl in Hattach. subst attaches.
  destruct options as [d e tf en ened ex exed].
  unfold useTransitionState, firstRender, maximumUpdateDepth. simpl default.
  rewrite settle_unfold.
  destruct en, styles as [bag|]; exec; rewrite Hfrom; exec;
    (rewrite settle_clean by reflexivity);
    (eexists; split; [reflexivity|]); exec;
    rewrite <- ?app_assoc, ?app_nil_r; simpl; split_and!; reflexivity.
Qed.




(** ** The node's inline style *)








(** ** Renders caused by the owner *)

(** A settled instance whose [effect] option kept its identity: no
    dependency changed, so a commit runs no effect. *)
Lemma commit_stable s :
  Inv options host s -> settled s -> mounted s = true ->
  effectIsFresh options host = false ->
  commit options host s = Ok s.
Proof.
  intros I S Hm Hfresh.
  pose proof (settled_bound _ _ _ I S) as Hb.
  apply dirty_false in S. clear I.
  destruct s as [v r el im m rd cl ts fs n w l].
  unfold bound in *. simpl in *. subst m rd.
  destruct host as [attaches inline].
  destruct v, r, attaches, el as [style|]; simpl in Hb; try discriminate;
    exec; rewrite Hfresh; exec; reflexivity.
Qed.

(** With an [effect] object rebuilt on every render the visibility effect
    runs again with every commit; while the intent is to show it invokes
    [onEnter] and sets a state that is already set. *)
Lemma rerender_visible_fresh s :
  Inv options host s -> settled s -> mounted s = true ->
  isVisible s = true -> effectIsFresh options host = true ->
  step options host Rerender s = Ok (invoke (onEnter options) OnEnter s).
Proof.
  intros I S Hm Hv Hfresh.
  destruct (settled_visible_present _ _ _ I S Hv) as [Hr Hc].
  pose proof (settled_bound _ _ _ I S) as Hb.
  rewrite Hr, Hm, !andb_true_r in Hb.
  apply dirty_false in S. clear I.
  destruct s as [v r el im m rd cl ts fs n w l].
  unfold bound in *. simpl in *. subst v r m cl rd.
  destruct host as [attaches inline]. simpl in Hb. subst attaches.
  destruct options as [d e tf en ened ex exed].
  unfold step.
  destruct el as [style|], en; exec; rewrite Hfresh; exec;
    (rewrite settle_clean by reflexivity); reflexivity.
Qed.


(** The setter on a hidden instance, whatever the caller does with the
    ref: the commit that renders the element runs the visibility effect a
    second time when the [effect] object is a new one. *)
Lemma enter_invokes a s styles :
  Inv options host s -> settled s -> mounted s = true ->
  isVisible s = false -> shouldRender s = false ->
  resolveAction a false = true ->
  (attachesRef host = true ->
   getFrom (getEffectConfig (effectOf options)) = Ok styles) ->
  exists s1,
    step options host (SetIsVisible a) s = Ok s1 /\
    invocations OnEnter (log s1) =
      invocations OnEnter (log s) ++
      (if onEnter options
       then if effectIsFresh options host then [now s; now s] else [now s]
       else []) /\
    invocations OnExit (log s1) = invocations OnExit (log s) /\
    shouldRender s1 = true /\ isVisible s1 = true.
Proof.
  intros I S Hm Hv Hr Ha Hfrom.
  pose proof (settled_bound _ _ _ I S) as Hb.
  rewrite Hr, andb_false_r in Hb. simpl in Hb.
  pose proof (inv_mounted _ _ _ I) as Him. rewrite Hm in Him.
  apply dirty_false in S. clear I.
  destruct s as [v r el im m rd cl ts fs n w l].
  unfold bound in *. simpl in *. subst v r m rd im.
  destruct el as [style|]; [discriminate|]. clear Hb.
  destruct host as [attaches inline].
  destruct options as [d e tf en ened ex exed].
  unfold step, setIsVisible, bailsOut. exec. rewrite Ha. exec.
  unfold maximumUpdateDepth. rewrite settle_unfold.
  destruct (effectIsFresh _ _) eqn:Efresh;
    destruct attaches, cl as [id|], en, styles as [bag|]; exec;
    rewrite settle_unfold; exec; rewrite ?(Hfrom eq_refl); exec;
    rewrite Efresh; exec;
    (rewrite settle_clean by reflexivity);
    (eexists; split; [reflexivity|]); exec;
    rewrite ?invocations_app; simpl; rewrite <- ?app_assoc, ?app_nil_r;
    simpl; split_and!; reflexivity.
Qed.

(** ** A configuration that cannot be read *)

(** [effect: null] is not a string, so it is the configuration; with the
    node bound, the layout effect of the commit that renders the element
    writes [transition: none] and then reads [config.from]. *)
Lemma show_null_throws a s :
  Inv options host s -> settled s -> mounted s = true ->
  isVisible s = false -> shouldRender s = false ->
  resolveAction a false = true ->
  attachesRef host = true -> effectOf options = VNull ->
  step options host (SetIsVisible a) s = Throw TypeError.
Proof.
  intros I S Hm Hv Hr Ha Hattach Hnull.
  pose proof (settled_bound _ _ _ I S) as Hb.
  rewrite Hr, andb_false_r in Hb. simpl in Hb.
  pose proof (inv_mounted _ _ _ I) as Him. rewrite Hm in Him.
  apply dirty_false in S. clear I.
  destruct s as [v r el im m rd cl ts fs n w l].
  unfold bound in *. simpl in *. subst v r m rd im.
  destruct el as [style|]; [discriminate|]. clear Hb.
  destruct host as [attaches inline]. simpl in Hattach. subst attaches.
  assert (effectIsFresh options {| attachesRef := true; inlineEffect := inline |}
          = false) as Hfresh.
  { unfold effectIsFresh. rewrite Hnull. apply andb_false_r. }
  destruct options as [d e tf en ened ex exed].
  unfold step, setIsVisible, bailsOut. exec. rewrite Ha. exec.
  unfold maximumUpdateDepth. rewrite settle_unfold.
  destruct cl as [id|], en; exec;
    rewrite settle_unfold; exec; rewrite Hnull; reflexivity.
Qed.

Lemma mount_null_throws :
  attachesRef host = true -> effectOf options = VNull ->
  useTransitionState options host (Some true) = Throw TypeError.
Proof.
  intros Hattach Hnull.
  destruct host as [attaches inline]. simpl in Hattach. subst attaches.
  destruct options as [d e tf en ened ex exed].
  unfold useTransitionState, firstRender, maximumUpdateDepth. simpl default.
  rewrite settle_unfold. exec. rewrite Hnull. reflexivity.
Qed.

(** ** The first commit *)

Lemma mount_hidden initialValue :
  default false initialValue = false ->
  useTransitionState options host initialValue = Ok Scenario.hidden.
Proof.
  intros Hinit.
  destruct host as [attaches inline].
  destruct options as [d e tf en ened ex exed].
  unfold useTransitionState, firstRender, maximumUpdateDepth.
  rewrite Hinit. rewrite settle_unfold.
  destruct attaches; exec; (rewrite settle_clean by reflexivity);
    reflexivity.
Qed.

Lemma mount_detached :
  attachesRef host = false ->
  exists s1,
    useTransitionState options host (Some true) = Ok s1 /\
    log s1 = (if onEnter options then [(0, Invoke OnEnter)] else []) /\
    frames s1 = [] /\ timers s1 = [] /\
    shouldRender s1 = true /\ isVisible s1 = true /\ elementRef s1 = None.
Proof.
  intros Hdet.
  destruct host as [attaches inline]. simpl in Hdet. subst attaches.
  destruct options as [d e tf en ened ex exed].
  unfold useTransitionState, firstRender, maximumUpdateDepth. simpl default.
  rewrite settle_unfold.
  destruct en; exec; (rewrite settle_clean by reflexivity);
    (eexists; split; [reflexivity|]); exec; split_and!; reflexivity.
Qed.

End Exact.

(** * Enter transitions in any state *)

Section AnyState.

Variable options : TransitionOptions.
Variable host : Host.

Local Arguments settle : simpl never.
Local Arguments fireDue : simpl never.
Local Arguments maximumUpdateDepth : simpl never.

(** ** What the queue of frame callbacks holds *)

Lemma frames_setTransition value s :
  frames (setTransition value s) = frames s.
Proof. unfold setTransition. destruct (elementRef s); reflexivity. Qed.

Lemma frames_applyStyle styles s : frames (applyStyle styles s) = frames s.
Proof.
  unfold applyStyle. destruct (elementRef s), styles; reflexivity.
Qed.

Lemma layoutEffect_frames v r s s' :
  layoutEffect options v r s = Ok s' ->
  frames s' = frames s \/
  frames s' = frames s ++ [OuterFrame (getEffectConfig (effectOf options))].
Proof.
  unfold layoutEffect. destruct (v && r && bound s); [|intros [= <-]; auto].
  destruct (getFrom _) as [styles|]; simpl; [|discriminate].
  intros [= <-]. right. simpl.
  rewrite frames_applyStyle, frames_setTransition. reflexivity.
Qed.

Lemma visibilityEffect_frames v r s s' :
  visibilityEffect options v r s = Ok s' -> frames s' = frames s.
Proof.
  unfold visibilityEffect. destruct v; [|destruct r; simpl].
  - intros [= <-]. unfold setShouldRender.
    destruct (mounted _); simpl; apply frames_invoke.
  - destruct (bound _); simpl.
    + destruct (getFrom _) as [styles|]; simpl; [|discriminate].
      intros [= <-]. simpl.
      rewrite frames_applyStyle, frames_setTransition. apply frames_invoke.
    + intros [= <-]. simpl. apply frames_invoke.
  - intros [= <-]. reflexivity.
Qed.

Lemma commit_frames s s' :
  commit options host s = Ok s' ->
  frames s' = frames s \/
  frames s' = frames s ++ [OuterFrame (getEffectConfig (effectOf options))].
Proof.
  unfold commit.
  assert (frames (reconcileRef host (shouldRender s) s) = frames s) as F1.
  { unfold reconcileRef.
    destruct (attachesRef host), (shouldRender s), (bound s); reflexivity. }
  destruct (if sameDeps _ _ _ then _ else _) as [s2|] eqn:L; simpl;
    [|discriminate].
  assert (frames s2 = frames s \/
          frames s2 = frames s ++
            [OuterFrame (getEffectConfig (effectOf options))]) as F2.
  { destruct (sameDeps _ _ _).
    - injection L as <-. auto.
    - apply layoutEffect_frames in L. rewrite F1 in L. exact L. }
  clear L.
  set (s3 := match rendered s with
             | Some _ => s2
             | None => set_isMountedRef true s2
             end).
  assert (frames s3 = frames s2) as F3 by (subst s3; destruct (rendered s); auto).
  clearbody s3.
  destruct (sameVisible _ _ && negb _).
  - intros [= <-]. simpl. rewrite F3. exact F2.
  - destruct (visibilityEffect _ _ _ _) as [s4|] eqn:E; simpl; [|discriminate].
    intros [= <-]. simpl. apply visibilityEffect_frames in E.
    assert (frames (runCleanup s3) = frames s3) as F4
      by (unfold runCleanup; destruct (cleanup s3); reflexivity).
    rewrite E, F4, F3. exact F2.
Qed.

Lemma settle_frames fuel s s' cb :
  settle options host fuel s = Ok s' -> cb ∈ frames s' ->
  cb ∈ frames s \/ cb = OuterFrame (getEffectConfig (effectOf options)).
Proof.
  revert s. induction fuel as [|fuel IH]; intros s; rewrite settle_unfold.
  - destruct (dirty s); [discriminate|]. intros [= <-]. auto.
  - destruct (dirty s); [|intros [= <-]; auto].
    destruct (commit options host s) as [s1|] eqn:C; simpl; [|discriminate].
    intros E Hin. destruct (IH s1 E Hin) as [H|H]; [|auto].
    destruct (commit_frames _ _ C) as [F|F]; rewrite F in H; [auto|].
    apply elem_of_app in H as [H|H]; [auto|].
    apply list_elem_of_singleton in H. auto.
Qed.


(** Callbacks left in the queue by earlier transitions run without
    throwing; they leave the control state alone and queue only callbacks
    with the same configuration. *)
Lemma runFrames_stale config styles queue s :
  getTo config = Ok styles ->
  (forall cb, cb ∈ queue -> frameConfig cb = config) ->
  Inv options host s -> settled s ->
  exists s' queued,
    runFrames options queue s = Ok s' /\
    Inv options host s' /\ settled s' /\
    frames s' = frames s ++ queued /\
    (forall cb, cb ∈ queued -> frameConfig cb = config) /\
    bound s' = bound s /\ now s' = now s /\ mounted s' = mounted s /\
    isVisible s' = isVisible s /\ shouldRender s' = shouldRender s.
Proof.
  intros Hto. revert s.
  induction queue as [|cb rest IH]; intros s Hq I S; simpl.
  - exists s, []. rewrite app_nil_r. split_and!; auto;
      intros cb Hcb; inversion Hcb.
  - assert (frameConfig cb = config) as Hc by (apply Hq; left).
    assert (forall cb', cb' ∈ rest -> frameConfig cb' = config) as Hrest
      by (intros cb' H; apply Hq; right; exact H).
    assert (exists s1 q1,
      runFrame options cb s = Ok s1 /\ frames s1 = frames s ++ q1 /\
      (forall cb', cb' ∈ q1 -> frameConfig cb' = config) /\
      bound s1 = bound s /\ now s1 = now s /\ mounted s1 = mounted s /\
      isVisible s1 = isVisible s /\ shouldRender s1 = shouldRender s)
      as (s1 & q1 & F & Fq & Hq1 & B1 & W1 & M1 & V1 & R1).
    { destruct cb as [c|c]; simpl in Hc; subst c; simpl.
      - eexists _, [InnerFrame config]. split; [reflexivity|].
        split_and!; auto;
          intros cb' ->%list_elem_of_singleton; reflexivity.
      - destruct (bound s) eqn:Hb; simpl.
        + rewrite Hto. simpl. eexists _, []. split; [reflexivity|].
          simpl. rewrite app_nil_r.
          pose proof (setTransition_quiet (transitionValue options) s) as Q1.
          pose proof (applyStyle_quiet styles
                        (setTransition (transitionValue options) s)) as Q2.
          destruct (quiet_trans _ _ _ Q1 Q2)
            as (Qv & Qr & _ & Qm & _ & _ & _ & _ & Qw & Qb).
          rewrite frames_applyStyle, frames_setTransition.
          split_and!; auto; try congruence;
            try (intros cb' H; inversion H);
            unfold bound in *; simpl; congruence.
        + eexists _, []. split; [reflexivity|]. rewrite app_nil_r.
          split_and!; auto; intros cb' H; inversion H. }
    rewrite F. simpl.
    destruct (runFrame_inv _ _ _ _ _ I S F) as [I1 S1].
    destruct (IH s1 Hrest I1 S1)
      as (s' & q' & R & I' & S' & Fq' & Hq' & B' & W' & M' & V' & R').
    exists s', (q1 ++ q'). split; [exact R|].
    split_and!; auto; try congruence.
    + rewrite Fq', Fq, app_assoc. reflexivity.
    + intros cb' [H|H]%elem_of_app; auto.
Qed.


Lemma runFrames_configs config queue s s' :
  runFrames options queue s = Ok s' ->
  (forall cb, cb ∈ queue -> frameConfig cb = config) ->
  (forall cb, cb ∈ frames s -> frameConfig cb = config) ->
  forall cb, cb ∈ frames s' -> frameConfig cb = config.
Proof.
  revert s. induction queue as [|cb0 rest IH]; intros s; simpl.
  - intros [= <-] _ H. exact H.
  - destruct (runFrame options cb0 s) as [s1|] eqn:F; simpl; [|discriminate].
    intros R Hq Hs. apply (IH s1 R).
    + intros cb H. apply Hq. right. exact H.
    + assert (frameConfig cb0 = config) as Hc by (apply Hq; left).
      destruct cb0 as [c|c]; simpl in *; subst c.
      * injection F as <-. simpl. intros cb [H|H]%elem_of_app; [auto|].
        apply list_elem_of_singleton in H. subst cb. reflexivity.
      * destruct (bound s); simpl in F; [|injection F as <-; exact Hs].
        destruct (getTo config) as [styles|]; simpl in F; [|discriminate].
        injection F as <-. simpl.
        rewrite frames_applyStyle, frames_setTransition. exact Hs.
Qed.

(** Every queued frame callback carries the configuration resolved from
    the options. *)
Lemma reachable_frames s cb :
  reachable options host s -> cb ∈ frames s ->
  frameConfig cb = getEffectConfig (effectOf options).
Proof.
  intros (initialValue & es & H). revert cb.
  destruct (useTransitionState options host initialValue) as [s0|] eqn:U;
    simpl in H; [|discriminate].
  destruct (useTransitionState_inv _ _ _ _ U) as (I0 & S0 & _).
  assert (forall cb, cb ∈ frames s0 ->
            frameConfig cb = getEffectConfig (effectOf options)) as F0.
  { intros cb Hcb. unfold useTransitionState in U.
    destruct (settle_frames _ _ _ cb U Hcb) as [Hin| ->]; [|reflexivity].
    inversion Hin. }
  clear U. revert s0 I0 S0 F0 H.
  induction es as [|e rest IH]; intros s0 I0 S0 F0; simpl.
  - intros [= <-]. exact F0.
  - destruct (step options host e s0) as [s1|] eqn:E; simpl; [|discriminate].
    destruct (step_inv _ _ _ _ _ I0 S0 E) as [I1 S1].
    apply IH; auto.
    intros cb Hcb.
    destruct e as [a| | |ms|]; simpl in E.
    + unfold setIsVisible, bailsOut in E.
      destruct (mounted s0); [|injection E as <-; auto].
      destruct (Bool.eqb _ _); [injection E as <-; auto|].
      destruct (settle_frames _ _ _ cb E Hcb) as [Hin| ->]; [|reflexivity].
      apply F0. exact Hin.
    + destruct (mounted s0); [|injection E as <-; auto].
      destruct (commit options host s0) as [s2|] eqn:C; simpl in E;
        [|discriminate].
      destruct (settle_frames _ _ _ cb E Hcb) as [Hin| ->]; [|reflexivity].
      destruct (commit_frames _ _ C) as [F|F]; rewrite F in Hin; [auto|].
      apply elem_of_app in Hin as [Hin|Hin]; [auto|].
      apply list_elem_of_singleton in Hin. subst cb. reflexivity.
    + apply (runFrames_configs _ _ _ _ E); auto.
      intros cb' H. inversion H.
    + destruct (fireDue_spec options host (length (timers s0))
                  (now s0 + Z.max 0 ms) s0 I0 S0)
        as (s' & R & _ & _ & _ & _ & F & _); [lia|].
      rewrite R in E. injection E as <-. rewrite F in Hcb. auto.
    + injection E as <-. apply F0.
      unfold unmount, runCleanup in Hcb.
      destruct (mounted s0), (attachesRef host); simpl in Hcb;
        try destruct (cleanup s0); exact Hcb.
Qed.

(** ** Time passing while the intent is to show *)





(** ** The two paint opportunities, whatever else is queued *)



End AnyState.

(** * The claims about the lifecycle *)

Section Lifecycle.

Variable options : TransitionOptions.
Variable host : Host.

(** C9: a reachable state is settled, and setting the intent to the value
    it has there is a no-operation.  For every action that resolves to the
    current value (a plain value, or an updater) the state that results is
    the state before: no timer and no frame callback is added, and
    nothing is logged, so no lifecycle callback is invoked again.  The
    hook's part in this: should React render all the same, the dependency
    arrays of lines 120 and 142 hold the values of the last render (the
    [effect] option keeping its identity), and no effect runs; and after
    any call of the setter with a value, the same call again changes
    nothing. *)
Theorem setIsVisible_same_value_is_noop (s : Hook) (a : SetStateAction) :
  reachable options host s ->
  resolveAction a (isVisible s) = isVisible s ->
  settled s /\
  (exists s', step options host (SetIsVisible a) s = Ok s' /\ s' = s /\
     timers s' = timers s /\ frames s' = frames s /\ log s' = log s) /\
  (effectIsFresh options host = false ->
   step options host Rerender s = Ok s) /\
  (forall b s1,
     step options host (SetIsVisible (Value b)) s = Ok s1 ->
     isVisible s1 = (if mounted s then b else isVisible s) /\
     step options host (SetIsVisible (Value b)) s1 = Ok s1).
Proof.
  intros R Ha. destruct (reachable_inv _ _ _ R) as [I S].
  split; [exact S|]. split_and!.
  - exists s. split_and!; try reflexivity.
    simpl. unfold setIsVisible, bailsOut. rewrite Ha, Bool.eqb_reflx.
    destruct (mounted s); reflexivity.
  - intros Hfresh. unfold step.
    destruct (mounted s) eqn:Hm; [|reflexivity].
    rewrite (commit_stable options host s I S Hm Hfresh). cbn [bind].
    apply settle_clean, S.
  - intros b s1 E. unfold step in *.
    destruct (mounted s) eqn:Hm.
    + destruct (setIsVisible_spec _ _ _ _ _ I S Hm E) as (V1 & M1 & _).
      cbn [resolveAction] in V1. split; [exact V1|].
      unfold setIsVisible, bailsOut. cbn [resolveAction].
      rewrite M1, V1, Bool.eqb_reflx. reflexivity.
    + unfold setIsVisible in E. rewrite Hm in E. injection E as <-.
      split; [reflexivity|].
      unfold setIsVisible. rewrite Hm. reflexivity.
Qed.

(** C2: once the instance has been removed from the tree, nothing that
    happens afterwards (timers expiring, paint opportunities, calls of the
    setter) adds an entry to the log, whose entries are exactly the
    lifecycle callbacks and the style writes; the ref stays empty. *)
Theorem teardown_silences_instance (s : Hook) (es : list Event) :
  reachable options host s ->
  exists s', run options host (Unmount :: es) s = Ok s' /\
             log s' = log s /\ elementRef s' = None.
Proof.
  intros R. destruct (reachable_inv _ _ _ R) as [I S]. simpl.
  destruct (unmount_torndown _ _ _ I S) as [T L].
  destruct (torndown_run options host es _ T) as (s' & E & (_ & _ & He) & L').
  exists s'. split_and!; auto. congruence.
Qed.

(** C3, within the range of the host's timers: in every reachable state
    the element is present while an enter or an exit is in flight; and a
    step takes presence from true to false only if it is the passage of
    time, the instance is live, and an exit timer that was started with
    the configured duration has expired by then: after the duration
    itself when that lies between 0 and 2147483647, and in general after
    the delay that [setTimeout] derives from it. *)
Theorem presence_invariant (s : Hook) :
  reachable options host s ->
  (entering s || exiting s = true -> presence s = true) /\
  (forall e s', step options host e s = Ok s' ->
     presence s = true -> presence s' = false ->
     isMountedRef s = true /\
     exists ms t, e = Elapse ms /\ t ∈ timers s /\ callback t = ExitTimer /\
       delay t = default 300 (duration options) /\
       created t + timeoutDelay (default 300 (duration options)) <= now s' /\
       (0 <= default 300 (duration options) <= 2147483647 ->
        created t + default 300 (duration options) <= now s')).
Proof.
  intros R. destruct (reachable_inv _ _ _ R) as [I S]. unfold presence.
  split.
  - intros H. apply orb_true_iff in H as [H|H].
    + unfold entering in H. apply andb_true_iff in H as [Hv _].
      apply (settled_visible_present _ _ _ I S Hv).
    + unfold exiting in H. apply existsb_exists in H as (t & Ht & Hexit).
      apply list_elem_of_In in Ht. unfold isExit in Hexit.
      destruct (callback t) eqn:Hcb; [|discriminate].
      apply (settled_exit_pending _ _ _ _ I S Ht Hcb).
  - intros e s' E Hp Hp'.
    destruct e as [a| | |ms|]; simpl in E.
    + exfalso. unfold setIsVisible, bailsOut in E.
      destruct (mounted s) eqn:Hm; [|injection E as <-; congruence].
      destruct (Bool.eqb _ _); [injection E as <-; congruence|].
      apply settle_max in E; [|apply Inv_set_isVisible, I|exact Hm].
      destruct E as (_ & _ & _ & _ & _ & [P|[_ P]] & _); simpl in P; congruence.
    + exfalso.
      destruct (mounted s) eqn:Hm; [|injection E as <-; congruence].
      destruct (commit options host s) as [s1|] eqn:C; simpl in E;
        [|discriminate].
      destruct (commit_spec _ _ _ _ I Hm C) as (I1 & V1 & M1 & _ & _ & P1 & _).
      apply settle_max in E; [|exact I1|exact M1].
      destruct E as (_ & _ & _ & _ & _ & P & _).
      destruct P1 as [P1|[_ P1]], P as [P|[_ P]]; congruence.
    + exfalso. apply runFrames_presence in E as [E _]. simpl in E. congruence.
    + destruct (fireDue_spec options host (length (timers s))
                  (now s + Z.max 0 ms) s I S)
        as (s'' & F & I' & S' & M' & V' & F' & W' & T' & D' & L' & Hcase);
        [lia|].
      rewrite F in E. injection E as ->.
      destruct Hcase as [(Hsame & _)|(t & Ht & Hexit & Hd & Hlive & _)];
        [congruence|].
      split; [exact Hlive|]. exists ms, t.
      destruct (inv_delay _ _ _ I t Ht) as [Hdelay _].
      unfold durationOf in Hdelay.
      assert (created t + timeoutDelay (default 300 (duration options))
              <= Z.max (now s) (now s + Z.max 0 ms)) as Hfired.
      { unfold due in Hd. rewrite Hdelay in Hd. lia. }
      split_and!; auto; try lia.
      intros Hrange. rewrite timeoutDelay_small in Hfired by exact Hrange.
      lia.
    + exfalso. injection E as <-.
      assert (shouldRender (unmount host s) = shouldRender s); [|congruence].
      unfold unmount, runCleanup.
      destruct (mounted s), (attachesRef host); simpl;
        try destruct (cleanup s); reflexivity.
Qed.





(** C6: writing a style through an empty ref is the identity; and when the
    caller never attaches the ref, the ref is empty in every reachable
    state, mounting and every sequence of events complete, no style write
    is ever logged, no step throws (whatever the [effect] option holds), and
    presence still follows the intent: shown at once, hidden after the
    duration. *)
Theorem unbound_degrades_to_show_hide (s : Hook) :
  attachesRef host = false -> reachable options host s ->
  (forall s0 styles value, elementRef s0 = None ->
     applyStyle styles s0 = s0 /\ setTransition value s0 = s0) /\
  (forall initialValue es, exists s',
     (s0 <- useTransitionState options host initialValue ;;
      run options host es s0) = Ok s') /\
  elementRef s = None /\
  styleMutations (log s) = [] /\
  (forall e, exists s', step options host e s = Ok s') /\
  (mounted s = true ->
   forall a ms,
     resolveAction a (isVisible s) = negb (isVisible s) ->
     timeoutDelay (durationOf options) <= ms ->
     exists s1 s2,
       step options host (SetIsVisible a) s = Ok s1 /\
       step options host (Elapse ms) s1 = Ok s2 /\
       presence s1 = true /\ presence s2 = negb (isVisible s)).
Proof.
  intros Hdet R. destruct (reachable_inv _ _ _ R) as [I S].
  assert (bound s = false) as Hb.
  { rewrite (inv_ref _ _ _ I), Hdet. reflexivity. }
  assert (elementRef s = None) as Hel.
  { unfold bound in Hb. destruct (elementRef s); [discriminate|reflexivity]. }
  split_and!.
  - intros s0 styles value H0. unfold applyStyle, setTransition.
    rewrite H0. auto.
  - intros initialValue es. apply run_unbound. exact Hdet.
  - exact Hel.
  - apply (reachable_unbound options host s Hdet R).
  - intros e. destruct (step_unbound options host e s Hdet I S) as (s' & E & _).
    eauto.
  - intros Hm a ms Ha Hms. unfold presence.
    destruct (isVisible s) eqn:Hv; simpl in Ha.
    + (* hide *)
      assert (bound s = true ->
              getFrom (getEffectConfig (effectOf options)) = Ok None) as Hfrom
        by (intros Hb'; congruence).
      destruct (exit_step options host a s None I S Hm Hv Ha Hfrom)
        as (s1 & E & L & F & T & V1 & R1 & M1 & W1 & B1).
      destruct (step_inv _ _ _ _ _ I S E) as [I1 S1].
      set (tm := {| timerId := nextTimer s; created := now s;
                    delay := durationOf options; callback := ExitTimer |}) in *.
      destruct (exit_completes options host s1 tm ms I1 S1)
        as (s2 & E2 & _ & _ & R2 & _).
      { rewrite T. apply elem_of_app. right. apply list_elem_of_singleton.
        reflexivity. }
      { reflexivity. }
      { unfold due. simpl.
        pose proof (timeoutDelay_nonneg (durationOf options)). lia. }
      { unfold due. simpl. lia. }
      exists s1, s2. auto.
    + (* show *)
      destruct (step_unbound options host (SetIsVisible a) s Hdet I S)
        as (s1 & E & _).
      destruct (step_inv _ _ _ _ _ I S E) as [I1 S1].
      simpl in E.
      destruct (setIsVisible_spec _ _ _ _ _ I S Hm E) as (V1 & M1 & W1).
      rewrite Hv, Ha in V1.
      destruct (settled_visible_present _ _ _ I1 S1 V1) as [R1 _].
      destruct (fireDue_spec options host (length (timers s1))
                  (now s1 + Z.max 0 ms) s1 I1 S1)
        as (s2 & E2 & _ & _ & _ & _ & _ & _ & _ & _ & _ & Hcase); [lia|].
      exists s1, s2. split_and!; auto. simpl.
      destruct Hcase as [(Hsame & _)|(t & Ht & Hexit & _)]; [congruence|].
      destruct (settled_exit_pending _ _ _ _ I1 S1 Ht Hexit) as (Hv1 & _).
      congruence.
Qed.

End Lifecycle.

(** * What holds of every run *)

Section EveryRun.

Variable options : TransitionOptions.
Variable host : Host.

Local Arguments settle : simpl never.
Local Arguments fireDue : simpl never.
Local Arguments maximumUpdateDepth : simpl never.
Local Arguments insert : simpl never.
Local Arguments union : simpl never.
Local Arguments empty : simpl never.

(** Induction along the events that lead to a reachable state. *)
Lemma reachable_induction (P : Hook -> Prop) :
  (forall initialValue s0,
     useTransitionState options host initialValue = Ok s0 -> P s0) ->
  (forall e s s', reachable options host s -> P s ->
     step options host e s = Ok s' -> P s') ->
  forall s, reachable options host s -> P s.
Proof.
  intros Hinit Hstep s (initialValue & es & H).
  destruct (useTransitionState options host initialValue) as [s0|] eqn:U;
    simpl in H; [|discriminate].
  assert (reachable options host s0) as R0.
  { exists initialValue, []. rewrite U. reflexivity. }
  pose proof (Hinit _ _ U) as P0. clear U.
  revert s0 R0 P0 H.
  induction es as [|e rest IH]; intros s0 R0 P0; simpl.
  - intros [= <-]. exact P0.
  - destruct (step options host e s0) as [s1|] eqn:E; simpl; [|discriminate].
    apply IH.
    + eapply reachable_step; eauto.
    + eapply Hstep; eauto.
Qed.

(** ** No step throws unless the configuration is [null] *)

Lemma commit_total s styles :
  getFrom (getEffectConfig (effectOf options)) = Ok styles ->
  exists s', commit options host s = Ok s'.
Proof.
  intros Hfrom. unfold commit.
  set (s1 := reconcileRef host (shouldRender s) s).
  assert (exists s2,
            (if sameDeps (rendered s) (isVisible s) (shouldRender s)
             then Ok s1
             else layoutEffect options (isVisible s) (shouldRender s) s1)
            = Ok s2) as [s2 ->].
  { destruct (sameDeps _ _ _); [eauto|]. unfold layoutEffect.
    destruct (_ && _ && _); [|eauto]. rewrite Hfrom. simpl. eauto. }
  simpl.
  set (s3 := match rendered s with
             | Some _ => s2
             | None => set_isMountedRef true s2
             end).
  destruct (sameVisible _ _ && negb _); simpl; [eauto|].
  assert (exists s4,
            visibilityEffect options (isVisible s) (shouldRender s)
              (runCleanup s3) = Ok s4) as [s4 ->]; [|simpl; eauto].
  unfold visibilityEffect.
  destruct (isVisible s); [eauto|].
  destruct (negb (shouldRender s)); [eauto|].
  destruct (bound _); simpl; [rewrite Hfrom; simpl|]; eauto.
Qed.

Lemma settle_total s styles :
  getFrom (getEffectConfig (effectOf options)) = Ok styles ->
  Inv options host s -> mounted s = true ->
  exists s', settle options host maximumUpdateDepth s = Ok s'.
Proof.
  intros Hfrom I Hm. unfold maximumUpdateDepth. rewrite settle_unfold.
  destruct (dirty s) eqn:D1; [|eauto].
  destruct (commit_total s styles Hfrom) as [s1 C1]. rewrite C1. simpl.
  destruct (commit_spec _ _ _ _ I Hm C1) as (I1 & V1 & M1 & W1 & R1 & P1 & T1).
  rewrite settle_unfold.
  destruct (dirty s1) eqn:D2; [|eauto].
  destruct (commit_total s1 styles Hfrom) as [s2 C2]. rewrite C2. simpl.
  destruct (commit_spec _ _ _ _ I1 M1 C2) as (I2 & V2 & M2 & W2 & R2 & P2 & T2).
  assert (isVisible s = true /\ shouldRender s1 = true) as [Hv Hr].
  { destruct P1 as [P1|P1]; [|exact P1].
    exfalso. assert (dirty s1 = false); [|congruence].
    apply dirty_false. congruence. }
  assert (shouldRender s2 = true) as Hr2.
  { destruct P2 as [P2|[_ P2]]; congruence. }
  assert (dirty s2 = false) as D3.
  { apply dirty_false. congruence. }
  rewrite (settle_clean _ _ _ _ D3). eauto.
Qed.

Lemma step_total e s :
  effectOf options <> VNull \/ attachesRef host = false ->
  reachable options host s ->
  exists s', step options host e s = Ok s'.
Proof.
  intros [Hnull|Hdet] R; destruct (reachable_inv _ _ _ R) as [I S].
  2:{ destruct (step_unbound options host e s Hdet I S) as (s' & E & _).
      eauto. }
  destruct (getEffectConfig_readable _ Hnull) as (fs & ts & Hfrom & Hto).
  destruct e as [a| | |ms|]; simpl.
  - unfold setIsVisible, bailsOut. destruct (mounted s) eqn:Hm; [|eauto].
    destruct (Bool.eqb _ _); [eauto|].
    apply (settle_total _ fs Hfrom); [|exact Hm].
    apply Inv_set_isVisible, I.
  - destruct (mounted s) eqn:Hm; [|eauto].
    destruct (commit_total s fs Hfrom) as [s1 C]. rewrite C. simpl.
    destruct (commit_spec _ _ _ _ I Hm C) as (I1 & _ & M1 & _).
    apply (settle_total _ fs Hfrom I1 M1).
  - destruct (runFrames_stale options host _ ts (frames s) (set_frames [] s)
                Hto) as (s' & queued & E & _).
    + intros cb Hcb. apply (reachable_frames options host s cb R Hcb).
    + eapply Inv_quiet; [|exact I]. repeat split.
    + exact S.
    + eauto.
  - destruct (fireDue_spec options host (length (timers s))
                (now s + Z.max 0 ms) s I S) as (s' & E & _); [lia|].
    eauto.
  - eauto.
Qed.

(** X2: the hook's own code throws nowhere except by reading [from] or [to] of
    a [null] configuration, and rendering always settles: unless [effect]
    is [null] and the node is bound, mounting and every sequence of events
    complete. *)
Theorem hook_never_throws (initialValue : option bool) (es : list Event) :
  effectOf options <> VNull \/ attachesRef host = false ->
  exists s,
    (s0 <- useTransitionState options host initialValue ;;
     run options host es s0) = Ok s.
Proof.
  intros Hok.
  assert (exists s0, useTransitionState options host initialValue = Ok s0)
    as [s0 U].
  { destruct Hok as [Hnull|Hdet].
    - destruct (getEffectConfig_readable _ Hnull) as (fs & ts & Hfrom & Hto).
      apply (settle_total _ fs Hfrom); [apply Inv_firstRender|reflexivity].
    - destruct (run_unbound options host initialValue [] Hdet) as [s0 H].
      destruct (useTransitionState options host initialValue) as [s1|];
        simpl in H; [eauto|discriminate]. }
  rewrite U. simpl.
  assert (reachable options host s0) as R0.
  { exists initialValue, []. rewrite U. reflexivity. }
  clear U. revert s0 R0.
  induction es as [|e rest IH]; intros s0 R0; simpl; [eauto|].
  destruct (step_total e s0 Hok R0) as [s1 E]. rewrite E. simpl.
  apply IH. eapply reachable_step; eauto.
Qed.

(** ** What a render and a paint opportunity leave alone *)

Lemma rerender_control s s' :
  Inv options host s -> mounted s = true ->
  (s1 <- commit options host s ;; settle options host maximumUpdateDepth s1)
    = Ok s' ->
  isVisible s' = isVisible s /\
  (shouldRender s' = shouldRender s \/
   (isVisible s = true /\ shouldRender s' = true)).
Proof.
  intros I Hm.
  destruct (commit options host s) as [s1|] eqn:C; simpl; [|discriminate].
  destruct (commit_spec _ _ _ _ I Hm C) as (I1 & V1 & M1 & _ & _ & P1 & _).
  intros E. apply settle_max in E; auto.
  destruct E as (_ & _ & _ & V & _ & P & _).
  split; [congruence|].
  destruct P as [P|[Hv P]]; [|right; split; congruence].
  destruct P1 as [P1|[Hv P1]]; [left|right; split]; congruence.
Qed.

Lemma runFrame_control cb s s' :
  runFrame options cb s = Ok s' ->
  isVisible s' = isVisible s /\ shouldRender s' = shouldRender s /\
  mounted s' = mounted s /\ rendered s' = rendered s /\
  cleanup s' = cleanup s /\ now s' = now s /\
  (forall t, t ∈ timers s -> t ∈ timers s') /\
  (forall t, t ∈ timers s' -> t ∈ timers s \/ callback t = EnteredTimer) /\
  (forall c, invocations c (log s') = invocations c (log s)).
Proof.
  destruct cb as [config|config]; simpl.
  - intros [= <-]. simpl. split_and!; auto.
  - destruct s as [v r el im m rd cl ts fs n w l].
    unfold bound, setTransition, applyStyle. simpl.
    destruct el as [style|]; simpl.
    + destruct (getTo config) as [[bag|]|]; simpl; [| |discriminate];
        intros [= <-]; simpl; split_and!; auto;
        try (intros t Ht; apply elem_of_app; left; exact Ht);
        try (intros t Ht; apply elem_of_app in Ht as [Ht|Ht]; [left; exact Ht|];
             apply list_elem_of_singleton in Ht; subst t; right; reflexivity);
        intros c; rewrite ?invocations_app; simpl; rewrite ?app_nil_r;
        reflexivity.
    + intros [= <-]. split_and!; auto.
Qed.

Lemma runFrames_control queue s s' :
  runFrames options queue s = Ok s' ->
  isVisible s' = isVisible s /\ shouldRender s' = shouldRender s /\
  mounted s' = mounted s /\ rendered s' = rendered s /\
  cleanup s' = cleanup s /\ now s' = now s /\
  (forall t, t ∈ timers s -> t ∈ timers s') /\
  (forall t, t ∈ timers s' -> t ∈ timers s \/ callback t = EnteredTimer) /\
  (forall c, invocations c (log s') = invocations c (log s)).
Proof.
  revert s. induction queue as [|cb rest IH]; intros s; simpl.
  - intros [= <-]. split_and!; auto.
  - destruct (runFrame options cb s) as [s1|] eqn:F; simpl; [|discriminate].
    intros E.
    destruct (runFrame_control _ _ _ F)
      as (V1 & R1 & M1 & D1 & C1 & W1 & T1 & U1 & L1).
    destruct (IH _ E) as (V2 & R2 & M2 & D2 & C2 & W2 & T2 & U2 & L2).
    split_and!; try congruence; auto.
    intros t Ht. destruct (U2 t Ht) as [H|H]; auto.
Qed.

(** ** [effect: null] with a bound node *)

Lemma null_stays_hidden s :
  attachesRef host = true -> effectOf options = VNull ->
  reachable options host s ->
  isVisible s = false /\ shouldRender s = false.
Proof.
  intros Hattach Hnull. revert s. apply reachable_induction.
  - intros [[|]|] s0 U.
    + rewrite (mount_null_throws options host Hattach Hnull) in U.
      discriminate.
    + unfold useTransitionState in U.
      apply settle_max in U; [|apply Inv_firstRender|reflexivity].
      destruct U as (_ & _ & _ & V & _ & [P|[P _]] & _); simpl in *;
        [auto|discriminate].
    + unfold useTransitionState in U.
      apply settle_max in U; [|apply Inv_firstRender|reflexivity].
      destruct U as (_ & _ & _ & V & _ & [P|[P _]] & _); simpl in *;
        [auto|discriminate].
  - intros e s s' R [Hv Hr] E.
    destruct (reachable_inv _ _ _ R) as [I S].
    destruct e as [a| | |ms|]; simpl in E.
    + destruct (mounted s) eqn:Hm.
      2:{ unfold setIsVisible, bailsOut in E. rewrite Hm in E. injection E as <-. auto. }
      destruct (resolveAction a false) eqn:Ha.
      * pose proof (show_null_throws options host a s I S Hm Hv Hr Ha
                      Hattach Hnull) as T.
        simpl in T. rewrite T in E. discriminate.
      * unfold setIsVisible, bailsOut in E. rewrite Hm, Hv, Ha in E. simpl in E.
        injection E as <-. auto.
    + destruct (mounted s) eqn:Hm; [|injection E as <-; auto].
      apply rerender_control in E; auto.
      destruct E as (V & [P|[P _]]); split; congruence.
    + apply runFrames_control in E. simpl in E.
      destruct E as (V & P & _). split; congruence.
    + destruct (fireDue_spec options host (length (timers s))
                  (now s + Z.max 0 ms) s I S)
        as (s'' & E' & _ & _ & _ & V & _ & _ & _ & _ & _ & Hcase); [lia|].
      rewrite E' in E. injection E as <-. split; [congruence|].
      destruct Hcase as [(P & _)|(_ & _ & _ & _ & _ & _ & P & _)]; congruence.
    + injection E as <-. unfold unmount.
      destruct (mounted s); [|auto].
      destruct (attachesRef host); unfold runCleanup; simpl;
        destruct (cleanup s); simpl; auto.
Qed.

(** X3: [effect: null] passes the type test of the resolver and becomes the
    configuration.  With the node bound, an instance created visible
    throws a [TypeError] in its first commit, and on an instance created
    hidden every call of the setter that asks to show it throws: the
    element is never shown. *)
Theorem null_effect_throws_on_show :
  attachesRef host = true -> effectOf options = VNull ->
  useTransitionState options host (Some true) = Throw TypeError /\
  forall s a,
    reachable options host s -> mounted s = true ->
    resolveAction a (isVisible s) = true ->
    presence s = false /\
    step options host (SetIsVisible a) s = Throw TypeError.
Proof.
  intros Hattach Hnull. split.
  - apply mount_null_throws; assumption.
  - intros s a R Hm Ha.
    destruct (null_stays_hidden s Hattach Hnull R) as [Hv Hr].
    destruct (reachable_inv _ _ _ R) as [I S].
    rewrite Hv in Ha. split; [exact Hr|].
    apply show_null_throws; assumption.
Qed.

(** ** The exit timer of an instance that is still present *)

Lemma ExitPending_same s s' :
  rendered s' = rendered s -> shouldRender s' = shouldRender s ->
  mounted s' = mounted s -> cleanup s' = cleanup s ->
  (forall t, t ∈ timers s -> callback t = ExitTimer -> t ∈ timers s') ->
  ExitPending s -> ExitPending s'.
Proof.
  intros Hd Hr Hm Hc Ht [J K]. constructor.
  - rewrite Hd, Hr, Hm, Hc. intros A B C.
    destruct (J A B C) as (t & Hin & Hcb & Hcl). exists t. auto.
  - rewrite Hd, Hr. exact K.
Qed.

Lemma ExitPending_settled s :
  Inv options host s -> settled s ->
  (isVisible s = false -> shouldRender s = true -> mounted s = true ->
   exists t, t ∈ timers s /\ callback t = ExitTimer) ->
  ExitPending s.
Proof.
  intros I S H. apply dirty_false in S. constructor.
  - intros Hrd Hr Hm. rewrite Hrd in S. injection S as Hv _.
    destruct (H (eq_sym Hv) Hr Hm) as (t & Ht & Hcb).
    exists t. split_and!; auto.
    apply (inv_exit _ _ _ I t Ht Hcb).
  - intros Hrd. rewrite Hrd in S. injection S as _ Hr. congruence.
Qed.

Lemma ExitPending_exit s :
  settled s -> ExitPending s ->
  isVisible s = false -> shouldRender s = true -> mounted s = true ->
  exists t, t ∈ timers s /\ callback t = ExitTimer /\
            cleanup s = Some (timerId t).
Proof.
  intros S P Hv Hr Hm. apply dirty_false in S.
  apply (exit_armed _ P); congruence.
Qed.

Lemma commit_pending s s' :
  Inv options host s -> mounted s = true -> ExitPending s ->
  commit options host s = Ok s' -> ExitPending s'.
Proof.
  intros I Hm P. unfold commit.
  destruct (reconcileRef_control host (shouldRender s) s)
    as (Rv & Rr & Ri & Rm & Rd & Rc & Rt & Rn & Rw & Rb).
  set (s1 := reconcileRef host (shouldRender s) s) in *.
  destruct (if sameDeps _ _ _ then _ else _) as [s2|] eqn:Hlayout; simpl;
    [|discriminate].
  assert (quiet s1 s2) as (Lv & Lr & Li & Lm & Ld & Lc & Lt & Ln & Lw & Lb).
  { destruct (sameDeps _ _ _).
    - injection Hlayout as <-. apply quiet_refl.
    - eapply layoutEffect_quiet, Hlayout. }
  clear Hlayout.
  set (s3 := match rendered s with
             | Some _ => s2
             | None => set_isMountedRef true s2
             end).
  assert (isVisible s3 = isVisible s /\ shouldRender s3 = shouldRender s /\
          mounted s3 = true /\
          rendered s3 = rendered s /\ cleanup s3 = cleanup s /\
          timers s3 = timers s /\ nextTimer s3 = nextTimer s)
    as (Mv & Mr & Mm & Md & Mc & Mt & Mn).
  { subst s3. destruct (rendered s); simpl; split_and!; congruence. }
  clearbody s3. clear Lv Lr Li Lm Ld Lc Lt Ln Lw Lb Rv Rr Ri Rm Rd Rc Rt Rn Rw Rb.
  clearbody s1. clear s1 s2.
  destruct (sameVisible (rendered s) (isVisible s) && negb _) eqn:Hran.
  - (* the visibility effect is skipped *)
    intros [= <-].
    apply andb_true_iff in Hran as [Hsame _].
    unfold sameVisible in Hsame.
    destruct (rendered s) as [[v0 r0]|] eqn:Hrd; [|discriminate].
    apply Bool.eqb_prop in Hsame. subst v0.
    constructor; simpl.
    + intros [= Hv Hr] _ _. rewrite Mt, Mc. rewrite Hv in Hrd.
      destruct r0.
      * apply (exit_armed _ P); congruence.
      * pose proof (hidden_absent _ P Hrd). congruence.
    + intros [= Hv Hr]. congruence.
  - (* the visibility effect runs, after its cleanup *)
    destruct (visibilityEffect _ _ _ _) as [s4|] eqn:Heff; simpl;
      [|discriminate].
    intros [= <-].
    destruct (runCleanup_control s3)
      as (Cv & Cr & Ci & Cm & Cd & Cc & Ct & Cn & Cw & Cb).
    apply visibilityEffect_control in Heff; [|congruence].
    destruct Heff as (Ev & Ei & Em & Ed & Ew & Eb & Ecases).
    constructor; simpl.
    + intros [= Hv Hr] _ _.
      destruct Ecases as [(Hv' & _)|[(_ & Hr' & _)|(_ & _ & Esr & Ec & Et & En)]];
        [congruence..|].
      exists {| timerId := nextTimer (runCleanup s3);
                created := now (runCleanup s3);
                delay := durationOf options; callback := ExitTimer |}.
      rewrite Et, Ec. split_and!; [|reflexivity|reflexivity].
      apply elem_of_app. right. apply list_elem_of_singleton. reflexivity.
    + intros [= Hv Hr].
      destruct Ecases as [(Hv' & _)|[(_ & _ & Esr & _)|(_ & Hr' & _)]];
        congruence.
Qed.

Lemma settle_pending fuel s s' :
  Inv options host s -> mounted s = true -> ExitPending s ->
  settle options host fuel s = Ok s' -> ExitPending s'.
Proof.
  revert s. induction fuel as [|fuel IH]; intros s I Hm P;
    rewrite settle_unfold.
  - destruct (dirty s); [discriminate|]. intros [= <-]. exact P.
  - destruct (dirty s); [|intros [= <-]; exact P].
    destruct (commit options host s) as [s1|] eqn:C; simpl; [|discriminate].
    destruct (commit_spec _ _ _ _ I Hm C) as (I1 & _ & M1 & _).
    apply (IH s1 I1 M1). apply (commit_pending s s1 I Hm P C).
Qed.

Lemma fire_pending s t w s' :
  Inv options host s -> settled s -> ExitPending s ->
  t ∈ timers s -> now s <= w ->
  runTimer options host (callback t)
    (set_now w (clearTimeout (timerId t) s)) = Ok s' ->
  ExitPending s'.
Proof.
  intros I S P Ht Hw E.
  destruct (fire_spec options host s t w I S Ht Hw)
    as (s1 & R & I1 & S1 & W1 & M1 & V1 & F1 & T1 & Hcase).
  rewrite R in E. injection E as <-.
  apply ExitPending_settled; auto.
  intros Hv Hr Hm.
  destruct Hcase as [(Hcb & Hr1 & _ & Ht1 & _)|(_ & _ & _ & Hr1 & _)];
    [|congruence].
  destruct (ExitPending_exit s S P) as (u & Hu & Hexit & _); try congruence.
  exists u. split; [|exact Hexit].
  rewrite Ht1. apply list_elem_of_filter. split; [|exact Hu].
  intros Heq.
  assert (u = t) by (eapply timerId_inj; eauto; apply I).
  congruence.
Qed.

Lemma fireDue_pending fuel target s s' :
  Inv options host s -> settled s -> ExitPending s ->
  fireDue options host fuel target s = Ok s' -> ExitPending s'.
Proof.
  revert s. induction fuel as [|fuel IH]; intros s I S P;
    rewrite fireDue_unfold;
    destruct (nextDue target (timers s)) as [u|] eqn:Hnext;
    try (intros [= <-]; first [exact P | revert P; apply ExitPending_same; auto]).
  apply nextDue_Some in Hnext as (Hu & Hdue & Hmin).
  cbv zeta.
  change (now (clearTimeout (timerId u) s)) with (now s).
  set (w := Z.max (now s) (due u)).
  destruct (fire_spec options host s u w I S Hu)
    as (s1 & R & I1 & S1 & _); [lia|].
  rewrite R. simpl. apply IH; auto.
  apply (fire_pending s u w); auto. lia.
Qed.

Lemma step_pending e s s' :
  Inv options host s -> settled s -> ExitPending s ->
  step options host e s = Ok s' -> ExitPending s'.
Proof.
  intros I S P. destruct e as [a| | |ms|]; simpl.
  - unfold setIsVisible, bailsOut. destruct (mounted s) eqn:Hm; [|intros [= <-]; auto].
    destruct (Bool.eqb _ _); [intros [= <-]; auto|].
    apply settle_pending; auto.
    + apply Inv_set_isVisible, I.
    + revert P. apply ExitPending_same; auto.
  - destruct (mounted s) eqn:Hm; [|intros [= <-]; auto].
    destruct (commit options host s) as [s1|] eqn:C; simpl; [|discriminate].
    destruct (commit_spec _ _ _ _ I Hm C) as (I1 & _ & M1 & _).
    apply (settle_pending _ s1 s' I1 M1).
    apply (commit_pending s s1 I Hm P C).
  - intros E. apply runFrames_control in E.
    destruct E as (_ & R & M & D & C & _ & T & _).
    revert P. apply ExitPending_same; auto.
  - apply fireDue_pending; auto.
  - intros [= <-]. constructor.
    + intros _ _ Hm. unfold unmount in Hm.
      destruct (mounted s) eqn:Hms; simpl in Hm; congruence.
    + unfold unmount. destruct (mounted s); [|apply P].
      destruct (attachesRef host); unfold runCleanup; simpl;
        destruct (cleanup s); simpl; apply P.
Qed.

Lemma reachable_pending s : reachable options host s -> ExitPending s.
Proof.
  revert s. apply reachable_induction.
  - intros initialValue s0 U. unfold useTransitionState in U.
    eapply settle_pending; [| | |exact U].
    + apply Inv_firstRender.
    + reflexivity.
    + constructor; simpl; discriminate.
  - intros e s s' R P E.
    destruct (reachable_inv _ _ _ R) as [I S].
    eapply step_pending; eauto.
Qed.

(** ** The intent and the element *)

Lemma isExit_true t : isExit t = true <-> callback t = ExitTimer.
Proof. unfold isExit. destruct (callback t); split; congruence. Qed.

Lemma filter_isExit_nil (ts : list Timer) :
  (forall t, t ∈ ts -> callback t <> ExitTimer) -> List.filter isExit ts = [].
Proof.
  induction ts as [|t rest IH]; intros H; simpl; [reflexivity|].
  destruct (isExit t) eqn:Ht.
  - apply isExit_true in Ht. destruct (H t); [left|exact Ht].
  - apply IH. intros u Hu. apply H. right. exact Hu.
Qed.

Lemma filter_isExit_le (ts : list Timer) (id : nat) :
  NoDup (timerId <$> ts) ->
  (forall t, t ∈ ts -> callback t = ExitTimer -> timerId t = id) ->
  (length (List.filter isExit ts) <= 1)%nat.
Proof.
  induction ts as [|t rest IH]; intros Hnd Hid; simpl; [lia|].
  rewrite fmap_cons in Hnd. apply NoDup_cons in Hnd as [Hnotin Hnd].
  destruct (isExit t) eqn:Ht.
  - rewrite filter_isExit_nil; [simpl; lia|].
    intros u Hu Hexit. apply Hnotin.
    apply isExit_true in Ht.
    assert (timerId t = id) as Et by (apply Hid; [left|exact Ht]).
    assert (timerId u = id) as Eu by (apply Hid; [right; exact Hu|exact Hexit]).
    apply list_elem_of_fmap. exists u. split; [congruence|exact Hu].
  - apply IH; [exact Hnd|].
    intros u Hu. apply Hid. right. exact Hu.
Qed.

Lemma filter_isExit_pos (ts : list Timer) t :
  t ∈ ts -> callback t = ExitTimer ->
  (1 <= length (List.filter isExit ts))%nat.
Proof.
  intros Hin Hexit.
  assert (In t (List.filter isExit ts)) as H.
  { apply filter_In. split; [apply list_elem_of_In; exact Hin|].
    apply isExit_true, Hexit. }
  destruct (List.filter isExit ts); [destruct H|simpl; lia].
Qed.

(** X4: the effect's cleanup, line 119, clears the exit timer before the
    effect runs again or the instance goes away: a live instance has
    exactly one exit timer pending while the intent is to hide and the
    element is still present, and none otherwise; and a pending exit timer
    is always the one the cleanup holds. *)
Theorem exit_timer_count (s : Hook) :
  reachable options host s ->
  length (List.filter isExit (timers s)) =
    (if mounted s && negb (isVisible s) && presence s then 1 else 0)%nat /\
  (forall t, t ∈ timers s -> callback t = ExitTimer ->
     cleanup s = Some (timerId t)).
Proof.
  intros R. destruct (reachable_inv _ _ _ R) as [I S].
  pose proof (reachable_pending s R) as P.
  assert (forall t, t ∈ timers s -> callback t = ExitTimer ->
            cleanup s = Some (timerId t)) as Hc.
  { intros t Ht Hexit. apply (inv_exit _ _ _ I t Ht Hexit). }
  split; [|exact Hc]. unfold presence.
  destruct (mounted s && negb (isVisible s) && shouldRender s) eqn:Hcond.
  - apply andb_true_iff in Hcond as [Hcond Hr].
    apply andb_true_iff in Hcond as [Hm Hv].
    apply negb_true_iff in Hv.
    destruct (ExitPending_exit s S P Hv Hr Hm) as (t & Ht & Hexit & Hcl).
    pose proof (filter_isExit_pos _ t Ht Hexit) as Hpos.
    pose proof (filter_isExit_le (timers s) (timerId t)
                  (inv_nodup _ _ _ I)) as Hle.
    assert (length (List.filter isExit (timers s)) <= 1)%nat; [|lia].
    apply Hle. intros u Hu Hexit'.
    pose proof (Hc u Hu Hexit'). congruence.
  - rewrite filter_isExit_nil; [reflexivity|].
    intros t Ht Hexit.
    destruct (settled_exit_pending _ _ _ _ I S Ht Hexit) as (Hv & Hr & Hm & _).
    rewrite Hv, Hr, Hm in Hcond. discriminate.
Qed.

(** X5: while the intent is to show, no exit timer is pending (the one of an
    interrupted exit has been cleared by the effect's cleanup), so
    however much time passes the element stays and [onExited] is not
    invoked. *)
Theorem intent_true_keeps_element (s : Hook) (ms : Z) :
  reachable options host s -> isVisible s = true ->
  presence s = true /\ exiting s = false /\
  exists s',
    step options host (Elapse ms) s = Ok s' /\
    presence s' = true /\ isVisible s' = true /\
    invocations OnExited (log s') = invocations OnExited (log s).
Proof.
  intros R Hv. destruct (reachable_inv _ _ _ R) as [I S]. unfold presence.
  destruct (settled_visible_present _ _ _ I S Hv) as [Hr _].
  assert (forall t, t ∈ timers s -> callback t <> ExitTimer) as Hnone.
  { intros t Ht Hexit.
    destruct (settled_exit_pending _ _ _ _ I S Ht Hexit) as (Hv' & _).
    congruence. }
  split; [exact Hr|]. split.
  { unfold exiting. destruct (existsb isExit (timers s)) eqn:Hex;
      [|reflexivity].
    apply existsb_exists in Hex as (t & Ht & Hexit).
    apply list_elem_of_In in Ht. apply isExit_true in Hexit.
    destruct (Hnone t Ht Hexit). }
  simpl.
  destruct (fireDue_spec options host (length (timers s))
              (now s + Z.max 0 ms) s I S)
    as (s' & E & _ & _ & _ & V' & _ & _ & _ & _ & _ & Hcase); [lia|].
  exists s'. split; [exact E|].
  destruct Hcase as [(Hsame & _ & Hi & _)|(t & Ht & Hexit & _)].
  - split_and!; congruence.
  - destruct (Hnone t Ht Hexit).
Qed.

(** X6: while the intent is to hide, a live instance always has its exit timer
    running: once the time that [setTimeout] waits for [duration] (the
    duration itself from 0 to 2147483647) has passed without a render,
    the element is gone and the ref is empty, and [onExited] has been
    invoked once if the element was still present. *)
Theorem false_intent_hides_within_duration (s : Hook) (ms : Z) :
  reachable options host s -> mounted s = true -> isVisible s = false ->
  timeoutDelay (durationOf options) <= ms ->
  exists s',
    step options host (Elapse ms) s = Ok s' /\
    presence s' = false /\ elementRef s' = None /\ isVisible s' = false /\
    length (invocations OnExited (log s')) =
      (length (invocations OnExited (log s)) +
       (if presence s && onExited options then 1 else 0))%nat.
Proof.
  intros R Hm Hv Hms. destruct (reachable_inv _ _ _ R) as [I S].
  pose proof (reachable_pending s R) as P. unfold presence. simpl.
  destruct (fireDue_spec options host (length (timers s))
              (now s + Z.max 0 ms) s I S)
    as (s' & E & I' & S' & M' & V' & _ & _ & _ & _ & _ & Hcase); [lia|].
  exists s'. split; [exact E|].
  assert (shouldRender s' = false ->
          elementRef s' = None) as Hel.
  { intros Hr'. pose proof (settled_bound _ _ _ I' S') as Hb.
    rewrite Hr', andb_false_r in Hb. unfold bound in Hb.
    destruct (elementRef s'); [discriminate|reflexivity]. }
  destruct Hcase as [(Hsame & _ & Hi & Hlater)
                    |(t & Ht & Hexit & Hdue & _ & Hr & Hr' & Hi)].
  - destruct (shouldRender s) eqn:Hr.
    + exfalso.
      destruct (ExitPending_exit s S P Hv Hr Hm) as (t & Ht & Hexit & _).
      specialize (Hlater t Ht Hexit).
      destruct (inv_delay _ _ _ I t Ht) as [Hd Hc].
      unfold due in Hlater. rewrite Hd in Hlater. lia.
    + split_and!; auto; try congruence. rewrite Hi. simpl. lia.
  - split_and!; auto; try congruence.
    rewrite Hi, Hr, length_app. simpl.
    destruct (onExited options); reflexivity.
Qed.

(** ** Renders caused by the owner *)

(** X7: the dependency array of the visibility effect, line 120, holds the
    [effect] option.  While that option keeps its identity (a preset name,
    or an object the caller keeps between renders), a render caused by
    the owner runs no effect: the state, its timers, its frame queue and
    its log are unchanged. *)
Theorem rerender_with_stable_effect_is_noop (s : Hook) :
  reachable options host s -> effectIsFresh options host = false ->
  step options host Rerender s = Ok s.
Proof.
  intros R Hfresh. destruct (reachable_inv _ _ _ R) as [I S]. simpl.
  destruct (mounted s) eqn:Hm; [|reflexivity].
  rewrite (commit_stable options host s I S Hm Hfresh). simpl.
  apply settle_clean, S.
Qed.

(** X8: with an [effect] object written inline the dependency array differs on
    every render, so every render of a shown instance runs the visibility
    effect again: [onEnter] is invoked once more, and nothing else
    changes. *)
Theorem rerender_with_inline_effect_reinvokes_onEnter (s : Hook)
    (o : AnimationKeyframes) :
  reachable options host s -> mounted s = true -> isVisible s = true ->
  inlineEffect host = true -> effectOf options = VObject o ->
  exists s',
    step options host Rerender s = Ok s' /\
    log s' = log s ++
      (if onEnter options then [(now s, Invoke OnEnter)] else []) /\
    timers s' = timers s /\ frames s' = frames s /\
    elementRef s' = elementRef s /\ presence s' = true.
Proof.
  intros R Hm Hv Hinline Ho. destruct (reachable_inv _ _ _ R) as [I S].
  assert (effectIsFresh options host = true) as Hfresh.
  { unfold effectIsFresh. rewrite Hinline, Ho. reflexivity. }
  destruct (settled_visible_present _ _ _ I S Hv) as [Hr _].
  exists (invoke (onEnter options) OnEnter s).
  split; [apply rerender_visible_fresh; assumption|].
  unfold presence, invoke, record. destruct (onEnter options); simpl;
    rewrite ?app_nil_r; split_and!; auto.
Qed.


(** X10: showing a hidden instance takes two renders: the visibility effect
    turns presence on, and the render that follows creates the element.
    With a stable [effect] the effect runs in the first of them only and
    [onEnter] is invoked once; with an inline [effect] object it runs in
    both and [onEnter] is invoked twice. *)
Theorem enter_invokes_onEnter_per_effect_run (s : Hook) (a : SetStateAction)
    (styles : option CSSProperties) :
  reachable options host s -> mounted s = true ->
  isVisible s = false -> presence s = false ->
  resolveAction a false = true ->
  (attachesRef host = true ->
   getFrom (getEffectConfig (effectOf options)) = Ok styles) ->
  exists s1,
    step options host (SetIsVisible a) s = Ok s1 /\
    invocations OnEnter (log s1) =
      invocations OnEnter (log s) ++
      (if onEnter options
       then if effectIsFresh options host then [now s; now s] else [now s]
       else []) /\
    invocations OnExit (log s1) = invocations OnExit (log s) /\
    presence s1 = true.
Proof.
  intros R Hm Hv Hr Ha Hfrom. destruct (reachable_inv _ _ _ R) as [I S].
  destruct (enter_invokes options host a s styles I S Hm Hv Hr Ha Hfrom)
    as (s1 & E & L1 & L2 & R1 & V1).
  exists s1. auto.
Qed.

(** ** What the deferred callbacks leave alone *)

Lemma fireDue_log fuel target s :
  Inv options host s -> settled s -> (length (timers s) <= fuel)%nat ->
  exists s' fired,
    fireDue options host fuel target s = Ok s' /\
    log s' = log s ++ fired /\
    Forall (fun entry => snd entry = Invoke OnEntered \/
                         snd entry = Invoke OnExited) fired.
Proof.
  revert s. induction fuel as [|fuel IH]; intros s I S Hlen;
    rewrite fireDue_unfold.
  - destruct (timers s) eqn:Ets; [|simpl in Hlen; lia].
    simpl. eexists. exists []. rewrite app_nil_r. split_and!; auto.
  - destruct (nextDue target (timers s)) as [u|] eqn:Hnext.
    2:{ eexists. exists []. rewrite app_nil_r. split_and!; auto. }
    apply nextDue_Some in Hnext as (Hu & Hdue & Hmin).
    cbv zeta.
    change (now (clearTimeout (timerId u) s)) with (now s).
    set (w := Z.max (now s) (due u)).
    destruct (fire_spec options host s u w I S Hu)
      as (s1 & R & I1 & S1 & W1 & M1 & V1 & F1 & T1 & Hcase); [lia|].
    rewrite R. simpl.
    assert (length (timers s1) <= fuel)%nat as Hlen1.
    { apply sublist_length in T1.
      pose proof (length_filter_lt (fun x => timerId x <> timerId u)
                    (timers s) u Hu) as Hlt.
      assert (~ timerId u <> timerId u) as Hnn
        by (intros Hn; apply Hn; reflexivity).
      specialize (Hlt Hnn). lia. }
    destruct (IH s1 I1 S1 Hlen1) as (s' & fired & R' & L' & Hall).
    exists s'.
    destruct Hcase as [(_ & _ & _ & _ & Hl)|(_ & _ & _ & _ & Hl)];
      rewrite Hl, <- app_assoc in L'; eexists; (split; [exact R'|]);
      (split; [exact L'|]); apply Forall_app; (split; [|exact Hall]).
    + destruct (_ && _); [|constructor].
      constructor; [left; reflexivity|constructor].
    + destruct (onExited options); [|constructor].
      constructor; [right; reflexivity|constructor].
Qed.

(** X11: the two timer callbacks, lines 112-117 and 136-138, only set presence
    and invoke [onExited] or [onEntered]: however much time passes, in any
    reachable state, everything that is logged is an invocation of one of
    these two, no frame callback is queued or dropped, no timer is
    started, and the intent is unchanged. *)
Theorem timers_write_no_style (s : Hook) (ms : Z) :
  reachable options host s ->
  exists s' fired,
    step options host (Elapse ms) s = Ok s' /\
    log s' = log s ++ fired /\
    Forall (fun entry => snd entry = Invoke OnEntered \/
                         snd entry = Invoke OnExited) fired /\
    styleMutations (log s') = styleMutations (log s) /\
    frames s' = frames s /\ isVisible s' = isVisible s /\
    timers s' `sublist_of` timers s.
Proof.
  intros R. destruct (reachable_inv _ _ _ R) as [I S]. simpl.
  destruct (fireDue_log (length (timers s)) (now s + Z.max 0 ms) s I S)
    as (s' & fired & E & L & Hall); [lia|].
  destruct (fireDue_spec options host (length (timers s))
              (now s + Z.max 0 ms) s I S)
    as (s'' & E' & _ & _ & _ & V' & F' & _ & T' & _ & L' & _); [lia|].
  rewrite E in E'. injection E' as <-.
  exists s', fired. split_and!; auto.
Qed.

(** X12: the frame callbacks, lines 129-140, invoke no lifecycle callback and
    touch neither the intent nor presence; they cancel no timer, and the
    only timers they start are [onEntered] timers. *)
Theorem paint_invokes_no_callback (s : Hook) :
  effectOf options <> VNull \/ attachesRef host = false ->
  reachable options host s ->
  exists s',
    step options host AnimationFrame s = Ok s' /\
    (forall c, invocations c (log s') = invocations c (log s)) /\
    isVisible s' = isVisible s /\ presence s' = presence s /\
    (forall t, t ∈ timers s -> t ∈ timers s') /\
    (forall t, t ∈ timers s' -> t ∈ timers s \/ callback t = EnteredTimer).
Proof.
  intros Hok R. destruct (step_total AnimationFrame s Hok R) as [s' E].
  exists s'. split; [exact E|]. simpl in E.
  apply runFrames_control in E.
  destruct E as (V & P & _ & _ & _ & _ & T & U & L).
  unfold presence. split_and!; auto.
Qed.

(** ** The first commit *)

(** X13: the initial value seeds both state cells, lines 69-70, and every effect
    runs with the first commit.  An instance created hidden (the default)
    does nothing: no callback, no style, no timer, no frame callback,
    whatever the options.  An instance created visible is present from the
    start; its first commit writes [transition: none] and the [from] style
    when the node is bound, queues the frame callback, and invokes
    [onEnter]. *)
Theorem first_commit (styles : option CSSProperties) :
  (forall initialValue, default false initialValue = false ->
     useTransitionState options host initialValue = Ok Scenario.hidden) /\
  (attachesRef host = false ->
   exists s1,
     useTransitionState options host (Some true) = Ok s1 /\
     log s1 = (if onEnter options then [(0, Invoke OnEnter)] else []) /\
     frames s1 = [] /\ timers s1 = [] /\ presence s1 = true) /\
  (attachesRef host = true ->
   getFrom (getEffectConfig (effectOf options)) = Ok styles ->
   exists s1,
     useTransitionState options host (Some true) = Ok s1 /\
     log s1 =
       [(0, SetTransition "none")] ++
       match styles with
       | Some bag => [(0, Assign bag)]
       | None => []
       end ++
       (if onEnter options then [(0, Invoke OnEnter)] else []) /\
     frames s1 = [OuterFrame (getEffectConfig (effectOf options))] /\
     timers s1 = [] /\ presence s1 = true).
Proof.
  split_and!.
  - intros initialValue Hinit. apply mount_hidden, Hinit.
  - intros Hdet.
    destruct (mount_detached options host Hdet)
      as (s1 & E & L & F & T & R & _).
    exists s1. split_and!; auto.
  - intros Hattach Hfrom.
    destruct (mount_commits options host styles Hattach Hfrom)
      as (s1 & E & L & F & T & R & _).
    exists s1. split_and!; auto.
Qed.

(** ** [onExit] and [onExited] *)

Lemma exiting_true s : exiting s = true <->
  exists t, t ∈ timers s /\ callback t = ExitTimer.
Proof.
  unfold exiting. rewrite existsb_exists. split.
  - intros (t & Ht & Hexit). exists t.
    split; [apply list_elem_of_In, Ht|apply isExit_true, Hexit].
  - intros (t & Ht & Hexit). exists t.
    split; [apply list_elem_of_In, Ht|apply isExit_true, Hexit].
Qed.

Lemma exiting_mono s s' :
  (forall t, t ∈ timers s' -> callback t = ExitTimer -> t ∈ timers s) ->
  exiting s' = true -> exiting s = true.
Proof.
  intros Hsub H. apply exiting_true in H as (t & Ht & Hexit).
  apply exiting_true. exists t. auto.
Qed.

Lemma visibilityEffect_exit_log v r s s' :
  visibilityEffect options v r s = Ok s' ->
  invocations OnExited (log s') = invocations OnExited (log s) /\
  invocations OnExit (log s') =
    invocations OnExit (log s) ++
    (if negb v && r && onExit options then [now s] else []).
Proof.
  destruct s as [v0 r0 el im m rd cl ts fs n w l].
  unfold visibilityEffect, invoke, setShouldRender, setTransition,
    applyStyle, setTimeout, record, bound. simpl.
  destruct v, r, (onEnter options), (onExit options), m, el as [style|];
    simpl;
    try (destruct (getFrom _) as [[bag|]|]; simpl; try discriminate);
    intros [= <-]; simpl; rewrite ?invocations_app; simpl;
    rewrite ?app_nil_r; split; reflexivity.
Qed.

Lemma layoutEffect_invocations v r s s' c :
  layoutEffect options v r s = Ok s' ->
  invocations c (log s') = invocations c (log s).
Proof.
  destruct s as [v0 r0 el im m rd cl ts fs n w l].
  unfold layoutEffect, setTransition, applyStyle, requestAnimationFrame,
    record, bound. simpl.
  destruct v, r, el as [style|]; simpl;
    try (destruct (getFrom _) as [[bag|]|]; simpl; try discriminate);
    intros [= <-]; simpl; rewrite ?invocations_app; simpl;
    rewrite ?app_nil_r; reflexivity.
Qed.

Lemma log_reconcileRef r s : log (reconcileRef host r s) = log s.
Proof.
  unfold reconcileRef. destruct (attachesRef host), r, (bound s); reflexivity.
Qed.

Lemma log_runCleanup s : log (runCleanup s) = log s.
Proof. unfold runCleanup. destruct (cleanup s); reflexivity. Qed.

(** A commit invokes [onExited] never, and [onExit] exactly when it starts
    an exit timer. *)
Lemma commit_exit_log s s' :
  Inv options host s -> mounted s = true ->
  commit options host s = Ok s' ->
  invocations OnExited (log s') = invocations OnExited (log s) /\
  ( (invocations OnExit (log s') = invocations OnExit (log s) /\
     forall t, t ∈ timers s' -> callback t = ExitTimer -> t ∈ timers s)
  \/ invocations OnExit (log s') =
       invocations OnExit (log s) ++
       (if onExit options then [now s] else []) ).
Proof.
  intros I Hm. unfold commit.
  destruct (reconcileRef_control host (shouldRender s) s)
    as (Rv & Rr & Ri & Rm & Rd & Rc & Rt & Rn & Rw & Rb).
  pose proof (log_reconcileRef (shouldRender s) s) as Rl.
  set (s1 := reconcileRef host (shouldRender s) s) in *.
  destruct (if sameDeps _ _ _ then _ else _) as [s2|] eqn:Hlayout; simpl;
    [|discriminate].
  assert (quiet s1 s2) as (Lv & Lr & Li & Lm & Ld & Lc & Lt & Ln & Lw & Lb).
  { destruct (sameDeps _ _ _).
    - injection Hlayout as <-. apply quiet_refl.
    - eapply layoutEffect_quiet, Hlayout. }
  assert (forall c, invocations c (log s2) = invocations c (log s1)) as Ll.
  { intros c. destruct (sameDeps _ _ _).
    - injection Hlayout as <-. reflexivity.
    - eapply layoutEffect_invocations, Hlayout. }
  clear Hlayout.
  set (s3 := match rendered s with
             | Some _ => s2
             | None => set_isMountedRef true s2
             end).
  assert (mounted s3 = true /\ timers s3 = timers s /\ now s3 = now s /\
          cleanup s3 = cleanup s /\
          forall c, invocations c (log s3) = invocations c (log s))
    as (Mm & Mt & Mw & Mc & Ml).
  { subst s3. destruct (rendered s); simpl; split_and!; try congruence;
      intros c; rewrite Ll, Rl; reflexivity. }
  clearbody s3. clear Lv Lr Li Lm Ld Lc Lt Ln Lw Lb Rv Rr Ri Rm Rd Rc Rt Rn Rw Rb.
  clearbody s1. clear s1 s2 Ll Rl.
  destruct (sameVisible (rendered s) (isVisible s) && negb _) eqn:Hran.
  - intros [= <-]. simpl. split; [apply Ml|]. left.
    split; [apply Ml|]. intros t Ht _. congruence.
  - destruct (visibilityEffect _ _ _ _) as [s4|] eqn:Heff; simpl;
      [|discriminate].
    intros [= <-]. simpl.
    destruct (runCleanup_control s3)
      as (Cv & Cr & Ci & Cm & Cd & Cc & Ct & Cn & Cw & Cb).
    pose proof (log_runCleanup s3) as Cl.
    destruct (visibilityEffect_exit_log _ _ _ _ Heff) as [Ed Ex].
    rewrite Cl, Ml in Ed, Ex. rewrite Cw, Mw in Ex.
    split; [exact Ed|].
    apply visibilityEffect_control in Heff; [|congruence].
    destruct Heff as (_ & _ & _ & _ & _ & _ & Ecases).
    destruct Ecases as [(Hv & _ & _ & Et & _)|[(Hv & Hr & _ & _ & Et & _)
                       |(Hv & Hr & _)]].
    + left. rewrite Hv in Ex. simpl in Ex. rewrite app_nil_r in Ex.
      split; [exact Ex|]. intros t Ht _. rewrite Et in Ht.
      apply runCleanup_subset in Ht. congruence.
    + left. rewrite Hv, Hr in Ex. simpl in Ex. rewrite app_nil_r in Ex.
      split; [exact Ex|]. intros t Ht _. rewrite Et in Ht.
      apply runCleanup_subset in Ht. congruence.
    + right. rewrite Hv, Hr in Ex. simpl in Ex. exact Ex.
Qed.

Lemma commit_answered s s' :
  Inv options host s -> mounted s = true -> onExit options = true ->
  exitsAnswered s -> commit options host s = Ok s' -> exitsAnswered s'.
Proof.
  intros I Hm Hsupplied Q C. unfold exitsAnswered in *.
  destruct (commit_exit_log s s' I Hm C) as [Ed [[Ex Hsub]|Ex]];
    rewrite Ed, Ex.
  - destruct (exiting s') eqn:H'; [|lia].
    rewrite (exiting_mono s s' Hsub H') in Q. exact Q.
  - rewrite Hsupplied, length_app. simpl.
    destruct (exiting s'), (exiting s); lia.
Qed.

Lemma settle_answered fuel s s' :
  Inv options host s -> mounted s = true -> onExit options = true ->
  exitsAnswered s -> settle options host fuel s = Ok s' -> exitsAnswered s'.
Proof.
  intros I Hm Hsupplied. revert s I Hm.
  induction fuel as [|fuel IH]; intros s I Hm Q; rewrite settle_unfold.
  - destruct (dirty s); [discriminate|]. intros [= <-]. exact Q.
  - destruct (dirty s); [|intros [= <-]; exact Q].
    destruct (commit options host s) as [s1|] eqn:C; simpl; [|discriminate].
    destruct (commit_spec _ _ _ _ I Hm C) as (I1 & _ & M1 & _).
    apply (IH s1 I1 M1). apply (commit_answered s s1 I Hm Hsupplied Q C).
Qed.

Lemma fire_answered s t w s' :
  Inv options host s -> settled s -> exitsAnswered s ->
  t ∈ timers s -> now s <= w ->
  runTimer options host (callback t)
    (set_now w (clearTimeout (timerId t) s)) = Ok s' ->
  exitsAnswered s'.
Proof.
  intros I S Q Ht Hw E. unfold exitsAnswered in *.
  destruct (fire_spec options host s t w I S Ht Hw)
    as (s1 & R & I1 & S1 & W1 & M1 & V1 & F1 & T1 & Hcase).
  rewrite R in E. injection E as <-.
  destruct Hcase as [(Hcb & _ & _ & Ht1 & Hl)|(Hcb & _ & _ & Hr1 & Hl)];
    rewrite Hl.
  - rewrite !invocations_snoc_other by reflexivity.
    destruct (exiting s1) eqn:H'; [|lia].
    rewrite (exiting_mono s s1) in Q; [exact Q| |exact H'].
    intros u Hu _. rewrite Ht1 in Hu.
    apply list_elem_of_filter in Hu. tauto.
  - rewrite invocations_snoc_same, length_app.
    rewrite (invocations_snoc_other _ _ _ OnExit OnExited) by reflexivity.
    assert (exiting s = true) as Hx.
    { apply exiting_true. exists t. auto. }
    assert (exiting s1 = false) as Hx1.
    { destruct (exiting s1) eqn:H'; [|reflexivity].
      apply exiting_true in H' as (u & Hu & Hexit).
      destruct (settled_exit_pending _ _ _ _ I1 S1 Hu Hexit) as (_ & ? & _).
      congruence. }
    rewrite Hx in Q. rewrite Hx1.
    destruct (onExited options); simpl; lia.
Qed.

Lemma fireDue_answered fuel target s s' :
  Inv options host s -> settled s -> exitsAnswered s ->
  fireDue options host fuel target s = Ok s' -> exitsAnswered s'.
Proof.
  revert s. induction fuel as [|fuel IH]; intros s I S Q;
    rewrite fireDue_unfold;
    destruct (nextDue target (timers s)) as [u|] eqn:Hnext;
    try (intros [= <-]; exact Q).
  apply nextDue_Some in Hnext as (Hu & Hdue & Hmin).
  cbv zeta.
  change (now (clearTimeout (timerId u) s)) with (now s).
  set (w := Z.max (now s) (due u)).
  destruct (fire_spec options host s u w I S Hu)
    as (s1 & R & I1 & S1 & _); [lia|].
  rewrite R. simpl. apply IH; auto.
  apply (fire_answered s u w); auto. lia.
Qed.

Lemma step_answered e s s' :
  Inv options host s -> settled s -> onExit options = true ->
  exitsAnswered s -> step options host e s = Ok s' -> exitsAnswered s'.
Proof.
  intros I S Hsupplied Q. destruct e as [a| | |ms|]; simpl.
  - unfold setIsVisible, bailsOut. destruct (mounted s) eqn:Hm; [|intros [= <-]; auto].
    destruct (Bool.eqb _ _); [intros [= <-]; auto|].
    apply settle_answered; auto. apply Inv_set_isVisible, I.
  - destruct (mounted s) eqn:Hm; [|intros [= <-]; auto].
    destruct (commit options host s) as [s1|] eqn:C; simpl; [|discriminate].
    destruct (commit_spec _ _ _ _ I Hm C) as (I1 & _ & M1 & _).
    apply (settle_answered _ s1 s' I1 M1 Hsupplied).
    apply (commit_answered s s1 I Hm Hsupplied Q C).
  - intros E. apply runFrames_control in E.
    destruct E as (_ & _ & _ & _ & _ & _ & _ & U & L).
    unfold exitsAnswered in *. rewrite !L. simpl.
    destruct (exiting s') eqn:H'; [|lia].
    rewrite (exiting_mono s s') in Q; [exact Q| |exact H'].
    intros t Ht Hexit. destruct (U t Ht) as [Hin|Hcb]; [exact Hin|].
    congruence.
  - apply fireDue_answered; auto.
  - intros [= <-]. unfold exitsAnswered in *.
    destruct (unmount_torndown options host s I S) as [_ L]. rewrite L.
    destruct (exiting (unmount host s)) eqn:H'; [|lia].
    rewrite (exiting_mono s (unmount host s)) in Q; [exact Q| |exact H'].
    intros t Ht _. unfold unmount in Ht.
    destruct (mounted s); [|exact Ht].
    simpl in Ht. apply runCleanup_subset in Ht.
    destruct (attachesRef host); exact Ht.
Qed.

(** X17: [onExit] is invoked, line 103, in the effect run that starts the exit
    timer, and [onExited], line 115, only by that timer: when [onExit] is
    supplied, [onExited] has never been invoked more often than [onExit],
    and while an exit timer is pending one [onExit] is still unanswered. *)
Theorem onExited_never_outnumbers_onExit (s : Hook) :
  reachable options host s -> onExit options = true ->
  (length (invocations OnExited (log s)) + (if exiting s then 1 else 0)
   <= length (invocations OnExit (log s)))%nat.
Proof.
  intros R Hsupplied. revert s R.
  apply (reachable_induction exitsAnswered).
  - intros initialValue s0 U. unfold useTransitionState in U.
    eapply settle_answered; [| | | |exact U]; auto.
    + apply Inv_firstRender.
    + unfold exitsAnswered. simpl. lia.
  - intros e s s' R Q E.
    destruct (reachable_inv _ _ _ R) as [I S].
    eapply step_answered; eauto.
Qed.

(** ** [onEnter] and [onEntered] *)

Lemma length_filter_sublist (f : Timer -> bool) (l1 l2 : list Timer) :
  l1 `sublist_of` l2 ->
  (length (List.filter f l1) <= length (List.filter f l2))%nat.
Proof.
  induction 1 as [|t l1 l2 _ IH|t l1 l2 _ IH]; simpl.
  - lia.
  - destruct (f t); simpl; lia.
  - destruct (f t); simpl; lia.
Qed.

Lemma length_filter_remove (f : Timer -> bool) (ts : list Timer) t :
  t ∈ ts -> f t = true ->
  (length (List.filter f (filter (fun u => timerId u <> timerId t) ts)) + 1
   <= length (List.filter f ts))%nat.
Proof.
  induction ts as [|u rest IH]; intros Hin Hf; [inversion Hin|].
  destruct (decide (timerId u = timerId t)) as [Heq|Hne].
  - rewrite filter_cons_False by (intros Hn; apply Hn; exact Heq).
    apply elem_of_cons in Hin as [<-|Hin].
    + simpl. rewrite Hf. simpl.
      pose proof (length_filter_sublist f _ _
                    (sublist_filter (fun u => timerId u <> timerId t) rest)).
      lia.
    + specialize (IH Hin Hf). simpl. destruct (f u); simpl; lia.
  - rewrite filter_cons_True by exact Hne.
    apply elem_of_cons in Hin as [->|Hin]; [congruence|].
    specialize (IH Hin Hf). simpl. destruct (f u); simpl; lia.
Qed.

Lemma enteredTimers_snoc_exit (ts : list Timer) t :
  callback t = ExitTimer ->
  List.filter (fun u => negb (isExit u)) (ts ++ [t]) =
  List.filter (fun u => negb (isExit u)) ts.
Proof.
  intros Hexit. rewrite List.filter_app. simpl.
  apply isExit_true in Hexit. rewrite Hexit. simpl. apply app_nil_r.
Qed.

Lemma enteredTimers_snoc_entered (ts : list Timer) t :
  callback t = EnteredTimer ->
  length (List.filter (fun u => negb (isExit u)) (ts ++ [t])) =
  S (length (List.filter (fun u => negb (isExit u)) ts)).
Proof.
  intros Hcb. rewrite List.filter_app. simpl.
  unfold isExit at 2. rewrite Hcb. simpl. rewrite length_app. simpl. lia.
Qed.

Lemma enterCredit_settled s :
  Inv options host s -> settled s -> enterCredit s = 0%nat.
Proof.
  intros I S. apply dirty_false in S. unfold enterCredit. rewrite S.
  destruct (isVisible s) eqn:Hv, (shouldRender s) eqn:Hr; try reflexivity.
  destruct (inv_present _ _ _ I false) as [H _]; congruence.
Qed.

Lemma visibilityEffect_enter_log v r s s' :
  visibilityEffect options v r s = Ok s' ->
  invocations OnEntered (log s') = invocations OnEntered (log s) /\
  invocations OnEnter (log s') =
    invocations OnEnter (log s) ++
    (if v && onEnter options then [now s] else []).
Proof.
  destruct s as [v0 r0 el im m rd cl ts fs n w l].
  unfold visibilityEffect, invoke, setShouldRender, setTransition,
    applyStyle, setTimeout, record, bound. simpl.
  destruct v, r, (onEnter options), (onExit options), m, el as [style|];
    simpl;
    try (destruct (getFrom _) as [[bag|]|]; simpl; try discriminate);
    intros [= <-]; simpl; rewrite ?invocations_app; simpl;
    rewrite ?app_nil_r; split; reflexivity.
Qed.

Lemma layoutEffect_queue v r s s' :
  layoutEffect options v r s = Ok s' ->
  frames s' = frames s \/
  (length (frames s') = S (length (frames s)) /\ v = true /\ r = true).
Proof.
  unfold layoutEffect.
  destruct v, r; simpl; try (intros [= <-]; auto).
  destruct (bound s); [|intros [= <-]; auto].
  destruct (getFrom _) as [styles|]; simpl; [|discriminate].
  intros [= <-]. right. simpl.
  rewrite length_app, frames_applyStyle, frames_setTransition. simpl.
  split_and!; auto. lia.
Qed.

(** What a commit does to the enter side of the books. *)
Lemma commit_enter_log s s' :
  Inv options host s -> mounted s = true ->
  commit options host s = Ok s' ->
  invocations OnEntered (log s') = invocations OnEntered (log s) /\
  (length (enteredTimers s') <= length (enteredTimers s))%nat /\
  exists ran queued : bool,
    invocations OnEnter (log s') =
      invocations OnEnter (log s) ++
      (if ran && isVisible s && onEnter options then [now s] else []) /\
    length (frames s') =
      (length (frames s) + (if queued then 1 else 0))%nat /\
    (queued = true ->
     isVisible s = true /\ shouldRender s = true /\
     sameDeps (rendered s) true true = false) /\
    (ran = false -> sameVisible (rendered s) (isVisible s) = true).
Proof.
  intros I Hm. unfold commit, enteredTimers.
  destruct (reconcileRef_control host (shouldRender s) s)
    as (Rv & Rr & Ri & Rm & Rd & Rc & Rt & Rn & Rw & Rb).
  pose proof (log_reconcileRef (shouldRender s) s) as Rl.
  assert (frames (reconcileRef host (shouldRender s) s) = frames s) as Rf.
  { unfold reconcileRef.
    destruct (attachesRef host), (shouldRender s), (bound s); reflexivity. }
  set (s1 := reconcileRef host (shouldRender s) s) in *.
  destruct (if sameDeps _ _ _ then _ else _) as [s2|] eqn:Hlayout; simpl;
    [|discriminate].
  assert (quiet s1 s2) as (Lv & Lr & Li & Lm & Ld & Lc & Lt & Ln & Lw & Lb).
  { destruct (sameDeps _ _ _).
    - injection Hlayout as <-. apply quiet_refl.
    - eapply layoutEffect_quiet, Hlayout. }
  assert (forall c, invocations c (log s2) = invocations c (log s1)) as Ll.
  { intros c. destruct (sameDeps _ _ _).
    - injection Hlayout as <-. reflexivity.
    - eapply layoutEffect_invocations, Hlayout. }
  assert (exists queued : bool,
            length (frames s2) =
              (length (frames s) + (if queued then 1 else 0))%nat /\
            (queued = true ->
             isVisible s = true /\ shouldRender s = true /\
             sameDeps (rendered s) true true = false))
    as (queued & Lf & Lq).
  { destruct (sameDeps _ _ _) eqn:Hdeps.
    - injection Hlayout as <-. exists false. rewrite Rf.
      split; [lia|discriminate].
    - apply layoutEffect_queue in Hlayout as [F|(F & Hv & Hr)].
      + exists false. rewrite F, Rf. split; [lia|discriminate].
      + exists true. rewrite F, Rf. split; [lia|]. intros _.
        rewrite Hv, Hr in Hdeps. auto. }
  clear Hlayout.
  set (s3 := match rendered s with
             | Some _ => s2
             | None => set_isMountedRef true s2
             end).
  assert (mounted s3 = true /\ timers s3 = timers s /\ now s3 = now s /\
          cleanup s3 = cleanup s /\ frames s3 = frames s2 /\
          forall c, invocations c (log s3) = invocations c (log s))
    as (Mm & Mt & Mw & Mc & Mf & Ml).
  { subst s3. destruct (rendered s); simpl; split_and!; try congruence;
      intros c; rewrite Ll, Rl; reflexivity. }
  clearbody s3. clear Lv Lr Li Lm Ld Lc Lt Ln Lw Lb Rv Rr Ri Rm Rd Rc Rt Rn Rw Rb.
  clearbody s1. clear s1 Ll Rl Rf.
  destruct (sameVisible (rendered s) (isVisible s) && negb _) eqn:Hran.
  - intros [= <-]. simpl. split; [apply Ml|]. split; [rewrite Mt; lia|].
    exists false, queued. simpl. rewrite app_nil_r, Mf.
    split_and!; auto. intros _. apply andb_true_iff in Hran. tauto.
  - destruct (visibilityEffect _ _ _ _) as [s4|] eqn:Heff; simpl;
      [|discriminate].
    intros [= <-]. simpl.
    destruct (runCleanup_control s3)
      as (Cv & Cr & Ci & Cm & Cd & Cc & Ct & Cn & Cw & Cb).
    pose proof (log_runCleanup s3) as Cl.
    assert (frames (runCleanup s3) = frames s3) as Cf
      by (unfold runCleanup; destruct (cleanup s3); reflexivity).
    destruct (visibilityEffect_enter_log _ _ _ _ Heff) as [Ed En].
    pose proof (visibilityEffect_frames _ _ _ _ _ Heff) as Ef.
    rewrite Cl, Ml in Ed, En. rewrite Cw, Mw in En.
    split; [exact Ed|].
    assert (timers (runCleanup s3) `sublist_of` timers s) as Hsl.
    { rewrite Ct, Mc, Mt. destruct (cleanup s); [|reflexivity].
      apply sublist_filter. }
    apply visibilityEffect_control in Heff; [|congruence].
    destruct Heff as (_ & _ & _ & _ & _ & _ & Ecases).
    split.
    { destruct Ecases as [(_ & _ & _ & Et & _)|[(_ & _ & _ & _ & Et & _)
                         |(_ & _ & _ & _ & Et & _)]]; rewrite Et.
      - apply length_filter_sublist, Hsl.
      - apply length_filter_sublist, Hsl.
      - rewrite enteredTimers_snoc_exit by reflexivity.
        apply length_filter_sublist, Hsl. }
    exists true, queued. simpl. rewrite Ef, Cf, Mf.
    split_and!; auto. discriminate.
Qed.

Lemma commit_entered s s' :
  Inv options host s -> mounted s = true -> onEnter options = true ->
  entersAnswered s -> commit options host s = Ok s' -> entersAnswered s'.
Proof.
  intros I Hm Hsupplied Q C. unfold entersAnswered, pendingEnters in *.
  destruct (commit_enter_log s s' I Hm C)
    as (Ed & Ht & ran & queued & En & Hf & Hq & Hr).
  destruct (commit_spec _ _ _ _ I Hm C) as (_ & _ & _ & _ & Hrd & _).
  rewrite Ed, En, Hf, length_app, Hsupplied, andb_true_r.
  unfold enterCredit in *. rewrite Hrd.
  destruct queued.
  - destruct (Hq eq_refl) as (Hv & Hsr & Hdeps). rewrite Hv, Hsr.
    rewrite ?andb_true_r.
    destruct (rendered s) as [[[|] [|]]|] eqn:Hprev;
      try discriminate; simpl in *.
    + lia.
    + destruct ran; [simpl; lia|].
      specialize (Hr eq_refl). rewrite Hv in Hr. discriminate.
    + destruct ran; [simpl; lia|].
      specialize (Hr eq_refl). rewrite Hv in Hr. discriminate.
    + destruct ran; [simpl; lia|].
      specialize (Hr eq_refl). discriminate.
  - destruct (isVisible s) eqn:Hv, (shouldRender s) eqn:Hsr; simpl;
      rewrite ?andb_false_r; simpl;
      try (destruct (rendered s) as [[[|] [|]]|]; simpl in *; lia).
    (* rendered presence still pending: the effect ran *)
    destruct ran.
    + simpl. destruct (rendered s) as [[[|] [|]]|]; simpl in *; lia.
    + specialize (Hr eq_refl). unfold sameVisible in Hr.
      destruct (rendered s) as [[v0 r0]|] eqn:Hprev; [|discriminate].
      apply Bool.eqb_prop in Hr. subst v0.
      destruct (inv_present _ _ _ I r0 Hprev) as [Hp _]. congruence.
Qed.

Lemma settle_entered fuel s s' :
  Inv options host s -> mounted s = true -> onEnter options = true ->
  entersAnswered s -> settle options host fuel s = Ok s' ->
  entersAnswered s'.
Proof.
  intros I Hm Hsupplied. revert s I Hm.
  induction fuel as [|fuel IH]; intros s I Hm Q; rewrite settle_unfold.
  - destruct (dirty s); [discriminate|]. intros [= <-]. exact Q.
  - destruct (dirty s); [|intros [= <-]; exact Q].
    destruct (commit options host s) as [s1|] eqn:C; simpl; [|discriminate].
    destruct (commit_spec _ _ _ _ I Hm C) as (I1 & _ & M1 & _).
    apply (IH s1 I1 M1). apply (commit_entered s s1 I Hm Hsupplied Q C).
Qed.

Lemma fire_entered s t w s' :
  Inv options host s -> settled s -> entersAnswered s ->
  t ∈ timers s -> now s <= w ->
  runTimer options host (callback t)
    (set_now w (clearTimeout (timerId t) s)) = Ok s' ->
  entersAnswered s'.
Proof.
  intros I S Q Ht Hw E. unfold entersAnswered, pendingEnters in *.
  destruct (fire_spec options host s t w I S Ht Hw)
    as (s1 & R & I1 & S1 & W1 & M1 & V1 & F1 & T1 & Hcase).
  rewrite R in E. injection E as <-.
  rewrite (enterCredit_settled s I S) in Q.
  rewrite (enterCredit_settled s1 I1 S1), F1.
  destruct Hcase as [(Hcb & _ & _ & Ht1 & Hl)|(Hcb & _ & _ & Hr1 & Hl)];
    rewrite Hl.
  - rewrite invocations_snoc_same, length_app.
    rewrite (invocations_snoc_other _ _ _ OnEnter OnEntered) by reflexivity.
    unfold enteredTimers in *. rewrite Ht1.
    pose proof (length_filter_remove (fun u => negb (isExit u))
                  (timers s) t Ht) as Hrem.
    assert (negb (isExit t) = true) as Hne
      by (unfold isExit; rewrite Hcb; reflexivity).
    specialize (Hrem Hne).
    destruct (_ && _); simpl; lia.
  - rewrite !invocations_snoc_other by reflexivity.
    assert (length (enteredTimers s1) <= length (enteredTimers s))%nat.
    { unfold enteredTimers. apply length_filter_sublist.
      etransitivity; [exact T1|apply sublist_filter]. }
    lia.
Qed.

Lemma fireDue_entered_log fuel target s s' :
  Inv options host s -> settled s -> entersAnswered s ->
  fireDue options host fuel target s = Ok s' -> entersAnswered s'.
Proof.
  revert s. induction fuel as [|fuel IH]; intros s I S Q;
    rewrite fireDue_unfold;
    destruct (nextDue target (timers s)) as [u|] eqn:Hnext;
    try (intros [= <-]; exact Q).
  apply nextDue_Some in Hnext as (Hu & Hdue & Hmin).
  cbv zeta.
  change (now (clearTimeout (timerId u) s)) with (now s).
  set (w := Z.max (now s) (due u)).
  destruct (fire_spec options host s u w I S Hu)
    as (s1 & R & I1 & S1 & _); [lia|].
  rewrite R. simpl. apply IH; auto.
  apply (fire_entered s u w); auto. lia.
Qed.

Lemma runFrame_count cb s s' :
  runFrame options cb s = Ok s' ->
  (length (frames s') + length (enteredTimers s')
   <= S (length (frames s) + length (enteredTimers s)))%nat.
Proof.
  unfold enteredTimers. destruct cb as [config|config]; simpl.
  - intros [= <-]. simpl. rewrite length_app. simpl. lia.
  - destruct (bound s); simpl; [|intros [= <-]; lia].
    destruct (getTo config) as [styles|]; simpl; [|discriminate].
    intros [= <-]. simpl.
    rewrite enteredTimers_snoc_entered by reflexivity.
    rewrite frames_applyStyle, frames_setTransition.
    assert (timers (applyStyle styles
                      (setTransition (transitionValue options) s))
            = timers s) as ->; [|lia].
    pose proof (setTransition_quiet (transitionValue options) s)
      as (_ & _ & _ & _ & _ & _ & T1 & _).
    pose proof (applyStyle_quiet styles
                  (setTransition (transitionValue options) s))
      as (_ & _ & _ & _ & _ & _ & T2 & _).
    congruence.
Qed.

Lemma runFrames_count queue s s' :
  runFrames options queue s = Ok s' ->
  (length (frames s') + length (enteredTimers s')
   <= length queue + (length (frames s) + length (enteredTimers s)))%nat.
Proof.
  revert s. induction queue as [|cb rest IH]; intros s; simpl.
  - intros [= <-]. lia.
  - destruct (runFrame options cb s) as [s1|] eqn:F; simpl; [|discriminate].
    intros E. apply runFrame_count in F. apply IH in E. lia.
Qed.

Lemma step_entered e s s' :
  Inv options host s -> settled s -> onEnter options = true ->
  entersAnswered s -> step options host e s = Ok s' -> entersAnswered s'.
Proof.
  intros I S Hsupplied Q. destruct e as [a| | |ms|]; simpl.
  - unfold setIsVisible, bailsOut. destruct (mounted s) eqn:Hm; [|intros [= <-]; auto].
    destruct (Bool.eqb _ _); [intros [= <-]; auto|].
    apply settle_entered; auto. apply Inv_set_isVisible, I.
  - destruct (mounted s) eqn:Hm; [|intros [= <-]; auto].
    destruct (commit options host s) as [s1|] eqn:C; simpl; [|discriminate].
    destruct (commit_spec _ _ _ _ I Hm C) as (I1 & _ & M1 & _).
    apply (settle_entered _ s1 s' I1 M1 Hsupplied).
    apply (commit_entered s s1 I Hm Hsupplied Q C).
  - intros E.
    pose proof (runFrames_count _ _ _ E) as Hcount.
    apply runFrames_control in E.
    destruct E as (_ & _ & _ & D & _ & _ & _ & _ & L).
    unfold entersAnswered, pendingEnters, enterCredit in *.
    rewrite !L, D. simpl in *. unfold enteredTimers in *. simpl in *. lia.
  - apply fireDue_entered_log; auto.
  - intros [= <-]. unfold entersAnswered, pendingEnters in *.
    destruct (unmount_torndown options host s I S) as [_ L]. rewrite L.
    destruct (unmount_inv options host s I S) as [I' S'].
    rewrite (enterCredit_settled _ I' S').
    rewrite (enterCredit_settled _ I S) in Q.
    assert (frames (unmount host s) = frames s) as ->.
    { unfold unmount. destruct (mounted s); [|reflexivity].
      unfold runCleanup. destruct (attachesRef host); simpl;
        destruct (cleanup s); reflexivity. }
    assert (length (enteredTimers (unmount host s))
            <= length (enteredTimers s))%nat; [|lia].
    unfold enteredTimers. apply length_filter_sublist.
    unfold unmount. destruct (mounted s); [|reflexivity].
    unfold runCleanup. destruct (attachesRef host); simpl;
      destruct (cleanup s); simpl; try reflexivity; apply sublist_filter.
Qed.

(** X18: [onEnter] is invoked, line 96, by every run of the visibility
    effect that sees the intent to show, and each frame chain of the layout
    effect, lines 129-140, is queued in such a commit or in the render that
    follows one; a chain ends in at most one [onEntered].  So when
    [onEnter] is supplied, the [onEntered] invocations so far, the pending
    [onEntered] timers and the queued frame callbacks together never
    outnumber the [onEnter] invocations. *)
Theorem onEntered_never_outnumbers_onEnter (s : Hook) :
  reachable options host s -> onEnter options = true ->
  (length (invocations OnEntered (log s)) + pendingEnters s
   <= length (invocations OnEnter (log s)))%nat.
Proof.
  intros R Hsupplied.
  assert (entersAnswered s) as Q.
  { revert s R. apply (reachable_induction entersAnswered).
    - intros initialValue s0 U. unfold useTransitionState in U.
      eapply settle_entered; [| | | |exact U]; auto.
      + apply Inv_firstRender.
      + unfold entersAnswered, pendingEnters, enterCredit, enteredTimers.
        simpl. lia.
    - intros e s s' R Q E.
      destruct (reachable_inv _ _ _ R) as [I S].
      eapply step_entered; eauto. }
  unfold entersAnswered in Q. lia.
Qed.

End EveryRun.


(** * The toast list *)

Section ToastList.

Import ToastDemo.

(** What every state of the list satisfies. *)
Lemma toasts_invariant es st :
  NoDup (id <$> toasts st) ->
  (forall t, t ∈ toasts st -> 0 <= id t < counter st) ->
  (forall t, t ∈ toasts st ->
     message t = "Notification #" +:+ pretty (id t + 1)) ->
  0 <= counter st ->
  NoDup (id <$> toasts (run es st)) /\
  (forall t, t ∈ toasts (run es st) -> 0 <= id t < counter (run es st)) /\
  (forall t, t ∈ toasts (run es st) ->
     message t = "Notification #" +:+ pretty (id t + 1)) /\
  counter st <= counter (run es st).
Proof.
  revert st. induction es as [|e rest IH]; intros st Hnd Hlt Hmsg Hc; simpl.
  - split_and!; auto. lia.
  - assert (counter st <= counter (step e st)) as Hle
      by (destruct e; simpl; lia).
    destruct (IH (step e st)) as (A & B & C & D); [..|split_and!; auto; lia].
    + destruct e as [|i]; simpl.
      * rewrite fmap_app. apply NoDup_app. split_and!; [exact Hnd| |].
        -- intros x Hx Hx'. apply list_elem_of_fmap in Hx as (t & -> & Ht).
           apply list_elem_of_singleton in Hx'. simpl in Hx'.
           specialize (Hlt t Ht). lia.
        -- simpl. apply NoDup_singleton.
      * apply (sublist_NoDup _ _ Hnd), fmap_sublist, sublist_filter.
    + intros t Ht. destruct e as [|i]; simpl in *.
      * apply elem_of_app in Ht as [Ht|Ht].
        -- specialize (Hlt t Ht). lia.
        -- apply list_elem_of_singleton in Ht. subst t. simpl. lia.
      * apply list_elem_of_filter in Ht as [_ Ht]. auto.
    + intros t Ht. destruct e as [|i]; simpl in *.
      * apply elem_of_app in Ht as [Ht|Ht]; [auto|].
        apply list_elem_of_singleton in Ht. subst t. reflexivity.
      * apply list_elem_of_filter in Ht as [_ Ht]. auto.
    + lia.
Qed.

(** X14: [const id = counter], line 228: as long as the button is clicked in
    the current render, whatever the order of clicks and removals (also
    of ids that are not in the list), every toast in the list has an id of
    its own, taken from below the counter, and its message carries that
    id plus one. *)
Theorem toast_ids_are_unique (es : list Event) :
  let st := run es initial in
  NoDup (id <$> toasts st) /\
  (forall t, t ∈ toasts st -> 0 <= id t < counter st) /\
  (forall t, t ∈ toasts st ->
     message t = "Notification #" +:+ pretty (id t + 1)).
Proof.
  destruct (toasts_invariant es initial) as (A & B & C & _); simpl; auto.
  - constructor.
  - intros t Ht. inversion Ht.
  - intros t Ht. inversion Ht.
  - lia.
Qed.

Lemma filter_keeps_all (keep : Toast -> Prop)
    `{!forall toast, Decision (keep toast)} (l : list Toast) :
  (forall toast, toast ∈ l -> keep toast) -> filter keep l = l.
Proof.
  induction l as [|toast rest IH]; intros Hall; [reflexivity|].
  rewrite filter_cons_True by (apply Hall; left).
  f_equal. apply IH. intros u Hu. apply Hall. right. exact Hu.
Qed.

Lemma filter_unique (l : list Toast) (t : Toast) :
  NoDup (id <$> l) -> t ∈ l ->
  exists before after,
    l = before ++ t :: after /\
    filter (fun toast => id toast <> id t) l = before ++ after.
Proof.
  intros Hnd Hin.
  apply list_elem_of_split in Hin as (before & after & ->).
  exists before, after. split; [reflexivity|].
  rewrite fmap_app, fmap_cons in Hnd.
  apply NoDup_app in Hnd as (_ & Hdisj & Hnd).
  apply NoDup_cons in Hnd as [Hnotin _].
  rewrite filter_app, filter_cons_False by (intros Hn; apply Hn; reflexivity).
  f_equal.
  - apply filter_keeps_all. intros u Hu Heq.
    apply (Hdisj (id u)).
    + apply list_elem_of_fmap. eauto.
    + rewrite Heq. left.
  - apply filter_keeps_all. intros u Hu Heq.
    apply Hnotin. rewrite <- Heq. apply list_elem_of_fmap. eauto.
Qed.

(** X15: [removeToast], lines 233-235, in any state of the list: closing a
    toast that is shown removes that one entry and keeps the others in
    their order; closing an id that is not in the list changes nothing;
    and closing the toast that a click has just added gives back the list
    as it was, the counter staying ahead. *)
Theorem removeToast_removes_one (es : list Event) (t : Toast) (i : Z) :
  let st := run es initial in
  (t ∈ toasts st ->
   exists before after,
     toasts st = before ++ t :: after /\
     toasts (removeToast (id t) st) = before ++ after) /\
  ((forall u, u ∈ toasts st -> id u <> i) -> removeToast i st = st) /\
  toasts (step (Close (counter st)) (step Click st)) = toasts st /\
  counter (step (Close (counter st)) (step Click st)) = counter st + 1.
Proof.
  destruct (toast_ids_are_unique es) as (Hnd & Hlt & _).
  cbv zeta in *. set (st := run es initial) in *. split_and!.
  - intros Hin. apply filter_unique; assumption.
  - intros Hnone. unfold removeToast.
    rewrite filter_keeps_all by exact Hnone.
    destruct st. reflexivity.
  - simpl. rewrite filter_app.
    rewrite filter_cons_False by (intros Hn; apply Hn; reflexivity).
    rewrite filter_nil, app_nil_r.
    apply filter_keeps_all. intros u Hu.
    specialize (Hlt u Hu). lia.
  - reflexivity.
Qed.

(** X16: [addToast] reads [counter] from the render that created it, not
    from the updater's argument: two calls of the function created by
    one render give both toasts the same id (the same React key), although
    the counter advances twice. *)
Theorem stale_addToast_repeats_id (st : State) :
  let st2 := addToast (counter st) (addToast (counter st) st) in
  counter st2 = counter st + 2 /\
  ~ NoDup (id <$> toasts st2) /\
  exists before first second,
    toasts st2 = before ++ [first; second] /\ id first = id second.
Proof.
  cbv zeta. simpl. split_and!.
  - lia.
  - rewrite <- app_assoc, fmap_app. simpl. intros Hnd.
    apply NoDup_app in Hnd as (_ & _ & Hnd).
    apply NoDup_cons in Hnd as [Hnotin _]. apply Hnotin. left.
  - eexists _, _, _. rewrite <- app_assoc. split; reflexivity.
Qed.

End ToastList.

(** * Concrete runs *)

(** C1, at the input where the code departs from it: the setter is called
    with [true] at t=0, the two paint opportunities come at t=16 and t=32,
    the setter is called with [false] at t=50 and the clock runs on to
    t=350.  [onExit] fires at 50 and [onExited] at 350, but the timer that
    the superseded enter started at t=32 is not cancelled: [onEntered] fires
    at t=332, in the middle of the exit. *)
Theorem superseded_enter_still_fires_onEntered :
  exists s,
    Scenario.trial Scenario.options Scenario.attached
      Scenario.toggleWithin50ms = Ok s /\
    invocations OnEnter (log s) = [0] /\
    invocations OnExit (log s) = [50] /\
    invocations OnEntered (log s) = [332] /\
    invocations OnExited (log s) = [350] /\
    presence s = false.
Proof.
  eexists. split; [vm_compute; reflexivity|].
  split_and!; vm_compute; reflexivity.
Qed.

(** The same toggle when no paint opportunity comes before the hide: the
    frame callbacks of the superseded enter are still queued, so the next
    two paint opportunities write the [to] style over the collapsed style
    that the exit has just applied, and start the [onEntered] timer. *)
Lemma superseded_enter_frames_still_run :
  exists s,
    Scenario.trial Scenario.options Scenario.attached
      Scenario.toggleBeforePaint = Ok s /\
    styleMutations (log s) =
      [ (0, SetTransition "none"); (0, Assign {[ "opacity" := "0" ]});
        (50, SetTransition "all 300ms ease-in-out");
        (50, Assign {[ "opacity" := "0" ]});
        (50, SetTransition "all 300ms ease-in-out");
        (50, Assign {[ "opacity" := "1" ]}) ] /\
    invocations OnEntered (log s) = [350] /\
    invocations OnExited (log s) = [350].
Proof.
  eexists. split; [vm_compute; reflexivity|].
  split_and!; vm_compute; reflexivity.
Qed.

Lemma reachable_exiting :
  reachable Scenario.options Scenario.attached Scenario.exitingState.
Proof.
  exists None, Scenario.showThenHide. vm_compute. reflexivity.
Defined.

Lemma reachable_entered :
  reachable Scenario.options Scenario.attached Scenario.enteredState.
Proof.
  exists None, Scenario.showAndPaint. vm_compute. reflexivity.
Defined.

Lemma reachable_hidden :
  reachable Scenario.options Scenario.attached Scenario.hidden.
Proof.
  exists None, []. vm_compute. reflexivity.
Defined.

Lemma reachable_shownDetached :
  reachable Scenario.nullOptions Scenario.detached Scenario.shownDetached.
Proof.
  exists None, [SetIsVisible (Value true)]. vm_compute. reflexivity.
Defined.

Lemma reachable_null_hidden :
  reachable Scenario.nullOptions Scenario.attached Scenario.hidden.
Proof.
  exists None, []. vm_compute. reflexivity.
Defined.

Lemma reachable_inline_hidden :
  reachable Demo.customAnimation Demo.inline Scenario.hidden.
Proof.
  exists None, []. vm_compute. reflexivity.
Defined.

Lemma reachable_shown :
  reachable Demo.customAnimation Demo.inline Demo.shown.
Proof.
  exists None, Scenario.showAndPaint. vm_compute. reflexivity.
Defined.

Lemma reachable_hiding :
  reachable Demo.customAnimation Demo.inline Demo.hiding.
Proof.
  exists None, Scenario.showThenHide. vm_compute. reflexivity.
Defined.

Lemma reachable_painting :
  reachable Scenario.options Scenario.attached Demo.painting.
Proof.
  exists None, [SetIsVisible (Value true)]. vm_compute. reflexivity.
Defined.

Lemma reachable_overlongExiting :
  reachable Scenario.overlong Scenario.attached Scenario.overlongExiting.
Proof.
  exists None, Scenario.showThenHide. vm_compute. reflexivity.
Defined.

Lemma setIsVisible_same_value_is_noop_witness :
  reachable Scenario.options Scenario.attached Scenario.exitingState /\
  resolveAction (Updater (fun prev => prev && negb prev))
    (isVisible Scenario.exitingState) = isVisible Scenario.exitingState /\
  step Scenario.options Scenario.attached
    (SetIsVisible (Updater (fun prev => prev && negb prev)))
    Scenario.exitingState = Ok Scenario.exitingState /\
  step Scenario.options Scenario.attached Rerender Scenario.exitingState
    = Ok Scenario.exitingState /\
  exists s1,
    step Scenario.options Scenario.attached (SetIsVisible (Value true))
      Scenario.exitingState = Ok s1 /\
    isVisible s1 = true /\
    step Scenario.options Scenario.attached (SetIsVisible (Value true)) s1
      = Ok s1.
Proof.
  split; [exact reachable_exiting|]. split; [reflexivity|].
  destruct (setIsVisible_same_value_is_noop Scenario.options Scenario.attached
              Scenario.exitingState (Updater (fun prev => prev && negb prev))
              reachable_exiting eq_refl)
    as (_ & (s' & E & -> & _) & Hrender & Hagain).
  split; [exact E|]. split; [exact (Hrender eq_refl)|].
  destruct (step Scenario.options Scenario.attached (SetIsVisible (Value true))
              Scenario.exitingState) as [s1|err] eqn:E1;
    [|vm_compute in E1; discriminate].
  destruct (Hagain true s1 E1) as [V1 E2].
  exists s1. split; [reflexivity|]. split; [exact V1|exact E2].
Defined.

Lemma teardown_silences_instance_witness :
  reachable Scenario.options Scenario.attached Scenario.exitingState /\
  exists s',
    run Scenario.options Scenario.attached
      (Unmount :: Scenario.afterTeardown) Scenario.exitingState = Ok s' /\
    log s' = log Scenario.exitingState /\ elementRef s' = None.
Proof.
  split; [exact reachable_exiting|].
  apply (teardown_silences_instance Scenario.options Scenario.attached
           Scenario.exitingState Scenario.afterTeardown).
  exact reachable_exiting.
Defined.

Lemma presence_invariant_witness :
  reachable Demo.customAnimation Demo.inline Demo.hiding /\
  (entering Demo.hiding || exiting Demo.hiding = true ->
   presence Demo.hiding = true) /\
  (forall e s',
     step Demo.customAnimation Demo.inline e Demo.hiding = Ok s' ->
     presence Demo.hiding = true -> presence s' = false ->
     isMountedRef Demo.hiding = true /\
     exists ms t, e = Elapse ms /\ t ∈ timers Demo.hiding /\
       callback t = ExitTimer /\ delay t = 500 /\
       created t + timeoutDelay 500 <= now s' /\
       (0 <= 500 <= 2147483647 -> created t + 500 <= now s')).
Proof.
  split; [exact reachable_hiding|].
  exact (presence_invariant Demo.customAnimation Demo.inline Demo.hiding
           reachable_hiding).
Defined.

(** A duration of 2^31 milliseconds: [setTimeout] reduces it to a [long],
    which makes it negative, and the exit timer expires at once.  Hidden
    at [t=132], the element is gone 3 ms later, long before the duration
    has elapsed. *)
Lemma presence_drops_before_duration :
  reachable Scenario.overlong Scenario.attached Scenario.overlongExiting /\
  durationOf Scenario.overlong = 2147483648 /\
  timers Scenario.overlongExiting =
    [ {| timerId := 1; created := 132; delay := 2147483648;
         callback := ExitTimer |} ] /\
  invocations OnExit (log Scenario.overlongExiting) = [132] /\
  presence Scenario.overlongExiting = true /\
  isMountedRef Scenario.overlongExiting = true /\
  exists s',
    step Scenario.overlong Scenario.attached (Elapse 3)
      Scenario.overlongExiting = Ok s' /\
    presence s' = false /\ now s' = 135 /\
    invocations OnExited (log s') = [132] /\
    ~ (132 + durationOf Scenario.overlong <= now s').
Proof.
  split; [exact reachable_overlongExiting|].
  do 5 (split; [vm_compute; reflexivity|]).
  eexists. split; [vm_compute; reflexivity|].
  do 3 (split; [vm_compute; reflexivity|]).
  vm_compute. intros H. apply H. reflexivity.
Qed.




Lemma unbound_degrades_to_show_hide_witness :
  attachesRef Scenario.detached = false /\
  reachable Scenario.nullOptions Scenario.detached Scenario.shownDetached /\
  (forall s0 styles value, elementRef s0 = None ->
     applyStyle styles s0 = s0 /\ setTransition value s0 = s0) /\
  (forall initialValue es, exists s',
     (s0 <- useTransitionState Scenario.nullOptions Scenario.detached
              initialValue ;;
      run Scenario.nullOptions Scenario.detached es s0) = Ok s') /\
  elementRef Scenario.shownDetached = None /\
  styleMutations (log Scenario.shownDetached) = [] /\
  (forall e, exists s',
     step Scenario.nullOptions Scenario.detached e Scenario.shownDetached
       = Ok s') /\
  (mounted Scenario.shownDetached = true ->
   forall a ms,
     resolveAction a (isVisible Scenario.shownDetached)
       = negb (isVisible Scenario.shownDetached) ->
     timeoutDelay (durationOf Scenario.nullOptions) <= ms ->
     exists s1 s2,
       step Scenario.nullOptions Scenario.detached (SetIsVisible a)
         Scenario.shownDetached = Ok s1 /\
       step Scenario.nullOptions Scenario.detached (Elapse ms) s1 = Ok s2 /\
       presence s1 = true /\
       presence s2 = negb (isVisible Scenario.shownDetached)).
Proof.
  split; [reflexivity|]. split; [exact reachable_shownDetached|].
  apply (unbound_degrades_to_show_hide Scenario.nullOptions Scenario.detached
           Scenario.shownDetached);
    [reflexivity|exact reachable_shownDetached].
Defined.

(** ** Instances of the properties of every run *)

Lemma getEffectConfig_fallback_witness :
  ("bounce" ∉ PRESETS.*1) /\ ("bounce" ∉ ObjectPrototypeKeys) /\
  getEffectConfig (VString "bounce") = VObject Presets.fade.
Proof.
  assert ("bounce" ∉ PRESETS.*1) as H1
    by (apply (bool_decide_unpack _); vm_compute; exact I).
  assert ("bounce" ∉ ObjectPrototypeKeys) as H2
    by (apply (bool_decide_unpack _); vm_compute; exact I).
  split; [exact H1|]. split; [exact H2|].
  apply (getEffectConfig_fallback "bounce" H1 H2).
Defined.

Lemma hook_never_throws_witness :
  (effectOf Scenario.options <> VNull \/
   attachesRef Scenario.attached = false) /\
  exists s,
    (s0 <- useTransitionState Scenario.options Scenario.attached (Some true) ;;
     run Scenario.options Scenario.attached Scenario.toggleBeforePaint s0)
    = Ok s.
Proof.
  assert (effectOf Scenario.options <> VNull \/
          attachesRef Scenario.attached = false) as H
    by (left; vm_compute; discriminate).
  split; [exact H|].
  apply (hook_never_throws Scenario.options Scenario.attached (Some true)
           Scenario.toggleBeforePaint H).
Defined.

Lemma null_effect_throws_on_show_witness :
  attachesRef Scenario.attached = true /\
  effectOf Scenario.nullOptions = VNull /\
  useTransitionState Scenario.nullOptions Scenario.attached (Some true)
    = Throw TypeError /\
  step Scenario.nullOptions Scenario.attached (SetIsVisible (Value true))
    Scenario.hidden = Throw TypeError.
Proof.
  split; [reflexivity|]. split; [reflexivity|].
  destruct (null_effect_throws_on_show Scenario.nullOptions Scenario.attached
              eq_refl eq_refl) as [Hmount Hshow].
  split; [exact Hmount|].
  apply (Hshow Scenario.hidden (Value true) reachable_null_hidden eq_refl
           eq_refl).
Defined.

Lemma exit_timer_count_witness :
  reachable Scenario.options Scenario.attached Scenario.exitingState /\
  length (List.filter isExit (timers Scenario.exitingState)) = 1%nat.
Proof.
  split; [exact reachable_exiting|].
  destruct (exit_timer_count Scenario.options Scenario.attached
              Scenario.exitingState reachable_exiting) as [H _].
  rewrite H. vm_compute. reflexivity.
Defined.

Lemma intent_true_keeps_element_witness :
  reachable Scenario.options Scenario.attached Scenario.enteredState /\
  isVisible Scenario.enteredState = true /\
  exists s',
    step Scenario.options Scenario.attached (Elapse 100000)
      Scenario.enteredState = Ok s' /\
    presence s' = true.
Proof.
  split; [exact reachable_entered|]. split; [reflexivity|].
  destruct (intent_true_keeps_element Scenario.options Scenario.attached
              Scenario.enteredState 100000 reachable_entered eq_refl)
    as (_ & _ & s' & E & P & _).
  exists s'. split; [exact E|exact P].
Defined.

Lemma false_intent_hides_within_duration_witness :
  reachable Scenario.options Scenario.attached Scenario.exitingState /\
  mounted Scenario.exitingState = true /\
  isVisible Scenario.exitingState = false /\
  timeoutDelay (durationOf Scenario.options) <= 300 /\
  exists s',
    step Scenario.options Scenario.attached (Elapse 300)
      Scenario.exitingState = Ok s' /\
    presence s' = false /\ elementRef s' = None.
Proof.
  assert (timeoutDelay (durationOf Scenario.options) <= 300) as Hms
    by (vm_compute; discriminate).
  split; [exact reachable_exiting|]. do 2 (split; [reflexivity|]).
  split; [exact Hms|].
  destruct (false_intent_hides_within_duration Scenario.options
              Scenario.attached Scenario.exitingState 300
              reachable_exiting eq_refl eq_refl Hms)
    as (s' & E & P & El & _).
  exists s'. split_and!; assumption.
Defined.

Lemma rerender_with_stable_effect_is_noop_witness :
  reachable Scenario.options Scenario.attached Scenario.exitingState /\
  effectIsFresh Scenario.options Scenario.attached = false /\
  step Scenario.options Scenario.attached Rerender Scenario.exitingState
    = Ok Scenario.exitingState.
Proof.
  split; [exact reachable_exiting|]. split; [reflexivity|].
  apply (rerender_with_stable_effect_is_noop Scenario.options
           Scenario.attached Scenario.exitingState reachable_exiting eq_refl).
Defined.

Lemma rerender_with_inline_effect_reinvokes_onEnter_witness :
  reachable Demo.customAnimation Demo.inline Demo.shown /\
  mounted Demo.shown = true /\ isVisible Demo.shown = true /\
  inlineEffect Demo.inline = true /\
  effectOf Demo.customAnimation = VObject Demo.keyframes /\
  exists s',
    step Demo.customAnimation Demo.inline Rerender Demo.shown = Ok s' /\
    log s' = log Demo.shown ++ [(now Demo.shown, Invoke OnEnter)].
Proof.
  split; [exact reachable_shown|]. do 4 (split; [reflexivity|]).
  destruct (rerender_with_inline_effect_reinvokes_onEnter
              Demo.customAnimation Demo.inline Demo.shown Demo.keyframes
              reachable_shown eq_refl eq_refl eq_refl eq_refl)
    as (s' & E & L & _).
  exists s'. split; [exact E|exact L].
Defined.


Lemma enter_invokes_onEnter_per_effect_run_witness :
  reachable Demo.customAnimation Demo.inline Scenario.hidden /\
  mounted Scenario.hidden = true /\ isVisible Scenario.hidden = false /\
  presence Scenario.hidden = false /\
  resolveAction (Updater negb) false = true /\
  (attachesRef Demo.inline = true ->
   getFrom (getEffectConfig (effectOf Demo.customAnimation))
     = Ok (from Demo.keyframes)) /\
  exists s1,
    step Demo.customAnimation Demo.inline (SetIsVisible (Updater negb))
      Scenario.hidden = Ok s1 /\
    invocations OnEnter (log s1) = [0; 0].
Proof.
  split; [exact reachable_inline_hidden|]. do 4 (split; [reflexivity|]).
  split; [intros _; reflexivity|].
  destruct (enter_invokes_onEnter_per_effect_run
              Demo.customAnimation Demo.inline Scenario.hidden
              (Updater negb) (from Demo.keyframes)
              reachable_inline_hidden eq_refl eq_refl eq_refl eq_refl
              (fun _ => eq_refl))
    as (s1 & E & L & _).
  exists s1. split; [exact E|exact L].
Defined.

Lemma timers_write_no_style_witness :
  reachable Scenario.options Scenario.attached Scenario.exitingState /\
  exists s',
    step Scenario.options Scenario.attached (Elapse 300)
      Scenario.exitingState = Ok s' /\
    styleMutations (log s') = styleMutations (log Scenario.exitingState).
Proof.
  split; [exact reachable_exiting|].
  destruct (timers_write_no_style Scenario.options Scenario.attached
              Scenario.exitingState 300 reachable_exiting)
    as (s' & fired & E & _ & _ & L & _).
  exists s'. split; [exact E|exact L].
Defined.

Lemma paint_invokes_no_callback_witness :
  (effectOf Scenario.options <> VNull \/
   attachesRef Scenario.attached = false) /\
  reachable Scenario.options Scenario.attached Demo.painting /\
  exists s',
    step Scenario.options Scenario.attached AnimationFrame Demo.painting
      = Ok s' /\
    presence s' = presence Demo.painting.
Proof.
  assert (effectOf Scenario.options <> VNull \/
          attachesRef Scenario.attached = false) as H
    by (left; vm_compute; discriminate).
  split; [exact H|]. split; [exact reachable_painting|].
  destruct (paint_invokes_no_callback Scenario.options Scenario.attached
              Demo.painting H reachable_painting)
    as (s' & E & _ & _ & P & _).
  exists s'. split; [exact E|exact P].
Defined.

Lemma removeToast_removes_one_witness :
  let st := ToastDemo.run [ToastDemo.Click; ToastDemo.Click; ToastDemo.Click]
              ToastDemo.initial in
  let t := {| ToastDemo.id := 1; ToastDemo.message := "Notification #2" |} in
  t ∈ ToastDemo.toasts st /\
  exists before after,
    ToastDemo.toasts st = before ++ t :: after /\
    ToastDemo.toasts (ToastDemo.removeToast 1 st) = before ++ after.
Proof.
  cbv zeta.
  assert ({| ToastDemo.id := 1; ToastDemo.message := "Notification #2" |}
          ∈ ToastDemo.toasts
              (ToastDemo.run
                 [ToastDemo.Click; ToastDemo.Click; ToastDemo.Click]
                 ToastDemo.initial)) as Hin.
  { vm_compute. right. left. }
  split; [exact Hin|].
  destruct (removeToast_removes_one
              [ToastDemo.Click; ToastDemo.Click; ToastDemo.Click]
              {| ToastDemo.id := 1; ToastDemo.message := "Notification #2" |}
              1) as (H & _).
  apply (H Hin).
Defined.

Lemma first_commit_witness :
  default false None = false /\
  attachesRef Scenario.attached = true /\
  getFrom (getEffectConfig (effectOf Scenario.options))
    = Ok (from Presets.fade) /\
  useTransitionState Scenario.options Scenario.attached None
    = Ok Scenario.hidden /\
  exists s1,
    useTransitionState Scenario.options Scenario.attached (Some true)
      = Ok s1 /\
    log s1 = [ (0, SetTransition "none"); (0, Assign {[ "opacity" := "0" ]});
               (0, Invoke OnEnter) ].
Proof.
  do 3 (split; [reflexivity|]).
  destruct (first_commit Scenario.options Scenario.attached
              (from Presets.fade)) as (Hhidden & _ & Hshown).
  split; [apply (Hhidden None eq_refl)|].
  destruct (Hshown eq_refl eq_refl) as (s1 & E & L & _).
  exists s1. split; [exact E|exact L].
Defined.

Lemma onExited_never_outnumbers_onExit_witness :
  reachable Demo.customAnimation Demo.inline Demo.hiding /\
  onExit Demo.customAnimation = true /\
  (length (invocations OnExited (log Demo.hiding)) +
   (if exiting Demo.hiding then 1 else 0)
   <= length (invocations OnExit (log Demo.hiding)))%nat.
Proof.
  split; [exact reachable_hiding|]. split; [reflexivity|].
  apply (onExited_never_outnumbers_onExit Demo.customAnimation Demo.inline
           Demo.hiding reachable_hiding eq_refl).
Defined.

Lemma onEntered_never_outnumbers_onEnter_witness :
  reachable Scenario.options Scenario.attached Scenario.exitingState /\
  onEnter Scenario.options = true /\
  (length (invocations OnEntered (log Scenario.exitingState)) +
   pendingEnters Scenario.exitingState
   <= length (invocations OnEnter (log Scenario.exitingState)))%nat.
Proof.
  split; [exact reachable_exiting|]. split; [reflexivity|].
  apply (onEntered_never_outnumbers_onEnter Scenario.options
           Scenario.attached Scenario.exitingState reachable_exiting eq_refl).
Defined.
